(** * Ocelot beam statistics and the mint optimizer: a shallow embedding

  The development follows two source files:
  - [ocelot/cpbd/beam.py]: particle arrays, second-moment statistics,
    slice analysis, beam matching, current profile, boxcar filter;
  - [mint/mint.py]: the online optimizer loop.

  Numbers.  The Python code computes with IEEE binary64 floats.  Array
  code is embedded over the real numbers [R]: every finite float is read
  as the real it denotes and rounding is left out.  Where the source can
  leave the reals from finite inputs (the square root of a negative
  number in [moments]) the function is written once over an interface
  of float operations and read both over [R] and over the primitive
  binary64 floats, where NaN is an honest value.  The other functions
  that take a square root or divide ([recalculate_ref_particle],
  [m_from_twiss], the matching of one plane) are read over [R] on the
  inputs where the float operation is defined: a non-negative radicand
  and a non-zero divisor.  The numbered theorems about the values they
  return carry that condition as a hypothesis.

  Exceptions.  A Python exception is an explicit [Raise] in the result
  type; [print] and logger calls have no effect on any value and are
  left out. *)

From Stdlib Require Import Reals Lra Lia List ZArith Bool Arith Sorted Permutation.
From Stdlib Require Floats String.
Import ListNotations.

Set Implicit Arguments.

(* ------------------------------------------------------------------ *)
(** * Python results *)

Module Py.

(** The exceptions the embedded code can raise. *)
Inductive exn : Type :=
| IndexError
| ValueError
| AttributeError
| UnboundLocalError
| ZeroDivisionError
| OverflowError.

Inductive result (A : Type) : Type :=
| Ok (a : A)
| Raise (e : exn).

Arguments Ok {A} a.
Arguments Raise {A} e.

Definition bind {A B} (m : result A) (k : A -> result B) : result B :=
  match m with
  | Ok a => k a
  | Raise e => Raise e
  end.

(** [range(a, b)] over the integers. *)
Definition range (a b : Z) : list Z :=
  map (fun k => (a + Z.of_nat k)%Z) (seq 0 (Z.to_nat (b - a))).

(** [l[i]] for a non-negative index: IndexError past the end. *)
Definition getitem {A} (l : list A) (i : nat) : result A :=
  match nth_error l i with
  | Some a => Ok a
  | None => Raise IndexError
  end.

End Py.

Export Py.

Declare Scope py_scope.
Delimit Scope py_scope with py.
Notation "x <- m ;; k" := (Py.bind m (fun x => k))
  (at level 61, m at next level, right associativity) : py_scope.
Notation "' pat <- m ;; k" := (Py.bind m (fun x => match x with pat => k end))
  (at level 61, pat pattern, m at next level, right associativity) : py_scope.

Open Scope R_scope.

(* ------------------------------------------------------------------ *)
(** * Real-number helpers shared by the array code *)

Definition Rltb (a b : R) : bool := if Rlt_dec a b then true else false.
Definition Rleb (a b : R) : bool := if Rle_dec a b then true else false.
Definition Rgtb (a b : R) : bool := Rltb b a.
Definition Rneqb (a b : R) : bool := if Req_dec_T a b then false else true.

(** [np.sum] of a 1-D array, left to right from 0. *)
Definition np_sum (l : list R) : R := fold_left Rplus l 0.

(** [np.mean]: the sum over the element count. *)
Definition np_mean (l : list R) : R := np_sum l / INR (length l).

(* ------------------------------------------------------------------ *)
(** * [simple_filter] (beam.py, lines 928-949) *)

(** The clamped window of the inner loop: [i0 = i - p], raised to 0 when
    negative; [i1 = i + p], lowered to [n - 1] when beyond it. *)
Definition window_lo (p i : Z) : Z :=
  if (i - p <? 0)%Z then 0%Z else (i - p)%Z.

Definition window_hi (n p i : Z) : Z :=
  if (i + p >? n - 1)%Z then (n - 1)%Z else (i + p)%Z.

(** [s = 0; for j in range(i0, i1+1): s = s + x[j]], for an array [x]
    of floats.  The indices of a clamped window are inside the array, so
    [x[j]] is [nth]. *)
Definition window_sum (x : list R) (i0 i1 : Z) : R :=
  fold_left (fun s j => s + nth (Z.to_nat j) x 0) (Py.range i0 (i1 + 1)) 0.

(** One run of the body of [for k in range(iter)]: the new array [y]. *)
Definition boxcar_pass (p : Z) (x : list R) : list R :=
  let n := Z.of_nat (length x) in
  map (fun i =>
         let i0 := window_lo p i in
         let i1 := window_hi n p i in
         window_sum x i0 i1 / IZR (i1 - i0 + 1))
      (Py.range 0 n).

(** The outer loop; [y] is unbound ([None]) until the body has run once,
    and each run ends with [x = y]. *)
Fixpoint filter_loop (k : nat) (p : Z) (x : list R) (y : option (list R))
  : option (list R) :=
  match k with
  | O => y
  | S k' => let y' := boxcar_pass p x in filter_loop k' p y' (Some y')
  end.

Definition simple_filter (x : list R) (p : Z) (iter : Z) : result (list R) :=
  if (iter =? 0)%Z then Ok x
  else match filter_loop (Z.to_nat iter) p x None with
       | Some y => Ok y
       | None => Raise UnboundLocalError
       end.

(** The words of the specification, for one pass: the unweighted average
    of the samples with index in [[i-p, i+p]] cut to [[0, n-1]]. *)
Definition boxcar_average (x : list R) (p : nat) (i : nat) : R :=
  let lo := (i - p)%nat in
  let hi := Nat.min (i + p) (length x - 1) in
  np_sum (firstn (hi - lo + 1) (skipn lo x)) / INR (hi - lo + 1).

(** [np.min] and [np.max] of a non-empty array. *)
Definition np_min (l : list R) : R := fold_right Rmin (hd 0 l) l.
Definition np_max (l : list R) : R := fold_right Rmax (hd 0 l) l.

(* ------------------------------------------------------------------ *)
(** * numpy helpers on 1-D arrays and index arrays *)

(** Element-wise binary operation on two rows of one 2-D array (equal
    lengths by the array's shape). *)
Fixpoint map2 {A B C} (f : A -> B -> C) (l1 : list A) (l2 : list B) : list C :=
  match l1, l2 with
  | a :: l1', b :: l2' => f a b :: map2 f l1' l2'
  | _, _ => []
  end.

(** [np.argwhere(cond)] on a 1-D boolean array, flattened: the indices
    where the condition holds, in increasing order. *)
Fixpoint argwhere_from {A} (i : nat) (f : A -> bool) (l : list A) : list nat :=
  match l with
  | [] => []
  | a :: l' => if f a then i :: argwhere_from (S i) f l'
               else argwhere_from (S i) f l'
  end.

Definition argwhere {A} (f : A -> bool) (l : list A) : list nat :=
  argwhere_from 0 f l.

(** [np.unique] of an index array: sorted, without repeats. *)
Fixpoint insert_unique (i : nat) (l : list nat) : list nat :=
  match l with
  | [] => [i]
  | j :: l' => if (i <? j)%nat then i :: l
               else if (i =? j)%nat then l
               else j :: insert_unique i l'
  end.

Definition np_unique (l : list nat) : list nat :=
  fold_right insert_unique [] l.

(** [np.delete(row, idxs)]: the entries whose position is not listed. *)
Fixpoint delete_from {A} (i : nat) (idxs : list nat) (l : list A) : list A :=
  match l with
  | [] => []
  | a :: l' => if existsb (Nat.eqb i) idxs then delete_from (S i) idxs l'
               else a :: delete_from (S i) idxs l'
  end.

(** [np.delete(m, idxs, axis=1)] on a 2-D array given by its rows.  The
    indices come from [argwhere] on rows of the same array, so none is
    out of bounds. *)
Definition np_delete_columns (m : list (list R)) (idxs : list nat)
  : list (list R) :=
  map (delete_from 0 idxs) m.

(** Replace row [k] of a 2-D array. *)
Fixpoint set_row {A} (k : nat) (r : A) (m : list A) : list A :=
  match m, k with
  | [], _ => []
  | _ :: m', O => r :: m'
  | a :: m', S k' => a :: set_row k' r m'
  end.

(* ------------------------------------------------------------------ *)
(** * class [ParticleArray] (beam.py, lines 424-509) *)

Module ParticleArray.

(** [rparticles] is the 6 x N coordinate matrix, stored by rows
    (x, px, y, py, tau, p); [q_array] the per-particle charge. *)
Record t : Type := mk {
  rparticles : list (list R);
  q_array : list R;
  s : R;
  E : R
}.

(** [__init__(self, n=0)] *)
Definition init (n : nat) : t :=
  {| rparticles := repeat (repeat 0 n) 6;
     q_array := repeat 0 n;
     s := 0;
     E := 0 |}.

Definition row (k : nat) (self : t) : list R := nth k (rparticles self) [].

Definition x (self : t) : list R := row 0 self.
Definition px (self : t) : list R := row 1 self.
Definition y (self : t) : list R := row 2 self.
Definition py (self : t) : list R := row 3 self.
Definition tau (self : t) : list R := row 4 self.
Definition p (self : t) : list R := row 5 self.

(** [rparticles.shape[1]]: the number of coordinate columns. *)
Definition columns (self : t) : nat := length (row 0 self).

(** [size(self)]: [rparticles.size / 6]. *)
Definition size (self : t) : nat :=
  (fold_right (fun r n => length r + n) 0 (rparticles self) / 6)%nat.

(** The shape of a 2-D array with six rows. *)
Definition shape_ok (self : t) : Prop :=
  length (rparticles self) = 6%nat /\
  Forall (fun r => length r = columns self) (rparticles self).

(** The invariant of the data model: one charge per column. *)
Definition weights_match (self : t) : Prop :=
  length (q_array self) = columns self.

(** [rm_tails(self, xlim, ylim, px_lim, py_lim)]: returns [p_idxs] and
    the mutated object.  Over the reals [x != x] never holds (it finds
    the NaN entries of a float array). *)
Definition rm_tails (self : t) (xlim ylim px_lim py_lim : R) : list nat * t :=
  let x := map Rabs (x self) in
  let px := map Rabs (px self) in
  let y := map Rabs (y self) in
  let py := map Rabs (py self) in
  let ind_angles :=
    argwhere (fun v => Rgtb v px_lim) px ++ argwhere (fun v => Rgtb v py_lim) py in
  let p_idxs :=
    np_unique (argwhere (fun v => Rgtb v xlim) x ++
               (argwhere (fun v => Rgtb v ylim) y ++
                (argwhere (fun v => Rneqb v v) x ++
                 (argwhere (fun v => Rneqb v v) y ++ ind_angles)))) in
  (p_idxs,
   {| rparticles := np_delete_columns (rparticles self) p_idxs;
      q_array := q_array self;
      s := s self;
      E := E self |}).

End ParticleArray.

(* ------------------------------------------------------------------ *)
(** * [recalculate_ref_particle] (beam.py, lines 524-532) *)

(** [m_e_GeV] is a constant of [ocelot.common.globals]; it is a
    parameter here.  [p()[0]] and [tau()[0]] raise IndexError on an array
    without particles.  [np.sqrt] of a negative number is NaN: the
    definition is the code for a non-zero [m_e_GeV] and
    [m_e_GeV^2 <= E^2], where the radicand is not negative. *)
Definition recalculate_ref_particle (m_e_GeV : R) (p_array : ParticleArray.t)
  : result ParticleArray.t :=
  (let pref :=
     sqrt (ParticleArray.E p_array ^ 2 / m_e_GeV ^ 2 - 1) * m_e_GeV in
   p0 <- getitem (ParticleArray.p p_array) 0 ;;
   let Enew := p0 * pref + ParticleArray.E p_array in
   tau0 <- getitem (ParticleArray.tau p_array) 0 ;;
   let s_new := ParticleArray.s p_array - tau0 in
   p0' <- getitem (ParticleArray.p p_array) 0 ;;
   let rp1 :=
     set_row 5 (map (fun v => v - p0') (ParticleArray.p p_array))
             (ParticleArray.rparticles p_array) in
   tau0' <- getitem (nth 4 rp1 []) 0 ;;
   let rp2 := set_row 4 (map (fun v => v - tau0') (nth 4 rp1 [])) rp1 in
   Ok {| ParticleArray.rparticles := rp2;
         ParticleArray.q_array := ParticleArray.q_array p_array;
         ParticleArray.s := s_new;
         ParticleArray.E := Enew |})%py.

(* ------------------------------------------------------------------ *)
(** * class [Twiss] (beam.py, lines 32-95) *)

Module Twiss.

(** The attributes [__init__] sets, and after them the ones
    [get_envelope] adds to the object ([None]: not set). *)
Record t : Type := mk {
  emit_x : R; emit_y : R; emit_xn : R; emit_yn : R;
  beta_x : R; beta_y : R; alpha_x : R; alpha_y : R;
  gamma_x : R; gamma_y : R; mux : R; muy : R;
  Dx : R; Dy : R; Dxp : R; Dyp : R;
  x : R; y : R; xp : R; yp : R;
  E : R; p : R; tau : R; s : R;
  id : String.string;
  px : option R; py : option R;
  xx : option R; xpx : option R; pxpx : option R;
  yy : option R; ypy : option R; pypy : option R
}.

(** [Twiss()], the branch [beam == None]. *)
Definition init : t :=
  {| emit_x := 0; emit_y := 0; emit_xn := 0; emit_yn := 0;
     beta_x := 0; beta_y := 0; alpha_x := 0; alpha_y := 0;
     gamma_x := 0; gamma_y := 0; mux := 0; muy := 0;
     Dx := 0; Dy := 0; Dxp := 0; Dyp := 0;
     x := 0; y := 0; xp := 0; yp := 0;
     E := 0; p := 0; tau := 0; s := 0;
     id := String.EmptyString;
     px := None; py := None;
     xx := None; xpx := None; pxpx := None;
     yy := None; ypy := None; pypy := None |}.

End Twiss.

(* ------------------------------------------------------------------ *)
(** * [get_envelope] (beam.py, lines 535-587) *)

(** The two assignments of the small-angle correction, in the order the
    source runs them (lines 548-552):
<<
    px = px*(1.-0.5*px*px - 0.5*py*py)
    py = py*(1.-0.5*px*px - 0.5*py*py)
>>
    The second statement reads the name [px] after the first has
    rebound it.  The numexpr branch evaluates the same two expressions
    on the same local names, so one definition covers both branches. *)
Definition small_angle_correction (px py : list R) : list R * list R :=
  let px := map2 (fun px py => px * (1 - 0.5 * px * px - 0.5 * py * py)) px py in
  let py := map2 (fun px py => py * (1 - 0.5 * px * px - 0.5 * py * py)) px py in
  (px, py).

(** The rows of [p_array] are rows of one 6 x N array, so the
    element-wise operations are on arrays of one length.  Over the reals
    [np.mean] of an empty array and a quotient by a zero emittance are
    the values [Rdiv] gives them (numpy: NaN or an infinity). *)
Definition get_envelope (p_array : ParticleArray.t) (tws_i : Twiss.t) : Twiss.t :=
  let p := ParticleArray.p p_array in
  let dx := map (Rmult (Twiss.Dx tws_i)) p in
  let dy := map (Rmult (Twiss.Dy tws_i)) p in
  let dpx := map (Rmult (Twiss.Dxp tws_i)) p in
  let dpy := map (Rmult (Twiss.Dyp tws_i)) p in
  let x := map2 Rminus (ParticleArray.x p_array) dx in
  let px := map2 Rminus (ParticleArray.px p_array) dpx in
  let y := map2 Rminus (ParticleArray.y p_array) dy in
  let py := map2 Rminus (ParticleArray.py p_array) dpy in
  let '(px, py) := small_angle_correction px py in
  let tw_x := np_mean x in
  let tw_y := np_mean y in
  let tw_px := np_mean px in
  let tw_py := np_mean py in
  let xx := np_mean (map (fun x => (x - tw_x) * (x - tw_x)) x) in
  let xpx := np_mean (map2 (fun x px => (x - tw_x) * (px - tw_px)) x px) in
  let pxpx := np_mean (map (fun px => (px - tw_px) * (px - tw_px)) px) in
  let yy := np_mean (map (fun y => (y - tw_y) * (y - tw_y)) y) in
  let ypy := np_mean (map2 (fun y py => (y - tw_y) * (py - tw_py)) y py) in
  let pypy := np_mean (map (fun py => (py - tw_py) * (py - tw_py)) py) in
  let emit_x := sqrt (xx * pxpx - xpx ^ 2) in
  let emit_y := sqrt (yy * pypy - ypy ^ 2) in
  {| Twiss.emit_x := emit_x; Twiss.emit_y := emit_y;
     Twiss.emit_xn := 0; Twiss.emit_yn := 0;
     Twiss.beta_x := xx / emit_x; Twiss.beta_y := yy / emit_y;
     Twiss.alpha_x := - xpx / emit_x; Twiss.alpha_y := - ypy / emit_y;
     Twiss.gamma_x := 0; Twiss.gamma_y := 0; Twiss.mux := 0; Twiss.muy := 0;
     Twiss.Dx := 0; Twiss.Dy := 0; Twiss.Dxp := 0; Twiss.Dyp := 0;
     Twiss.x := tw_x; Twiss.y := tw_y; Twiss.xp := 0; Twiss.yp := 0;
     Twiss.E := ParticleArray.E p_array; Twiss.p := np_mean p;
     Twiss.tau := 0; Twiss.s := 0;
     Twiss.id := String.EmptyString;
     Twiss.px := Some tw_px; Twiss.py := Some tw_py;
     Twiss.xx := Some xx; Twiss.xpx := Some xpx; Twiss.pxpx := Some pxpx;
     Twiss.yy := Some yy; Twiss.ypy := Some ypy; Twiss.pypy := Some pypy |}.

(* ------------------------------------------------------------------ *)
(** * numpy helpers used by the statistics kernel *)

(** [l[k]] for a Python integer [k]: a negative index counts from the
    end; IndexError outside [-len, len). *)
Definition getitemZ {A} (l : list A) (k : Z) : result A :=
  let n := Z.of_nat (length l) in
  if (k <? 0)%Z then
    (if (n + k <? 0)%Z then Raise IndexError else getitem l (Z.to_nat (n + k)))
  else getitem l (Z.to_nat k).

Fixpoint mapM {A B} (f : A -> result B) (l : list A) : result (list B) :=
  match l with
  | [] => Ok []
  | a :: l' =>
      match f a with
      | Ok b => match mapM f l' with
                | Ok bs => Ok (b :: bs)
                | Raise e => Raise e
                end
      | Raise e => Raise e
      end
  end.

(** Element-wise operation on two 1-D arrays with numpy's broadcasting:
    equal lengths, or one of them of length 1; ValueError otherwise. *)
Definition np_broadcast2 {A B C} (f : A -> B -> C) (a : list A) (b : list B)
  : result (list C) :=
  if (length a =? length b)%nat then Ok (map2 f a b)
  else match a, b with
       | [a0], _ => Ok (map (f a0) b)
       | _, [b0] => Ok (map (fun v => f v b0) a)
       | _, _ => Raise ValueError
       end.

(** [np.cumsum]. *)
Fixpoint cumsum_from (acc : R) (l : list R) : list R :=
  match l with
  | [] => []
  | v :: l' => (acc + v) :: cumsum_from (acc + v) l'
  end.

Definition np_cumsum (l : list R) : list R := cumsum_from 0 l.

(** [np.round]: to the nearest integer, a tie to the even one. *)
Definition np_round (r : R) : Z :=
  let f := Zfloor r in
  if Rlt_dec (r - IZR f) (1 / 2) then f
  else if Rlt_dec (1 / 2) (r - IZR f) then (f + 1)%Z
  else if Z.even f then f else (f + 1)%Z.

(** [z.argsort()]: the indices that sort [z].  The model is the stable
    insertion sort; numpy's default sort leaves the order of equal keys
    open. *)
Fixpoint insert_by_key (z : list R) (i : nat) (l : list nat) : list nat :=
  match l with
  | [] => [i]
  | j :: l' => if Rle_dec (nth i z 0) (nth j z 0) then i :: l
               else j :: insert_by_key z i l'
  end.

Definition argsort (z : list R) : list nat :=
  fold_right (insert_by_key z) [] (seq 0 (length z)).

(** [x[indx]] for an index array. *)
Definition take (x : list R) (indx : list nat) : result (list R) :=
  mapM (getitem x) indx.

(* ------------------------------------------------------------------ *)
(** * [slice_analysis] (beam.py, lines 879-925) *)

(** The window of index [i]: [n1 = int(max(0, i-m))],
    [n2 = int(min(N-1, i+m))].  [m] is an integer-valued float, so the
    conversions are exact. *)
Definition slice_n1 (m i : Z) : Z := Z.max 0 (i - m).
Definition slice_n2 (N m i : Z) : Z := Z.min (N - 1) (i + m).

(** [(c[n2] - c[n1])/dq] with [dq = n2 - n1], for a cumulative sum [c]. *)
Definition window_quotient (N m : Z) (c : list R) (i : Z) : result R :=
  (let n1 := slice_n1 m i in
   let n2 := slice_n2 N m i in
   let dq := (n2 - n1)%Z in
   a <- getitemZ c n2 ;;
   b <- getitemZ c n1 ;;
   Ok ((a - b) / IZR dq))%py.

(** [M] is read as a float, [M/2] as the true quotient.  Over the reals a
    quotient by [dq = 0] (only for [N = 1]) is the value [Rdiv] gives it
    (numpy: NaN).  The result is the list of the six arrays
    [[mx, mxs, mxx, mxxs, mxsxs, emittx]]. *)
Definition slice_analysis (z x xs : list R) (M : R) (to_sort : bool)
  : result (list (list R)) :=
  ('(x, xs) <- (if to_sort then
                  let indx := argsort z in
                  x' <- take x indx ;;
                  xs' <- take xs indx ;;
                  Ok (x', xs')
                else Ok (x, xs)) ;;
   let N := Z.of_nat (length x) in
   let m := Z.max (np_round (M / 2)) 1 in
   let xc := np_cumsum x in
   let xsc := np_cumsum xs in
   means <- mapM (fun i =>
                    a <- window_quotient N m xc i ;;
                    b <- window_quotient N m xsc i ;;
                    Ok (a, b))
                 (Py.range 0 N) ;;
   let mx := map fst means in
   let mxs := map snd means in
   x <- np_broadcast2 Rminus x mx ;;
   xs <- np_broadcast2 Rminus xs mxs ;;
   x2 <- np_broadcast2 Rmult x x ;;
   let x2c := np_cumsum x2 in
   xs2 <- np_broadcast2 Rmult xs xs ;;
   let xs2c := np_cumsum xs2 in
   xxs <- np_broadcast2 Rmult x xs ;;
   let xxsc := np_cumsum xxs in
   second <- mapM (fun i =>
                     a <- window_quotient N m x2c i ;;
                     b <- window_quotient N m xs2c i ;;
                     c <- window_quotient N m xxsc i ;;
                     Ok (a, b, c))
                  (Py.range 0 N) ;;
   let mxx := map (fun t => fst (fst t)) second in
   let mxsxs := map (fun t => snd (fst t)) second in
   let mxxs := map snd second in
   t1 <- np_broadcast2 Rmult mxx mxsxs ;;
   t2 <- np_broadcast2 Rmult mxxs mxxs ;;
   rad <- np_broadcast2 Rminus t1 t2 ;;
   let emittx := map sqrt rad in
   Ok [mx; mxs; mxx; mxxs; mxsxs; emittx])%py.

(** The global (unsliced) centred moments of a sample, in the words of
    the specification: means, centred second moments with weight 1/n,
    and the emittance. *)
Definition centered_var (x : list R) : R :=
  np_mean (map (fun v => (v - np_mean x) * (v - np_mean x)) x).

Definition centered_cov (x y : list R) : R :=
  np_mean (map2 (fun a b => (a - np_mean x) * (b - np_mean y)) x y).

Definition global_moments (x xs : list R) : list R :=
  [np_mean x; np_mean xs; centered_var x; centered_cov x xs; centered_var xs;
   sqrt (centered_var x * centered_var xs - centered_cov x xs * centered_cov x xs)].

(* ------------------------------------------------------------------ *)
(** * The float operations [moments] is written over *)

Module NpFloat.

(** The operations of numpy's float64 that [moments] uses.  [of_nat] is
    the conversion of an array length in a mixed quotient such as
    [np.sum(x2)/n]. *)
Record ops (F : Type) : Type := mk {
  zero : F;
  add : F -> F -> F;
  sub : F -> F -> F;
  mul : F -> F -> F;
  div : F -> F -> F;
  sqrt : F -> F;
  of_nat : nat -> F
}.

(** The reals: exact arithmetic.  Meaningful where no divisor is zero and
    no radicand negative. *)
Definition real : ops R :=
  {| zero := 0; add := Rplus; sub := Rminus; mul := Rmult; div := Rdiv;
     sqrt := R_sqrt.sqrt; of_nat := INR |}.

(** IEEE binary64, the arithmetic the program runs on: a quotient 0/0
    and the square root of a negative number are NaN, no exception. *)
Definition binary64 : ops PrimFloat.float :=
  {| zero := PrimFloat.zero;
     add := PrimFloat.add; sub := PrimFloat.sub;
     mul := PrimFloat.mul; div := PrimFloat.div;
     sqrt := PrimFloat.sqrt;
     of_nat := fun n => PrimFloat.of_uint63 (Uint63.of_Z (Z.of_nat n)) |}.

Section Generic.

Context {F : Type} (O : ops F).

(** [np.sum] and [np.mean], summing left to right from zero (numpy sums
    arrays of fewer than 8 elements in this order). *)
Definition sum (l : list F) : F := fold_left (add O) l (zero O).

Definition mean (l : list F) : F := div O (sum l) (of_nat O (length l)).

End Generic.

End NpFloat.

(* ------------------------------------------------------------------ *)
(** * [moments] (beam.py, lines 635-668) *)

Section Moments.

Context {F : Type} (O : NpFloat.ops F).

(** The path [cut = 0] of the source, taken by every call in the module
    (the branch [if cut>0] is not entered).  [x*y] raises ValueError when
    the two lengths do not broadcast. *)
Definition moments (x y : list F) : result (F * F * F * F * F * F) :=
  (let n := length x in
   let mx := NpFloat.mean O x in
   let my := NpFloat.mean O y in
   let x := map (fun v => NpFloat.sub O v mx) x in
   let y := map (fun v => NpFloat.sub O v my) y in
   x2 <- np_broadcast2 (NpFloat.mul O) x x ;;
   let mxx := NpFloat.div O (NpFloat.sum O x2) (NpFloat.of_nat O n) in
   y2 <- np_broadcast2 (NpFloat.mul O) y y ;;
   let myy := NpFloat.div O (NpFloat.sum O y2) (NpFloat.of_nat O n) in
   xy <- np_broadcast2 (NpFloat.mul O) x y ;;
   let mxy := NpFloat.div O (NpFloat.sum O xy) (NpFloat.of_nat O n) in
   let emitt :=
     NpFloat.sqrt O (NpFloat.sub O (NpFloat.mul O mxx myy) (NpFloat.mul O mxy mxy)) in
   Ok (mx, my, mxx, mxy, myy, emitt))%py.

(** The population (weight 1/n) centred second moment of two samples of
    one length, in the words of the specification. *)
Definition population_moment (x y : list F) : F :=
  NpFloat.div O
    (NpFloat.sum O
       (map2 (fun a b => NpFloat.mul O (NpFloat.sub O a (NpFloat.mean O x))
                                       (NpFloat.sub O b (NpFloat.mean O y)))
             x y))
    (NpFloat.of_nat O (length x)).

End Moments.

(* ------------------------------------------------------------------ *)
(** * [m_from_twiss] (beam.py, lines 670-687) *)

(** [Tw1] and [Tw2] are the Python lists [[alpha, beta, psi]]; the
    result is the 2 x 2 array [M] by rows.  All six entries are read
    before anything is computed.  A zero beta divides by zero and a
    negative one gives NaN square roots: past the six reads the
    definition is the code for positive [b1] and [b2]. *)
Definition m_from_twiss (Tw1 Tw2 : list R) : result (list (list R)) :=
  (b1 <- getitem Tw1 1 ;;
   a1 <- getitem Tw1 0 ;;
   psi1 <- getitem Tw1 2 ;;
   b2 <- getitem Tw2 1 ;;
   a2 <- getitem Tw2 0 ;;
   psi2 <- getitem Tw2 2 ;;
   let psi := psi2 - psi1 in
   let cosp := cos psi in
   let sinp := sin psi in
   Ok [[sqrt (b2 / b1) * (cosp + a1 * sinp);
        sqrt (b2 * b1) * sinp];
       [((a1 - a2) * cosp - (1 + a1 * a2) * sinp) / sqrt (b2 * b1);
        sqrt (b1 / b2) * (cosp - a2 * sinp)]])%py.

(* ------------------------------------------------------------------ *)
(** * [beam_matching] (beam.py, lines 689-717 and 757-785) *)

(** [a[...] = v] for a 1-D slot of length [n]: [v] has that length, or
    length 1 and is repeated; ValueError otherwise (could not broadcast
    input array). *)
Definition assign_slot (n : nat) (v : list R) : result (list R) :=
  if (length v =? n)%nat then Ok v
  else match v with
       | [v0] => Ok (repeat v0 n)
       | _ => Raise ValueError
       end.

(** [np.std]: the square root of the mean squared deviation. *)
Definition np_std (l : list R) : R :=
  sqrt (np_mean (map (fun v => Rabs (v - np_mean l) ^ 2) l)).

(** One transverse plane: the moments of the particles listed in [inds],
    the matrix to the target optics, and the two matched columns.  The
    two quotients by [emitx0] are inf or NaN for a zero emittance: the
    definition is the code for a positive measured emittance. *)
Definition match_plane (inds : list nat) (u us : list R) (opt : list R)
  : result (list R * list R) :=
  (u_in <- take u inds ;;
   us_in <- take us inds ;;
   '(mx, mxs, mxx, mxxs, mxsxs, emitx0) <- moments NpFloat.real u_in us_in ;;
   let beta := mxx / emitx0 in
   let alpha := - mxxs / emitx0 in
   M <- m_from_twiss [alpha; beta; 0] opt ;;
   let M00 := nth 0 (nth 0 M []) 0 in
   let M01 := nth 1 (nth 0 M []) 0 in
   let M10 := nth 0 (nth 1 M []) 0 in
   let M11 := nth 1 (nth 1 M []) 0 in
   Ok (map2 (fun a b => M00 * a + M01 * b) u us,
       map2 (fun a b => M10 * a + M11 * b) u us))%py.

(** The body the function and the method share, from [pd[:, 0] = ...]
    on; [rows] is the first dimension of the scratch table [pd], which
    is kept by columns.  [particles] is the 2-D array by rows and the
    result is the array after the in-place assignments. *)
Definition beam_matching_body (rows : nat) (particles : list (list R))
           (bounds x_opt y_opt : list R) : result (list (list R)) :=
  (p0 <- getitem particles 0 ;; pd0 <- assign_slot rows p0 ;;
   p1 <- getitem particles 1 ;; pd1 <- assign_slot rows p1 ;;
   p2 <- getitem particles 2 ;; pd2 <- assign_slot rows p2 ;;
   p3 <- getitem particles 3 ;; pd3 <- assign_slot rows p3 ;;
   p4 <- getitem particles 4 ;; pd4 <- assign_slot rows p4 ;;
   p5 <- getitem particles 5 ;; pd5 <- assign_slot rows p5 ;;
   let z0 := np_mean pd4 in
   let sig0 := np_std pd4 in
   b0 <- getitem bounds 0 ;;
   b1 <- getitem bounds 1 ;;
   let inds :=
     argwhere (fun t => Rleb (z0 + sig0 * b0) t && Rleb t (z0 + sig0 * b1)) pd4 in
   '(x', px') <- match_plane inds pd0 pd1 x_opt ;;
   r0 <- assign_slot (length p0) x' ;;
   r1 <- assign_slot (length p1) px' ;;
   '(y', py') <- match_plane inds pd2 pd3 y_opt ;;
   r2 <- assign_slot (length p2) y' ;;
   r3 <- assign_slot (length p3) py' ;;
   Ok (set_row 3 r3 (set_row 2 r2 (set_row 1 r1 (set_row 0 r0 particles)))))%py.

(** The module-level function: [pd = np.zeros((int(len(particles)/6), 6))].
    [len] of a 2-D array is its number of rows. *)
Definition beam_matching (particles : list (list R)) (bounds x_opt y_opt : list R)
  : result (list (list R)) :=
  beam_matching_body (length particles / 6) particles bounds x_opt y_opt.

Module BeamTransform.

(** [BeamTransform.moments]: the text of [moments] with one unused
    assignment more. *)
Definition moments := @moments R NpFloat.real.

(** The method: [pd = np.zeros((int(particles.size / 6), 6))].  [size]
    is the number of elements. *)
Definition beam_matching (particles : list (list R)) (bounds x_opt y_opt : list R)
  : result (list (list R)) :=
  beam_matching_body
    (fold_right (fun r n => length r + n)%nat 0%nat particles / 6)
    particles bounds x_opt y_opt.

End BeamTransform.

(** The values of the particles whose key passes a test: the particles
    inside the selection window, in the words of the specification. *)
Fixpoint select (f : R -> bool) (keys vals : list R) : list R :=
  match keys, vals with
  | k :: ks, v :: vs => if f k then v :: select f ks vs else select f ks vs
  | _, _ => []
  end.

(** [[alpha, beta, 0]] measured on a sample of one plane: beta = var/emit,
    alpha = -cov/emit, phase advance 0. *)
Definition measured_twiss (u us : list R) : list R :=
  let emit :=
    sqrt (centered_var u * centered_var us - centered_cov u us * centered_cov u us) in
  [- centered_cov u us / emit; centered_var u / emit; 0].

(** A 2 x 2 matrix applied to every (position, angle) pair. *)
Definition apply_matrix (M : list (list R)) (u us : list R) : list R * list R :=
  (map2 (fun a b => nth 0 (nth 0 M []) 0 * a + nth 1 (nth 0 M []) 0 * b) u us,
   map2 (fun a b => nth 0 (nth 1 M []) 0 * a + nth 1 (nth 1 M []) 0 * b) u us).

(* ------------------------------------------------------------------ *)
(** * mint/mint.py: the machine interface and the optimizer *)

Module Mint.

Import String.StringSyntax.
Delimit Scope string_scope with string.

Definition device : Type := String.string.

(** [class MachineInterface]: the methods an implementation provides.
    [W] is the state of the machine (hardware or simulator) behind the
    interface; a read may change it. *)
Record MachineInterface (W : Type) : Type := {
  get_alarms : W -> list R * W;
  get_sase : W -> R * W;
  get_value : device -> W -> R * W;
  set_value : device -> R -> W -> W;
  init_corrector_vals : list device -> W -> list R * W
}.

(** [class TestInterface]. *)
Definition TestInterface : MachineInterface unit :=
  {| get_alarms := fun w => ([0], w);
     get_sase := fun w => (0, w);
     get_value := fun _ w => (0, w);
     set_value := fun _ _ w => w;
     init_corrector_vals := fun correctors w => (repeat 0 (length correctors), w) |}.

(** The device properties object [dp] the optimizer is given: the code
    calls [dp.get_limits(name)] and reads entries 0 and 1 of the result. *)
Record DeviceProperties : Type := {
  get_limits : device -> list R
}.

(** What [max_sase] writes to its log file. *)
Inductive log_item : Type :=
| LogBanner
| LogCorrectors (correctors : list device)
| LogMethod (method : String.string)
| LogX0 (x : list R)
| LogSase0 (sase : R)
| LogSaseNew (sase : R).

(** What the optimizer does to the world, in order: calls of the machine
    interface, the wait, and the log file. *)
Inductive event : Type :=
| SetValue (name : device) (val : R)
| Sleep (seconds : R)
| GetSase (sase : R)
| GetAlarms (alarms : list R)
| InitCorrectorVals (correctors : list device) (vals : list R)
| FileOpen (name : String.string)
| FileWrite (item : log_item)
| FileClose.

(** A run threads the machine state and the trace of events; an
    exception keeps the state reached when it was raised. *)
Definition M (W A : Type) : Type := W * list event -> result A * (W * list event).

Definition ret {W A} (a : A) : M W A := fun st => (Ok a, st).

Definition raise {W A} (e : exn) : M W A := fun st => (Raise e, st).

Definition bindM {W A B} (m : M W A) (k : A -> M W B) : M W B :=
  fun st => match m st with
            | (Ok a, st') => k a st'
            | (Raise e, st') => (Raise e, st')
            end.

Definition lift {W A} (r : result A) : M W A := fun st => (r, st).

Definition emit {W} (e : event) : M W unit :=
  fun st => (Ok tt, (fst st, snd st ++ [e])).

(** [np.max] of the alarm readings: ValueError on an empty sequence. *)
Definition max_alarm (alarms : list R) : result R :=
  match alarms with
  | [] => Raise ValueError
  | _ => Ok (np_max alarms)
  end.

(** A derivative-free minimizer of scipy, seen from outside: from its
    start vector and the (point, value) pairs it has evaluated so far,
    the next point to evaluate, or [None] when it stops. *)
Definition strategy : Type := list R -> list (list R * R) -> option (list R).

(** The keyword arguments the three calls pass. *)
Record options : Type := {
  maxiter : R;
  tol : R;
  epsilon : option R
}.

(** [scipy.optimize]: [fmin_cg], [fmin] and [fmin_powell] as strategies,
    and the number of evaluations their caps allow. *)
Record Scipy : Type := {
  fmin_cg : options -> strategy;
  fmin : options -> strategy;
  fmin_powell : options -> strategy;
  evaluations : options -> nat
}.

(** [params[key]] with the [except KeyError] default. *)
Fixpoint lookup (params : list (String.string * R)) (key : String.string) : option R :=
  match params with
  | [] => None
  | (k, v) :: rest => if String.eqb k key then Some v else lookup rest key
  end.

Definition param_or (params : list (String.string * R)) (key : String.string)
           (default : R) : R :=
  match lookup params key with
  | Some v => v
  | None => default
  end.

Module Optimizer.

(** [Optimizer.__init__] sets [debug], [timeout] and [logging];
    [log_file] is an attribute only when a caller has set it. *)
Record t (W : Type) : Type := {
  debug : bool;
  mi : MachineInterface W;
  dp : DeviceProperties;
  timeout : R;
  logging : bool;
  log_file : option String.string
}.

Definition init {W} (mi : MachineInterface W) (dp : DeviceProperties) : t W :=
  {| debug := false; mi := mi; dp := dp; timeout := 1;
     logging := false; log_file := None |}.

Section MaxSase.

Context {W : Type}.
Variable self : t W.

(** [time.sleep]: what the machine does while the program waits. *)
Variable elapse : R -> W -> W.
Variable scipy : Scipy.

Definition mi_set_value (name : device) (val : R) : M W unit :=
  fun st => (Ok tt, (set_value (mi self) name val (fst st),
                     snd st ++ [SetValue name val])).

Definition mi_get_sase : M W R :=
  fun st => let '(v, w) := get_sase (mi self) (fst st) in
            (Ok v, (w, snd st ++ [GetSase v])).

Definition mi_get_alarms : M W (list R) :=
  fun st => let '(a, w) := get_alarms (mi self) (fst st) in
            (Ok a, (w, snd st ++ [GetAlarms a])).

Definition mi_init_corrector_vals (correctors : list device) : M W (list R) :=
  fun st => let '(x, w) := init_corrector_vals (mi self) correctors (fst st) in
            (Ok x, (w, snd st ++ [InitCorrectorVals correctors x])).

Definition sleep (seconds : R) : M W unit :=
  fun st => (Ok tt, (elapse seconds (fst st), snd st ++ [Sleep seconds])).

(** The first loop of [error_func]: [true] when it returned [pen_max]
    from inside the loop.  The two [print] calls read [correctors[i]],
    [x[i]], [limits[0]] and [limits[1]] before the comparison. *)
Fixpoint limits_exceeded (correctors : list device) (x : list R)
         (indices : list nat) : result bool :=
  match indices with
  | [] => Ok false
  | i :: rest =>
      (c <- getitem correctors i ;;
       xi <- getitem x i ;;
       let limits := get_limits (dp self) c in
       l0 <- getitem limits 0 ;;
       l1 <- getitem limits 1 ;;
       if Rltb xi l0 || Rgtb xi l1 then Ok true
       else limits_exceeded correctors x rest)%py
  end.

(** The second loop: one write per corrector. *)
Fixpoint set_all (correctors : list device) (x : list R) (indices : list nat)
  : M W unit :=
  match indices with
  | [] => ret tt
  | i :: rest =>
      bindM (lift (getitem correctors i)) (fun c =>
      bindM (lift (getitem x i)) (fun xi =>
      bindM (mi_set_value c xi) (fun _ =>
      set_all correctors x rest)))
  end.

(** [error_func(x)], the closure of [max_sase] (lines 74-117). *)
Definition error_func (correctors : list device) (x : list R) : M W R :=
  let pen_max := 100 in
  bindM (lift (limits_exceeded correctors x (seq 0 (length x)))) (fun exceeded =>
  if exceeded then ret pen_max
  else
    bindM (set_all correctors x (seq 0 (length correctors))) (fun _ =>
    bindM (sleep (timeout self)) (fun _ =>
    bindM mi_get_sase (fun sase =>
    bindM mi_get_alarms (fun alarms =>
    bindM (lift (max_alarm alarms)) (fun alarm =>
    let pen := 0 in
    if Rgtb alarm 1 then ret pen_max
    else if Rgtb alarm 0.7 then ret (alarm * 50)
    else
      let pen := pen + alarm in
      let pen := pen - sase in
      ret pen)))))).

(** A run of a minimizer on the objective [f]: it evaluates what its
    strategy asks for until the strategy stops or the cap is reached. *)
Fixpoint minimize (fuel : nat) (next : list (list R * R) -> option (list R))
         (f : list R -> M W R) (seen : list (list R * R)) : M W unit :=
  match fuel with
  | O => ret tt
  | S fuel' =>
      match next seen with
      | None => ret tt
      | Some x => bindM (f x) (fun v => minimize fuel' next f (seen ++ [(x, v)]))
      end
  end.

Definition run_minimizer (s : options -> strategy) (o : options)
           (f : list R -> M W R) (x0 : list R) : M W unit :=
  minimize (evaluations scipy o) (s o x0) f [].

(** [if self.logging: f = open(self.log_file, 'a'); f.write(...)]. *)
Definition log_start (correctors : list device) (method : String.string)
           (x_init : list R) (sase_ref : R) : M W unit :=
  if logging self then
    match log_file self with
    | None => raise AttributeError
    | Some name =>
        bindM (emit (FileOpen name)) (fun _ =>
        bindM (emit (FileWrite LogBanner)) (fun _ =>
        bindM (emit (FileWrite (LogCorrectors correctors))) (fun _ =>
        bindM (emit (FileWrite (LogMethod method))) (fun _ =>
        bindM (emit (FileWrite (LogX0 x_init))) (fun _ =>
        emit (FileWrite (LogSase0 sase_ref)))))))
    end
  else ret tt.

Definition log_end (sase_new : R) : M W unit :=
  if logging self then
    bindM (emit (FileWrite (LogSaseNew sase_new))) (fun _ => emit FileClose)
  else ret tt.

(** The revert loop of lines 193-195. *)
Fixpoint revert_all (correctors : list device) (x_init : list R)
         (indices : list nat) : M W unit :=
  match indices with
  | [] => ret tt
  | i :: rest =>
      bindM (lift (getitem correctors i)) (fun c =>
      bindM (lift (getitem x_init i)) (fun xi =>
      bindM (mi_set_value c xi) (fun _ =>
      revert_all correctors x_init rest)))
  end.

(** [max_sase(self, correctors, method, params)] (lines 61-199).  The
    minimizers take a copy of the start vector, so [x_init] keeps the
    values read at the start. *)
Definition max_sase (correctors : list device) (method : String.string)
           (params : list (String.string * R)) : M W unit :=
  bindM mi_get_sase (fun sase_ref =>
  bindM (mi_init_corrector_vals correctors) (fun x =>
  let x_init := x in
  bindM (log_start correctors method x_init sase_ref) (fun _ =>
  bindM (if String.eqb method "cg"%string then
           let max_iter := param_or params "maxiter"%string (10 * INR (length x)) in
           let epsilon := param_or params "epsilon"%string 0.1 in
           let gtol := param_or params "gtol"%string 1e-3 in
           run_minimizer (fmin_cg scipy)
             {| maxiter := max_iter; tol := gtol; epsilon := Some epsilon |}
             (error_func correctors) x
         else ret tt) (fun _ =>
  bindM (if String.eqb method "simplex"%string then
           let max_iter := param_or params "maxiter"%string (10 * INR (length x)) in
           let xtol := param_or params "xtol"%string 1e-3 in
           run_minimizer (fmin scipy)
             {| maxiter := max_iter; tol := xtol; epsilon := None |}
             (error_func correctors) x
         else ret tt) (fun _ =>
  bindM (if String.eqb method "powell"%string then
           let max_iter := param_or params "maxiter"%string (10 * INR (length x)) in
           let xtol := param_or params "xtol"%string 1e-3 in
           run_minimizer (fmin_powell scipy)
             {| maxiter := max_iter; tol := xtol; epsilon := None |}
             (error_func correctors) x
         else ret tt) (fun _ =>
  bindM mi_get_sase (fun sase_new =>
  bindM (if Rleb sase_new sase_ref then
           revert_all correctors x_init (seq 0 (length correctors))
         else ret tt) (fun _ =>
  log_end sase_new)))))))).

End MaxSase.

End Optimizer.

End Mint.

(** The words of the specification for the tuning loop. *)
Module MintSpec.

(** A proposed value is outside the actuator's configured limits. *)
Definition outside_limits (dp : Mint.DeviceProperties) (c : Mint.device) (v : R)
  : Prop :=
  v < nth 0 (Mint.get_limits dp c) 0 \/ nth 1 (Mint.get_limits dp c) 0 < v.

(** The writes of a vector to the actuators, one per actuator, in order. *)
Definition writes (correctors : list Mint.device) (x : list R) : list Mint.event :=
  map2 Mint.SetValue correctors x.

(** The machine after those writes. *)
Definition written {W} (mi : Mint.MachineInterface W)
           (correctors : list Mint.device) (x : list R) (w : W) : W :=
  fold_left (fun w cv => Mint.set_value mi (fst cv) (snd cv) w)
            (combine correctors x) w.

(** The value the objective returns from the alarm level and the
    objective reading. *)
Definition penalty (alarm sase : R) : R :=
  if Rlt_dec 1 alarm then 100
  else if Rlt_dec 0.7 alarm then alarm * 50
  else alarm - sase.

End MintSpec.

Module MintTrace.

(** An event that touches no actuator: a write to the log file. *)
Definition is_log (e : Mint.event) : Prop :=
  match e with
  | Mint.FileOpen _ | Mint.FileWrite _ | Mint.FileClose => True
  | _ => False
  end.

(** A run that raises nothing and only adds events to the trace. *)
Definition runs_ok {W A} (m : Mint.M W A) : Prop :=
  forall w log, exists a w' ev, m (w, log) = (Ok a, (w', log ++ ev)).

End MintTrace.

(* ------------------------------------------------------------------ *)
(** * [convmode] and [s_to_cur] (beam.py, lines 827-876) *)

(** A Python index into a sequence of length [n]: negative indices count
    from the end; IndexError outside [[-n, n)]. *)
Definition norm_index (n : nat) (k : Z) : result nat :=
  if (k <? 0)%Z then
    (if (Z.of_nat n + k <? 0)%Z then Raise IndexError
     else Ok (Z.to_nat (Z.of_nat n + k)))
  else if (k <? Z.of_nat n)%Z then Ok (Z.to_nat k)
  else Raise IndexError.

Fixpoint update_nth {A} (i : nat) (f : A -> A) (l : list A) : list A :=
  match l, i with
  | [], _ => []
  | a :: l', O => f a :: l'
  | a :: l', S i' => a :: update_nth i' f l'
  end.

(** [C[k] = C[k] + d]. *)
Definition add_at (C : list R) (k : Z) (d : R) : result (list R) :=
  (i <- norm_index (length C) k ;; Ok (update_nth i (fun c => c + d) C))%py.

(** [np.arange(start, stop, step)]: ceil((stop - start)/step) entries
    [start + k*step]. *)
Definition np_arange (start stop step : R) : result (list R) :=
  if Req_dec_T step 0 then Raise ZeroDivisionError
  else Ok (map (fun k => start + INR k * step)
               (seq 0 (Z.to_nat (Zceil ((stop - start) / step))))).

(** [np.convolve(a, v)], the full discrete convolution: entry [n] is the
    sum of [a[m] * v[n - m]]; ValueError when an argument is empty. *)
Definition conv_at (a v : list R) (n : nat) : R :=
  np_sum (map (fun m => if (m <=? n)%nat then nth m a 0 * nth (n - m) v 0 else 0)
              (seq 0 (length a))).

Definition np_convolve (a v : list R) : result (list R) :=
  match a, v with
  | [], _ | _, [] => Raise ValueError
  | _, _ => Ok (map (conv_at a v) (seq 0 (length a + length v - 1)))
  end.

(** [convmode(A, B, mode)]: the result is the Python list [C]. *)
Definition convmode (A B : list R) (mode : Z) : result (list R) :=
  (C <- (if (mode =? 2)%Z then np_convolve A B else Ok []) ;;
   if (mode =? 1)%Z then
     let i := Z.to_nat (Zfloor (INR (length B) * 0.5)) in
     let n := length A in
     C1 <- np_convolve A B ;;
     Ok (firstn n (skipn i C1) ++ skipn n C)
   else Ok C)%py.

(** The loop over the particles: each one is shared between bin [i] and
    bin [i+1] with weights [xiA] and [1 - xiA]. *)
Fixpoint deposit (N : Z) (I : list Z) (xiA : list R) (C : list R)
  : result (list R) :=
  match I, xiA with
  | i :: I', xi :: xiA' =>
      (let i := if (i >? N - 1)%Z then (N - 1)%Z else i in
       C <- add_at C (i + 0) xi ;;
       C <- add_at C (i + 1) (1 - xi) ;;
       deposit N I' xiA' C)%py
  | _, _ => Ok C
  end.

(** [s_to_cur(A, sigma, q0, v)]; the result is the array [B] by rows
    (position, current).  Where numpy would go on with a non-finite
    number the model raises what the next conversion or allocation
    raises: [int()] of NaN or of an infinity for [sigma = 0], a negative
    dimension in [np.zeros], a non-finite step in [np.arange] for
    [N = 0]. *)
Definition s_to_cur (A : list R) (sigma q0 v : R) : result (list (R * R)) :=
  (let Nsigma := 3 in
   _ <- (match A with [] => Raise ValueError | _ => Ok tt end) ;;
   let a := np_min A - Nsigma * sigma in
   let b := np_max A + Nsigma * sigma in
   let s := 0.25 * sigma in
   _ <- (if Req_dec_T s 0
         then (if Req_dec_T (b - a) 0 then Raise ValueError else Raise OverflowError)
         else Ok tt) ;;
   let N := Zceil ((b - a) / s) in
   _ <- (if (N + 1 <? 0)%Z then Raise ValueError else Ok tt) ;;
   _ <- (if (N =? 0)%Z then Raise ValueError else Ok tt) ;;
   let s := (b - a) / IZR N in
   let rows := Z.to_nat (N + 1) in
   let C := repeat 0 rows in
   grid <- np_arange 0 ((IZR N + 0.5) * s) s ;;
   B0 <- assign_slot rows (map (fun g => g + a) grid) ;;
   let N := Z.of_nat rows in
   let cA := map (fun x => (x - a) / s) A in
   let I := map Zfloor cA in
   let xiA := map2 (fun i c => 1 + IZR i - c) I cA in
   C <- deposit N I xiA C ;;
   let K := Zfloor (Nsigma * sigma / s + 0.5) in
   let G := map (fun k => exp (- 0.5 * (IZR k * s / sigma) ^ 2))
                (Py.range (- K) (K + 1)) in
   let G := map (fun g => g / np_sum G) G in
   conv <- convmode C G 1 ;;
   B1 <- assign_slot rows conv ;;
   let koef := q0 * v / (s * np_sum B1) in
   let B1 := map (fun h => koef * h) B1 in
   Ok (combine B0 B1))%py.

(* ------------------------------------------------------------------ *)
(** * 2 x 2 matrices and the transport of Twiss parameters *)

(** Entry [(i, j)] of a matrix given by rows. *)
Definition entry (M : list (list R)) (i j : nat) : R := nth j (nth i M []) 0.

Definition mat2_det (M : list (list R)) : R :=
  entry M 0 0 * entry M 1 1 - entry M 0 1 * entry M 1 0.

(** [A @ B] for 2 x 2 matrices. *)
Definition mat2_mul (A B : list (list R)) : list (list R) :=
  [[entry A 0 0 * entry B 0 0 + entry A 0 1 * entry B 1 0;
    entry A 0 0 * entry B 0 1 + entry A 0 1 * entry B 1 1];
   [entry A 1 0 * entry B 0 0 + entry A 1 1 * entry B 1 0;
    entry A 1 0 * entry B 0 1 + entry A 1 1 * entry B 1 1]].

(** The Twiss parameters (alpha, beta) behind a transfer matrix [M], from
    the ones in front of it, with gamma = (1 + alpha^2)/beta. *)
Definition twiss_transport (M : list (list R)) (alpha beta : R) : R * R :=
  let gamma := (1 + alpha ^ 2) / beta in
  (- entry M 0 0 * entry M 1 0 * beta
   + (entry M 0 0 * entry M 1 1 + entry M 0 1 * entry M 1 0) * alpha
   - entry M 0 1 * entry M 1 1 * gamma,
   entry M 0 0 ^ 2 * beta - 2 * entry M 0 0 * entry M 0 1 * alpha
   + entry M 0 1 ^ 2 * gamma).

(* ------------------------------------------------------------------ *)
(** * [rm_tails] in the words of its use: the cut *)

(** Particle [i] of the array is inside the four limits. *)
Definition within_limits (pa : ParticleArray.t) (xlim ylim px_lim py_lim : R)
           (i : nat) : bool :=
  Rleb (Rabs (nth i (ParticleArray.x pa) 0)) xlim &&
  Rleb (Rabs (nth i (ParticleArray.y pa) 0)) ylim &&
  Rleb (Rabs (nth i (ParticleArray.px pa) 0)) px_lim &&
  Rleb (Rabs (nth i (ParticleArray.py pa) 0)) py_lim.

(** The entries of a row at the listed positions. *)
Definition pick (r : list R) (idxs : list nat) : list R :=
  map (fun i => nth i r 0) idxs.

(* ------------------------------------------------------------------ *)
(** * Steps on a mutable object *)

Module Obj.

(** A method that mutates an object of type [S]: the outcome and the
    object after the call.  An exception keeps what was written before
    it was raised. *)
Definition M (S A : Type) : Type := S -> result A * S.

Definition ret {S A} (a : A) : M S A := fun s => (Ok a, s).

Definition raise {S A} (e : exn) : M S A := fun s => (Raise e, s).

Definition bind {S A B} (m : M S A) (k : A -> M S B) : M S B :=
  fun s => match m s with
           | (Ok a, s') => k a s'
           | (Raise e, s') => (Raise e, s')
           end.

(** A read that may raise, from the object as it is now. *)
Definition read {S A} (f : S -> result A) : M S A := fun s => (f s, s).

Definition modify {S} (f : S -> S) : M S unit := fun s => (Ok tt, f s).

End Obj.

Declare Scope obj_scope.
Delimit Scope obj_scope with obj.
Notation "x <- m ;; k" := (Obj.bind m (fun x => k))
  (at level 61, m at next level, right associativity) : obj_scope.
Notation "m ;; k" := (Obj.bind m (fun _ => k))
  (at level 61, right associativity) : obj_scope.

(* ------------------------------------------------------------------ *)
(** * class [Particle] (beam.py, lines 120-133) *)

Module Particle.

(** The attributes, in the order of the constructor's parameters. *)
Record t : Type := mk {
  x : R; y : R; px : R; py : R; s : R; p : R; tau : R; E : R
}.

(** [Particle()]: every default is 0.0. *)
Definition init : t := mk 0 0 0 0 0 0 0 0.

Definition with_x (v : R) (q : t) : t := mk v (y q) (px q) (py q) (s q) (p q) (tau q) (E q).
Definition with_y (v : R) (q : t) : t := mk (x q) v (px q) (py q) (s q) (p q) (tau q) (E q).
Definition with_px (v : R) (q : t) : t := mk (x q) (y q) v (py q) (s q) (p q) (tau q) (E q).
Definition with_py (v : R) (q : t) : t := mk (x q) (y q) (px q) v (s q) (p q) (tau q) (E q).
Definition with_s (v : R) (q : t) : t := mk (x q) (y q) (px q) (py q) v (p q) (tau q) (E q).
Definition with_p (v : R) (q : t) : t := mk (x q) (y q) (px q) (py q) (s q) v (tau q) (E q).
Definition with_tau (v : R) (q : t) : t := mk (x q) (y q) (px q) (py q) (s q) (p q) v (E q).
Definition with_E (v : R) (q : t) : t := mk (x q) (y q) (px q) (py q) (s q) (p q) (tau q) v.

End Particle.

(* ------------------------------------------------------------------ *)
(** * [ParticleArray]: item access and the list conversions
      (beam.py, lines 451-490) *)

(** [a[k, idx]] on a 2-D array by rows, for integers [k >= 0] and [idx]. *)
Definition getitem2 (a : list (list R)) (k : nat) (idx : Z) : result R :=
  (r <- getitem a k ;; getitemZ r idx)%py.

(** [a[k, idx] = v]. *)
Definition setitem2 (a : list (list R)) (k : nat) (idx : Z) (v : R)
  : result (list (list R)) :=
  (r <- getitem a k ;;
   i <- norm_index (length r) idx ;;
   Ok (set_row k (update_nth i (fun _ => v) r) a))%py.

Module ParticleArrayItems.

Import ParticleArray.

Definition with_rparticles (rp : list (list R)) (self : t) : t :=
  mk rp (q_array self) (s self) (E self).
Definition with_s (v : R) (self : t) : t := mk (rparticles self) (q_array self) v (E self).
Definition with_E (v : R) (self : t) : t := mk (rparticles self) (q_array self) (s self) v.

(** [__getitem__(self, idx)] for an integer [idx]: the keyword arguments
    are evaluated from left to right; [E] keeps the default 0.0. *)
Definition __getitem__ (self : t) (idx : Z) : result Particle.t :=
  (x <- getitem2 (rparticles self) 0 idx ;;
   px <- getitem2 (rparticles self) 1 idx ;;
   y <- getitem2 (rparticles self) 2 idx ;;
   py <- getitem2 (rparticles self) 3 idx ;;
   tau <- getitem2 (rparticles self) 4 idx ;;
   p <- getitem2 (rparticles self) 5 idx ;;
   Ok {| Particle.x := x; Particle.y := y; Particle.px := px; Particle.py := py;
         Particle.s := s self; Particle.p := p; Particle.tau := tau;
         Particle.E := 0 |})%py.

(** [self.rparticles[k, idx] = v]. *)
Definition store (k : nat) (idx : Z) (v : R) : Obj.M t unit :=
  fun self => match setitem2 (rparticles self) k idx v with
              | Ok rp => (Ok tt, with_rparticles rp self)
              | Raise e => (Raise e, self)
              end.

(** [__setitem__(self, idx, p)]. *)
Definition __setitem__ (idx : Z) (p : Particle.t) : Obj.M t unit :=
  (store 0 idx (Particle.x p) ;;
   store 1 idx (Particle.px p) ;;
   store 2 idx (Particle.y p) ;;
   store 3 idx (Particle.py p) ;;
   store 4 idx (Particle.tau p) ;;
   store 5 idx (Particle.p p) ;;
   Obj.modify (with_s (Particle.s p)))%obj.

(** [for i, p in enumerate(p_list): self[i] = p], from index [i] on. *)
Fixpoint setitems (i : nat) (p_list : list Particle.t) : Obj.M t unit :=
  match p_list with
  | [] => Obj.ret tt
  | p :: rest => (__setitem__ (Z.of_nat i) p ;; setitems (S i) rest)%obj
  end.

(** [list2array(self, p_list)]. *)
Definition list2array (p_list : list Particle.t) : Obj.M t unit :=
  (Obj.modify (with_rparticles (repeat (repeat 0 (length p_list)) 6)) ;;
   setitems 0 p_list ;;
   p0 <- Obj.read (fun _ => getitem p_list 0) ;;
   Obj.modify (with_s (Particle.s p0)) ;;
   p0 <- Obj.read (fun _ => getitem p_list 0) ;;
   Obj.modify (with_E (Particle.E p0)))%obj.

(** The [Particle] objects a list refers to live in a heap, addressed by
    position; [p.attr = v] rewrites the object at the address. *)
Definition heap : Type := list Particle.t.

Definition set_attr (r : nat) (f : Particle.t -> Particle.t) : Obj.M heap unit :=
  Obj.modify (update_nth r f).

(** [array2ex_list(self, p_list)], from index [i] on: [p_list] holds the
    addresses of the particles, which are overwritten in place. *)
Fixpoint array2ex_items (self : t) (i : nat) (p_list : list nat) : Obj.M heap unit :=
  match p_list with
  | [] => Obj.ret tt
  | r :: rest =>
      (v <- Obj.read (fun _ => getitem2 (rparticles self) 0 (Z.of_nat i)) ;;
       set_attr r (Particle.with_x v) ;;
       v <- Obj.read (fun _ => getitem2 (rparticles self) 1 (Z.of_nat i)) ;;
       set_attr r (Particle.with_px v) ;;
       v <- Obj.read (fun _ => getitem2 (rparticles self) 2 (Z.of_nat i)) ;;
       set_attr r (Particle.with_y v) ;;
       v <- Obj.read (fun _ => getitem2 (rparticles self) 3 (Z.of_nat i)) ;;
       set_attr r (Particle.with_py v) ;;
       v <- Obj.read (fun _ => getitem2 (rparticles self) 4 (Z.of_nat i)) ;;
       set_attr r (Particle.with_tau v) ;;
       v <- Obj.read (fun _ => getitem2 (rparticles self) 5 (Z.of_nat i)) ;;
       set_attr r (Particle.with_p v) ;;
       set_attr r (Particle.with_E (E self)) ;;
       set_attr r (Particle.with_s (s self)) ;;
       array2ex_items self (S i) rest)%obj
  end.

(** The method returns the list it was given. *)
Definition array2ex_list (self : t) (p_list : list nat) : Obj.M heap (list nat) :=
  (array2ex_items self 0 p_list ;; Obj.ret p_list)%obj.

End ParticleArrayItems.

(* ------------------------------------------------------------------ *)
(** * class [Trajectory] (beam.py, lines 387-421) *)

Module Trajectory.

Record t : Type := mk {
  ct : list R; E : list R; x : list R; y : list R;
  xp : list R; yp : list R; z : list R; s : list R
}.

(** [Trajectory()] *)
Definition init : t := mk [] [] [] [] [] [] [] [].

(** [add(self, ct, x, y, xp, yp, z, s)]: seven appends. *)
Definition add (self : t) (ct' x' y' xp' yp' z' s' : R) : t :=
  mk (ct self ++ [ct']) (E self) (x self ++ [x']) (y self ++ [y'])
     (xp self ++ [xp']) (yp self ++ [yp']) (z self ++ [z']) (s self ++ [s']).

(** What [last] returns: the integer 0, or a [Particle] that has been
    given the three further attributes [ct], [xp] and [yp]. *)
Inductive last_value : Type :=
| Zero
| Last (p : Particle.t) (ct xp yp : R).

(** [l[len(l)-1]] *)
Definition final (l : list R) : result R := getitemZ l (Z.of_nat (length l) - 1).

(** [last(self)]: only the read of [E] is inside the [try]. *)
Definition last (self : t) : result last_value :=
  (let p := Particle.init in
   ct' <- final (ct self) ;;
   x' <- final (x self) ;;
   let p := Particle.with_x x' p in
   y' <- final (y self) ;;
   let p := Particle.with_y y' p in
   xp' <- final (xp self) ;;
   yp' <- final (yp self) ;;
   match final (E self) with
   | Raise IndexError => Ok Zero
   | Raise e => Raise e
   | Ok E' =>
       let p := Particle.with_E E' p in
       s' <- final (s self) ;;
       let p := Particle.with_s s' p in
       Ok (Last p ct' xp' yp')
   end)%py.

End Trajectory.

(* ------------------------------------------------------------------ *)
(** * class [Beam] (beam.py, lines 147-238) *)

Module Beam.

Record t : Type := mk {
  x : R; y : R; xp : R; yp : R;
  E : R; sigma_E : R; I : R; emit_x : R; emit_y : R; tlen : R;
  beta_x : R; beta_y : R; alpha_x : R; alpha_y : R;
  Dx : R; Dy : R; Dxp : R; Dyp : R
}.

(** [Beam(x, xp, y, yp)] *)
Definition init (x xp y yp : R) : t :=
  mk x y xp yp 0 0 0 0 0 0 0 0 0 0 0 0 0 0.

Definition with_E (v : R) (b : t) : t :=
  mk (x b) (y b) (xp b) (yp b) v (sigma_E b) (I b) (emit_x b) (emit_y b) (tlen b)
     (beta_x b) (beta_y b) (alpha_x b) (alpha_y b) (Dx b) (Dy b) (Dxp b) (Dyp b).
Definition with_sigma_E (v : R) (b : t) : t :=
  mk (x b) (y b) (xp b) (yp b) (E b) v (I b) (emit_x b) (emit_y b) (tlen b)
     (beta_x b) (beta_y b) (alpha_x b) (alpha_y b) (Dx b) (Dy b) (Dxp b) (Dyp b).
Definition with_emit_x (v : R) (b : t) : t :=
  mk (x b) (y b) (xp b) (yp b) (E b) (sigma_E b) (I b) v (emit_y b) (tlen b)
     (beta_x b) (beta_y b) (alpha_x b) (alpha_y b) (Dx b) (Dy b) (Dxp b) (Dyp b).
Definition with_emit_y (v : R) (b : t) : t :=
  mk (x b) (y b) (xp b) (yp b) (E b) (sigma_E b) (I b) (emit_x b) v (tlen b)
     (beta_x b) (beta_y b) (alpha_x b) (alpha_y b) (Dx b) (Dy b) (Dxp b) (Dyp b).
Definition with_xp (v : R) (b : t) : t :=
  mk (x b) (y b) v (yp b) (E b) (sigma_E b) (I b) (emit_x b) (emit_y b) (tlen b)
     (beta_x b) (beta_y b) (alpha_x b) (alpha_y b) (Dx b) (Dy b) (Dxp b) (Dyp b).
Definition with_yp (v : R) (b : t) : t :=
  mk (x b) (y b) (xp b) v (E b) (sigma_E b) (I b) (emit_x b) (emit_y b) (tlen b)
     (beta_x b) (beta_y b) (alpha_x b) (alpha_y b) (Dx b) (Dy b) (Dxp b) (Dyp b).

Section Properties.

(** The electron rest energy in GeV, a constant of
    [ocelot.common.globals]. *)
Variable m_e_GeV : R.

(** The properties: a getter and, with the prefix [set_], the setter.
    Quotients are those of the reals; they are the program's where the
    divisor is not zero. *)
Definition g (b : t) : R := E b / m_e_GeV.
Definition set_g (value : R) (b : t) : t := with_E (value * m_e_GeV) b.

Definition dg (b : t) : R := sigma_E b / m_e_GeV.
Definition set_dg (value : R) (b : t) : t := with_sigma_E (value * m_e_GeV) b.

Definition emit_xn (b : t) : R := emit_x b * g b.
Definition set_emit_xn (value : R) (b : t) : t := with_emit_x (value / g b) b.

Definition emit_yn (b : t) : R := emit_y b * g b.
Definition set_emit_yn (value : R) (b : t) : t := with_emit_y (value / g b) b.

Definition p (b : t) : R := sqrt (g b ^ 2 - 1).
Definition set_p (value : R) (b : t) : t := set_g (sqrt (value ^ 2 + 1)) b.

Definition pz (b : t) : R := p b / (xp b ^ 2 + yp b ^ 2 + 1).
Definition set_pz (value : R) (b : t) : t :=
  set_p (value * (xp b ^ 2 + yp b ^ 2 + 1)) b.

Definition px (b : t) : R := p b * xp b.
Definition set_px (value : R) (b : t) : t := with_xp (value / p b) b.

Definition py (b : t) : R := p b * yp b.
Definition set_py (value : R) (b : t) : t := with_yp (value / p b) b.

End Properties.

End Beam.

(** [Twiss(beam)] (lines 36-95): both branches of [__init__].  The
    attributes [px] ... [pypy] are not set by the constructor. *)
Definition Twiss_init (m_e_GeV : R) (beam : option Beam.t) : Twiss.t :=
  match beam with
  | None => Twiss.init
  | Some beam =>
      let no_beta :=
        negb (Rneqb (Beam.beta_x beam) 0) || negb (Rneqb (Beam.beta_y beam) 0) in
      {| Twiss.emit_x := Beam.emit_x beam; Twiss.emit_y := Beam.emit_y beam;
         Twiss.emit_xn := Beam.emit_xn m_e_GeV beam;
         Twiss.emit_yn := Beam.emit_yn m_e_GeV beam;
         Twiss.beta_x := Beam.beta_x beam; Twiss.beta_y := Beam.beta_y beam;
         Twiss.alpha_x := Beam.alpha_x beam; Twiss.alpha_y := Beam.alpha_y beam;
         Twiss.gamma_x :=
           if no_beta then 0
           else (1 + Beam.alpha_x beam * Beam.alpha_x beam) / Beam.beta_x beam;
         Twiss.gamma_y :=
           if no_beta then 0
           else (1 + Beam.alpha_y beam * Beam.alpha_y beam) / Beam.beta_y beam;
         Twiss.mux := 0; Twiss.muy := 0;
         Twiss.Dx := Beam.Dx beam; Twiss.Dy := Beam.Dy beam;
         Twiss.Dxp := Beam.Dxp beam; Twiss.Dyp := Beam.Dyp beam;
         Twiss.x := Beam.x beam; Twiss.y := Beam.y beam;
         Twiss.xp := Beam.xp beam; Twiss.yp := Beam.yp beam;
         Twiss.E := Beam.E beam; Twiss.p := 0; Twiss.tau := 0; Twiss.s := 0;
         Twiss.id := String.EmptyString;
         Twiss.px := None; Twiss.py := None;
         Twiss.xx := None; Twiss.xpx := None; Twiss.pxpx := None;
         Twiss.yy := None; Twiss.ypy := None; Twiss.pypy := None |}
  end.

(* ------------------------------------------------------------------ *)
(** * The phase-space samplers (beam.py, lines 610-632) *)

(** [np.random.rand()] returns a float in [[0, 1)]; the draws a call
    makes are arguments here, in the order the call makes them. *)
Definition gauss_from_twiss (emit beta alpha : R) (rand1 rand2 : R) : R * R :=
  let phi := 2 * PI * rand1 in
  let u := rand2 in
  let a := sqrt (- 2 * ln (1 - u) * emit) in
  let x := a * sqrt beta * cos phi in
  let xp := - a / sqrt beta * (sin phi + alpha * cos phi) in
  (x, xp).

Definition waterbag_from_twiss (emit beta alpha : R) (rand1 rand2 : R) : R * R :=
  let phi := 2 * PI * rand1 in
  let a := sqrt emit * rand2 in
  let x := a * sqrt beta * cos phi in
  let xp := - a / sqrt beta * (sin phi + alpha * cos phi) in
  (x, xp).

Definition ellipse_from_twiss (emit beta alpha : R) (rand1 : R) : R * R :=
  let phi := 2 * PI * rand1 in
  let a := sqrt emit in
  let x := a * sqrt beta * cos phi in
  let xp := - a / sqrt beta * (sin phi + alpha * cos phi) in
  (x, xp).

(** The Courant-Snyder invariant of a phase-space point for the Twiss
    parameters (alpha, beta): gamma x^2 + 2 alpha x x' + beta x'^2 with
    gamma = (1 + alpha^2)/beta. *)
Definition courant_snyder (alpha beta : R) (pt : R * R) : R :=
  (1 + alpha ^ 2) / beta * fst pt ^ 2 + 2 * alpha * fst pt * snd pt
  + beta * snd pt ^ 2.

(* ------------------------------------------------------------------ *)
(** * [sortrows] (beam.py, lines 823-824) *)

(** [x[:, x[col].argsort()]]: the columns of a 2-D array in the order
    that sorts row [col]. *)
Definition sortrows (x : list (list R)) (col : Z) : result (list (list R)) :=
  (key <- getitemZ x col ;;
   mapM (fun r => take r (argsort key)) x)%py.

(* ------------------------------------------------------------------ *)
(** * The moving window of [slice_analysis] in the words of its use *)

(** The mean of [l[n1+1], ..., l[n2]]: the window [(n1, n2]]. *)
Definition window_mean (l : list R) (n1 n2 : nat) : R :=
  np_sum (firstn (n2 - n1) (skipn (S n1) l)) / INR (n2 - n1).

(* ------------------------------------------------------------------ *)
(** * [get_current] (beam.py, lines 589-607) *)

(** [np.linspace(first, last, num)] for [num >= 2]: [num] points, the
    first at [first], the last at [last]. *)
Definition np_linspace (first last : R) (num : nat) : list R :=
  map (fun k => first + INR k * ((last - first) / INR (num - 1))) (seq 0 num).

(** [np.histogram(a, bins)] for an integer [bins], over the reals:
    [bins] equal bins between the least and the greatest entry (widened
    by 0.5 on each side when they coincide, [(0, 1)] for an empty
    array), the last bin closed on the right; the counts and the
    [bins + 1] edges.  ValueError when [bins] is not positive. *)
Definition np_histogram (a : list R) (bins : Z) : result (list nat * list R) :=
  if (bins <? 1)%Z then Raise ValueError
  else
    let '(first_edge, last_edge) :=
      match a with
      | [] => (0, 1)
      | _ => if Req_dec_T (np_min a) (np_max a)
             then (np_min a - 0.5, np_max a + 0.5)
             else (np_min a, np_max a)
      end in
    let n := Z.to_nat bins in
    let bin_edges := np_linspace first_edge last_edge (n + 1) in
    let index := fun v =>
      let k := Zfloor ((v - first_edge) / (last_edge - first_edge) * IZR bins) in
      Z.to_nat (if (k =? bins)%Z then k - 1 else k) in
    let hist :=
      map (fun k => length (filter (fun v => (index v =? k)%nat) a)) (seq 0 n) in
    Ok (hist, bin_edges).

(** [speed_of_light] is a constant of [ocelot.common.globals].  The
    built-in [max(z)] raises ValueError on an empty array.  The result
    is the pair (bin edges, currents). *)
Definition get_current (speed_of_light : R) (p_array : ParticleArray.t)
           (charge : option R) (num_bins : Z) : result (list R * list R) :=
  (charge <- match charge with
             | None => getitem (ParticleArray.q_array p_array) 0
             | Some q => Ok q
             end ;;
   let z := ParticleArray.tau p_array in
   '(hist, bin_edges) <- np_histogram z num_bins ;;
   _ <- match z with [] => Raise ValueError | _ => Ok tt end ;;
   let delta_Z := np_max z - np_min z in
   let delta_z := delta_Z / IZR num_bins in
   let t_bins := delta_z / speed_of_light in
   last <- getitemZ hist (-1) ;;
   let hist := hist ++ [last] in
   Ok (bin_edges, map (fun h => INR h * charge / t_bins) hist))%py.

(* ================================================================== *)
(** * Part II: lemmas and theorems *)
(* ================================================================== *)

Lemma Rltb_true a b : Rltb a b = true <-> a < b.
Proof. unfold Rltb; destruct (Rlt_dec a b); split; intros; try easy. Qed.

Lemma Rltb_false a b : Rltb a b = false <-> b <= a.
Proof. unfold Rltb; destruct (Rlt_dec a b); split; intros; try easy; lra. Qed.

Lemma Rleb_true a b : Rleb a b = true <-> a <= b.
Proof. unfold Rleb; destruct (Rle_dec a b); split; intros; try easy. Qed.

Lemma Rleb_false a b : Rleb a b = false <-> b < a.
Proof. unfold Rleb; destruct (Rle_dec a b); split; intros; try easy; lra. Qed.

Lemma Rneqb_refl a : Rneqb a a = false.
Proof. unfold Rneqb; destruct (Req_dec_T a a); congruence. Qed.

Lemma fold_left_Rplus_acc (l : list R) (a : R) :
  fold_left Rplus l a = a + fold_left Rplus l 0.
Proof.
  revert a; induction l as [|v l IH]; intros a; simpl.
  - lra.
  - rewrite IH, (IH (0 + v)); lra.
Qed.

Lemma np_sum_nil : np_sum [] = 0.
Proof. reflexivity. Qed.

Lemma np_sum_cons v l : np_sum (v :: l) = v + np_sum l.
Proof. unfold np_sum; simpl. rewrite fold_left_Rplus_acc. lra. Qed.

Lemma np_sum_app l1 l2 : np_sum (l1 ++ l2) = np_sum l1 + np_sum l2.
Proof.
  induction l1 as [|v l1 IH]; simpl.
  - rewrite np_sum_nil; lra.
  - rewrite !np_sum_cons, IH; lra.
Qed.

Lemma np_sum_bounds (l : list R) (lo hi : R) :
  (forall v, In v l -> lo <= v <= hi) ->
  INR (length l) * lo <= np_sum l <= INR (length l) * hi.
Proof.
  induction l as [|v l IH]; intros H.
  - simpl; rewrite np_sum_nil; lra.
  - rewrite np_sum_cons.
    change (length (v :: l)) with (S (length l)); rewrite S_INR.
    assert (Hv : lo <= v <= hi) by (apply H; left; reflexivity).
    assert (Hl : INR (length l) * lo <= np_sum l <= INR (length l) * hi)
      by (apply IH; intros w Hw; apply H; right; exact Hw).
    lra.
Qed.

(** Evaluation of the integer and list skeleton of a term, with the real
    operations left as they are. *)
Ltac reval :=
  cbv -[IZR Rdiv Rminus Rplus Rmult Rinv Ropp sqrt Rabs
        Rlt_dec Rle_dec Req_dec_T Rmin Rmax cos sin exp].

(* ------------------------------------------------------------------ *)
(** * Facts about [range] and window sums *)

Lemma range_length a b : length (Py.range a b) = Z.to_nat (b - a).
Proof. unfold Py.range. now rewrite length_map, length_seq. Qed.

Lemma range_nat n : Py.range 0 (Z.of_nat n) = map Z.of_nat (seq 0 n).
Proof.
  unfold Py.range. rewrite Z.sub_0_r, Nat2Z.id.
  apply map_ext; intros k; lia.
Qed.

Lemma range_empty a b : (b <= a)%Z -> Py.range a b = [].
Proof.
  intros H. unfold Py.range.
  replace (Z.to_nat (b - a)) with 0%nat by lia. reflexivity.
Qed.

Lemma range_cons a b : (a < b)%Z -> Py.range a b = a :: Py.range (a + 1) b.
Proof.
  intros H. unfold Py.range.
  replace (Z.to_nat (b - a)) with (S (Z.to_nat (b - (a + 1)))) by lia.
  simpl. f_equal; [lia|].
  rewrite <- seq_shift, map_map. apply map_ext; intros k; lia.
Qed.

Lemma window_sum_slice (x : list R) (m lo : nat) (acc : R) :
  (lo + m <= length x)%nat ->
  fold_left (fun s j => s + nth (Z.to_nat j) x 0)
            (Py.range (Z.of_nat lo) (Z.of_nat lo + Z.of_nat m)) acc
  = acc + np_sum (firstn m (skipn lo x)).
Proof.
  revert lo acc; induction m as [|m IH]; intros lo acc H.
  - rewrite range_empty by lia. simpl. rewrite np_sum_nil. lra.
  - rewrite range_cons by lia. cbn [fold_left].
    replace (Z.of_nat lo + 1)%Z with (Z.of_nat (S lo)) by lia.
    replace (Z.of_nat lo + Z.of_nat (S m))%Z
      with (Z.of_nat (S lo) + Z.of_nat m)%Z by lia.
    rewrite IH by lia. rewrite Nat2Z.id.
    assert (Hs : skipn lo x = nth lo x 0 :: skipn (S lo) x).
    { clear IH. revert lo H; induction x as [|v x IHx]; intros lo H.
      - simpl in H; lia.
      - destruct lo as [|lo]; [reflexivity|].
        simpl in H. change (skipn (S lo) (v :: x)) with (skipn lo x).
        rewrite IHx by lia. reflexivity. }
    rewrite Hs. cbn [firstn]. rewrite np_sum_cons. lra.
Qed.

Lemma In_firstn_skipn {A} (v : A) (k lo : nat) (x : list A) :
  In v (firstn k (skipn lo x)) -> In v x.
Proof.
  intros H.
  assert (Hs : In v (skipn lo x)).
  { rewrite <- (firstn_skipn k (skipn lo x)). apply in_or_app. left. exact H. }
  rewrite <- (firstn_skipn lo x). apply in_or_app. right. exact Hs.
Qed.

(* ------------------------------------------------------------------ *)
(** * [simple_filter]: one pass *)

Lemma boxcar_pass_length p x : length (boxcar_pass p x) = length x.
Proof.
  unfold boxcar_pass. rewrite length_map, range_length. lia.
Qed.

Lemma window_clamped (n p i : nat) :
  (i < n)%nat ->
  window_lo (Z.of_nat p) (Z.of_nat i) = Z.of_nat (i - p) /\
  window_hi (Z.of_nat n) (Z.of_nat p) (Z.of_nat i)
    = Z.of_nat (Nat.min (i + p) (n - 1)).
Proof.
  intros H. unfold window_lo, window_hi. split.
  - destruct (Z.ltb_spec (Z.of_nat i - Z.of_nat p) 0); lia.
  - destruct (Z.gtb_spec (Z.of_nat i + Z.of_nat p) (Z.of_nat n - 1)); lia.
Qed.

Lemma boxcar_pass_nth (p : nat) (x : list R) (i : nat) :
  (i < length x)%nat ->
  nth i (boxcar_pass (Z.of_nat p) x) 0 = boxcar_average x p i.
Proof.
  intros Hi. unfold boxcar_pass.
  rewrite range_nat.
  rewrite map_map.
  rewrite (nth_indep _ 0 ((fun k => window_sum x (window_lo (Z.of_nat p) (Z.of_nat k))
      (window_hi (Z.of_nat (length x)) (Z.of_nat p) (Z.of_nat k)) /
      IZR (window_hi (Z.of_nat (length x)) (Z.of_nat p) (Z.of_nat k)
           - window_lo (Z.of_nat p) (Z.of_nat k) + 1)) 0%nat))
    by (rewrite length_map, length_seq; exact Hi).
  rewrite (map_nth (fun k => window_sum x (window_lo (Z.of_nat p) (Z.of_nat k))
      (window_hi (Z.of_nat (length x)) (Z.of_nat p) (Z.of_nat k)) /
      IZR (window_hi (Z.of_nat (length x)) (Z.of_nat p) (Z.of_nat k)
           - window_lo (Z.of_nat p) (Z.of_nat k) + 1))).
  rewrite seq_nth by exact Hi. simpl Nat.add.
  destruct (window_clamped p Hi) as [Hlo Hhi].
  rewrite Hlo, Hhi. unfold boxcar_average, window_sum.
  set (lo := (i - p)%nat). set (hi := Nat.min (i + p) (length x - 1)).
  assert (Hle : (lo <= hi)%nat) by (unfold lo, hi; lia).
  assert (Hhi' : (hi < length x)%nat) by (unfold hi; lia).
  replace (Z.of_nat hi + 1)%Z with (Z.of_nat lo + Z.of_nat (hi - lo + 1))%Z by lia.
  rewrite window_sum_slice by lia.
  replace (Z.of_nat hi - Z.of_nat lo + 1)%Z with (Z.of_nat (hi - lo + 1)) by lia.
  rewrite <- INR_IZR_INZ. f_equal. lra.
Qed.

Lemma boxcar_average_bounds (x : list R) (p i : nat) (lo hi : R) :
  (i < length x)%nat ->
  (forall v, In v x -> lo <= v <= hi) ->
  lo <= boxcar_average x p i <= hi.
Proof.
  intros Hi Hx. unfold boxcar_average.
  set (a := (i - p)%nat). set (b := Nat.min (i + p) (length x - 1)).
  set (w := firstn (b - a + 1) (skipn a x)).
  assert (Hlen : length w = (b - a + 1)%nat).
  { unfold w. rewrite length_firstn, length_skipn. unfold a, b. lia. }
  assert (Hb : INR (length w) * lo <= np_sum w <= INR (length w) * hi).
  { apply np_sum_bounds. intros v Hv. apply Hx.
    unfold w in Hv. eapply In_firstn_skipn; exact Hv. }
  rewrite Hlen in Hb.
  assert (Hpos : 0 < INR (b - a + 1)) by (apply lt_0_INR; lia).
  split.
  - apply Rmult_le_reg_r with (INR (b - a + 1)); [exact Hpos|].
    unfold Rdiv. rewrite Rmult_assoc, Rinv_l by lra. lra.
  - apply Rmult_le_reg_r with (INR (b - a + 1)); [exact Hpos|].
    unfold Rdiv. rewrite Rmult_assoc, Rinv_l by lra. lra.
Qed.

Lemma boxcar_pass_bounds (p : nat) (x : list R) (lo hi : R) :
  (forall v, In v x -> lo <= v <= hi) ->
  forall v, In v (boxcar_pass (Z.of_nat p) x) -> lo <= v <= hi.
Proof.
  intros Hx v Hv.
  destruct (In_nth _ _ 0 Hv) as [i [Hi Hnth]].
  rewrite boxcar_pass_length in Hi.
  rewrite boxcar_pass_nth in Hnth by exact Hi.
  rewrite <- Hnth. apply boxcar_average_bounds; assumption.
Qed.

(* ------------------------------------------------------------------ *)
(** * [simple_filter]: the loop *)

Lemma filter_loop_iter (k : nat) (p : Z) (x : list R) (y : option (list R)) :
  filter_loop (S k) p x y = Some (Nat.iter (S k) (boxcar_pass p) x).
Proof.
  revert x y; induction k as [|k IH]; intros x y.
  - reflexivity.
  - change (filter_loop (S (S k)) p x y)
      with (filter_loop (S k) p (boxcar_pass p x) (Some (boxcar_pass p x))).
    rewrite IH. f_equal.
    change (Nat.iter (S (S k)) (boxcar_pass p) x)
      with (boxcar_pass p (Nat.iter (S k) (boxcar_pass p) x)).
    change (Nat.iter (S k) (boxcar_pass p) (boxcar_pass p x))
      with (boxcar_pass p (Nat.iter k (boxcar_pass p) (boxcar_pass p x))).
    f_equal. clear IH. induction k as [|k IHk]; [reflexivity|].
    simpl. f_equal. exact IHk.
Qed.

Lemma iter_pass_length (k : nat) (p : Z) (x : list R) :
  length (Nat.iter k (boxcar_pass p) x) = length x.
Proof.
  induction k as [|k IH]; [reflexivity|].
  simpl. now rewrite boxcar_pass_length.
Qed.

Lemma iter_pass_bounds (k p : nat) (x : list R) (lo hi : R) :
  (forall v, In v x -> lo <= v <= hi) ->
  forall v, In v (Nat.iter k (boxcar_pass (Z.of_nat p)) x) -> lo <= v <= hi.
Proof.
  intros Hx. induction k as [|k IH]; [exact Hx|].
  simpl. apply boxcar_pass_bounds. exact IH.
Qed.

Lemma np_min_max_bounds (x : list R) :
  forall v, In v x -> np_min x <= v <= np_max x.
Proof.
  unfold np_min, np_max. generalize (hd 0 x) as d.
  induction x as [|a x IH]; intros d v Hv; [destruct Hv|].
  simpl. destruct Hv as [<-|Hv].
  - split; [apply Rmin_l | apply Rmax_l].
  - destruct (IH d v Hv) as [H1 H2]. split.
    + eapply Rle_trans; [apply Rmin_r | exact H1].
    + eapply Rle_trans; [exact H2 | apply Rmax_r].
Qed.

(** C7 (as amended).  [simple_filter] with iteration count 0 returns its
    input unchanged.  With K > 0 iterations and half-width p >= 0 it
    returns the K-fold iterate of one boxcar pass; each pass keeps the
    length and puts at index i the unweighted average of the samples of
    the array it was given (the input for the first pass, the previous
    pass's output afterwards) over [[i-p, i+p]] cut to the array bounds;
    every element of the result lies in [[min(input), max(input)]]. *)
Theorem simple_filter_iterated_boxcar (x : list R) (p K : Z) :
  (0 <= p)%Z -> (0 < K)%Z ->
  (forall q, simple_filter x q 0 = Ok x) /\
  exists y,
    simple_filter x p K = Ok y /\
    y = Nat.iter (Z.to_nat K) (boxcar_pass p) x /\
    (forall x' i, (i < length x')%nat ->
       length (boxcar_pass p x') = length x' /\
       nth i (boxcar_pass p x') 0 = boxcar_average x' (Z.to_nat p) i) /\
    length y = length x /\
    (forall v, In v y -> np_min x <= v <= np_max x).
Proof.
  intros Hp HK. split; [reflexivity|].
  unfold simple_filter.
  destruct (Z.eqb_spec K 0) as [->|_]; [lia|].
  destruct (Z.to_nat K) as [|k] eqn:Ek; [lia|].
  rewrite filter_loop_iter.
  eexists; split; [reflexivity|]. split; [reflexivity|].
  assert (Ep : p = Z.of_nat (Z.to_nat p)) by lia.
  set (pn := Z.to_nat p) in *. clearbody pn. subst p.
  split; [|split].
  - intros x' i Hi. split; [apply boxcar_pass_length | now apply boxcar_pass_nth].
  - apply iter_pass_length.
  - apply (iter_pass_bounds (S k) pn x (np_min_max_bounds x)).
Qed.

Lemma simple_filter_iterated_boxcar_witness :
  exists y, simple_filter [0; 0; 1] 1 2 = Ok y /\ length y = 3%nat.
Proof.
  destruct (@simple_filter_iterated_boxcar [0; 0; 1] 1 2 ltac:(lia) ltac:(lia))
    as [_ [y [Hy [_ [_ [Hlen _]]]]]].
  exists y. split; [exact Hy | exact Hlen].
Defined.

(** C7 as stated fails for K = 2: element 0 of the result is not the
    average of the input samples over the clamped window around 0. *)
Lemma simple_filter_second_pass_counterexample :
  simple_filter [0; 0; 1] 1 2 = Ok [1/6; 5/18; 5/12] /\
  boxcar_average [0; 0; 1] 1 0 = 0 /\
  nth 0 [1/6; 5/18; 5/12] 0 <> boxcar_average [0; 0; 1] 1 0.
Proof.
  assert (H1 : simple_filter [0; 0; 1] 1 2 = Ok [1/6; 5/18; 5/12]).
  { reval. apply f_equal. repeat (apply f_equal2; [lra|]). reflexivity. }
  assert (H2 : boxcar_average [0; 0; 1] 1 0 = 0).
  { reval. lra. }
  repeat split; [exact H1 | exact H2 |].
  rewrite H2. cbn [nth]. lra.
Qed.

(* ------------------------------------------------------------------ *)
(** * [ParticleArray]: shape *)

Lemma shape_ok_rows (pa : ParticleArray.t) :
  ParticleArray.shape_ok pa ->
  exists r0 r1 r2 r3 r4 r5,
    ParticleArray.rparticles pa = [r0; r1; r2; r3; r4; r5] /\
    length r1 = length r0 /\ length r2 = length r0 /\ length r3 = length r0 /\
    length r4 = length r0 /\ length r5 = length r0.
Proof.
  intros [Hlen Hall]. unfold ParticleArray.columns, ParticleArray.row in Hall.
  destruct (ParticleArray.rparticles pa) as [|r0 [|r1 [|r2 [|r3 [|r4 [|r5 [|r6 l]]]]]]];
    try discriminate Hlen.
  exists r0, r1, r2, r3, r4, r5. cbn [nth] in Hall.
  repeat match goal with
         | H : Forall _ (_ :: _) |- _ => inversion H; clear H; subst
         end.
  repeat split; assumption.
Qed.

(** C10.  On a non-empty [ParticleArray], [recalculate_ref_particle]
    returns the array re-centred on particle 0: tau[0] and p[0] become
    exactly 0, every tau and p is shifted by the old value of particle 0,
    the reference energy becomes E + p_old[0]*sqrt(E^2/m_e^2 - 1)*m_e,
    the reference position s - tau_old[0]; the rows x, px, y, py and
    [q_array] are unchanged.  The rest energy is not zero and the
    reference energy is at least the rest energy in absolute value, so
    that the square root is that of a non-negative number. *)
Theorem recalculate_ref_particle_recenters (m_e_GeV : R) (pa : ParticleArray.t) :
  ParticleArray.shape_ok pa ->
  (0 < ParticleArray.columns pa)%nat ->
  m_e_GeV <> 0 ->
  m_e_GeV ^ 2 <= ParticleArray.E pa ^ 2 ->
  exists pa',
    recalculate_ref_particle m_e_GeV pa = Ok pa' /\
    nth 0 (ParticleArray.tau pa') 0 = 0 /\
    nth 0 (ParticleArray.p pa') 0 = 0 /\
    ParticleArray.tau pa'
      = map (fun v => v - nth 0 (ParticleArray.tau pa) 0) (ParticleArray.tau pa) /\
    ParticleArray.p pa'
      = map (fun v => v - nth 0 (ParticleArray.p pa) 0) (ParticleArray.p pa) /\
    ParticleArray.E pa'
      = ParticleArray.E pa
        + nth 0 (ParticleArray.p pa) 0
          * sqrt (ParticleArray.E pa ^ 2 / m_e_GeV ^ 2 - 1) * m_e_GeV /\
    ParticleArray.s pa' = ParticleArray.s pa - nth 0 (ParticleArray.tau pa) 0 /\
    ParticleArray.x pa' = ParticleArray.x pa /\
    ParticleArray.px pa' = ParticleArray.px pa /\
    ParticleArray.y pa' = ParticleArray.y pa /\
    ParticleArray.py pa' = ParticleArray.py pa /\
    ParticleArray.q_array pa' = ParticleArray.q_array pa.
Proof.
  intros Hshape Hpos _ _.
  destruct (shape_ok_rows Hshape) as (r0 & r1 & r2 & r3 & r4 & r5 & Hr & H1 & H2 & H3 & H4 & H5).
  unfold ParticleArray.columns, ParticleArray.row in Hpos. rewrite Hr in Hpos.
  cbn [nth] in Hpos.
  destruct r4 as [|t0 r4]; [cbn in H4; lia|].
  destruct r5 as [|p0 r5]; [cbn in H5; lia|].
  unfold recalculate_ref_particle, ParticleArray.p, ParticleArray.tau,
    ParticleArray.x, ParticleArray.px, ParticleArray.y, ParticleArray.py,
    ParticleArray.row.
  rewrite Hr. cbn [nth getitem nth_error Py.bind set_row].
  eexists. split; [reflexivity|].
  cbn [ParticleArray.rparticles ParticleArray.q_array ParticleArray.s
       ParticleArray.E nth map].
  repeat split; try reflexivity; lra.
Qed.

Lemma recalculate_ref_particle_recenters_witness :
  let pa := ParticleArray.mk
              [[1; 2; 3]; [4; 5; 6]; [7; 8; 9]; [1; 0; 1]; [5; 7; 4]; [6; 2; 9]]
              [7; 7; 7] 8 5 in
  exists pa',
    recalculate_ref_particle 3 pa = Ok pa' /\
    ParticleArray.tau pa' = [5 - 5; 7 - 5; 4 - 5] /\
    ParticleArray.p pa' = [6 - 6; 2 - 6; 9 - 6] /\
    ParticleArray.E pa' = 5 + 6 * sqrt (5 ^ 2 / 3 ^ 2 - 1) * 3 /\
    ParticleArray.s pa' = 8 - 5 /\
    ParticleArray.x pa' = [1; 2; 3] /\
    ParticleArray.q_array pa' = [7; 7; 7].
Proof.
  intros pa.
  destruct (@recalculate_ref_particle_recenters 3 pa)
    as (pa' & Hrun & _ & _ & Htau & Hp & HE & Hs & Hx & _ & _ & _ & Hq).
  - split; [reflexivity|]. repeat constructor.
  - cbv. lia.
  - lra.
  - unfold pa. cbn [ParticleArray.E]. lra.
  - exists pa'. repeat split; assumption.
Defined.

(** Decides the comparisons of concrete reals met while evaluating. *)
Ltac Rdecide :=
  repeat (reval;
          match goal with
          | |- context [Rabs ?a] =>
              first [ rewrite (Rabs_pos_eq a) by lra
                    | rewrite (Rabs_left a) by lra ]
          | |- context [Rlt_dec ?a ?b] =>
              destruct (Rlt_dec a b); [try (exfalso; lra) | try (exfalso; lra)]
          | |- context [Rle_dec ?a ?b] =>
              destruct (Rle_dec a b); [try (exfalso; lra) | try (exfalso; lra)]
          | |- context [Req_dec_T ?a ?b] =>
              destruct (Req_dec_T a b); [try (exfalso; lra) | try (exfalso; lra)]
          end).

(* ------------------------------------------------------------------ *)
(** * [rm_tails] *)

Lemma rm_tails_q_array (pa : ParticleArray.t) (xlim ylim px_lim py_lim : R) :
  ParticleArray.q_array (snd (ParticleArray.rm_tails pa xlim ylim px_lim py_lim))
  = ParticleArray.q_array pa.
Proof. reflexivity. Qed.

(** C3 fails on the code: two particles with one charge each, the second
    one beyond [xlim].  [rm_tails] deletes its column and leaves
    [q_array] as it was: two charges for one column. *)
Theorem rm_tails_breaks_weights_match :
  let pa := ParticleArray.mk [[0; 2]; [0; 0]; [0; 0]; [0; 0]; [0; 0]; [0; 0]]
                             [1; 1] 0 0 in
  ParticleArray.shape_ok pa /\
  ParticleArray.weights_match pa /\
  ParticleArray.rm_tails pa 1 1 1 1
    = ([1%nat],
       ParticleArray.mk [[0]; [0]; [0]; [0]; [0]; [0]] [1; 1] 0 0) /\
  ~ ParticleArray.weights_match (snd (ParticleArray.rm_tails pa 1 1 1 1)).
Proof.
  intros pa.
  assert (Hrun : ParticleArray.rm_tails pa 1 1 1 1
    = ([1%nat], ParticleArray.mk [[0]; [0]; [0]; [0]; [0]; [0]] [1; 1] 0 0)).
  { unfold pa. Rdecide. reflexivity. }
  split; [|split; [|split]].
  - split; [reflexivity|]. repeat constructor.
  - reflexivity.
  - exact Hrun.
  - rewrite Hrun. cbv. discriminate.
Qed.

(* ------------------------------------------------------------------ *)
(** * [rm_tails]: what is deleted *)

Lemma insert_unique_In (i j : nat) (l : list nat) :
  In j (insert_unique i l) <-> j = i \/ In j l.
Proof.
  induction l as [|k l IH]; cbn [insert_unique].
  - cbn. intuition.
  - destruct (Nat.ltb_spec i k).
    + cbn. intuition.
    + destruct (Nat.eqb_spec i k) as [->|Hne].
      * cbn. intuition.
      * cbn [In]. rewrite IH. intuition.
Qed.

Lemma insert_unique_sorted (i : nat) (l : list nat) :
  Sorted lt l -> Sorted lt (insert_unique i l).
Proof.
  induction l as [|k l IH]; intros Hs; cbn [insert_unique].
  - repeat constructor.
  - destruct (Nat.ltb_spec i k).
    + constructor; [exact Hs | constructor; exact H].
    + destruct (Nat.eqb_spec i k) as [->|Hne]; [exact Hs|].
      inversion Hs as [|? ? Hs' Hd]; subst.
      constructor; [apply IH; exact Hs'|].
      destruct l as [|m l]; cbn [insert_unique].
      * constructor. lia.
      * destruct (Nat.ltb_spec i m); [constructor; lia|].
        destruct (Nat.eqb_spec i m); inversion Hd; subst; constructor; assumption.
Qed.

Lemma np_unique_In (j : nat) (l : list nat) : In j (np_unique l) <-> In j l.
Proof.
  unfold np_unique. induction l as [|i l IH]; cbn [fold_right].
  - reflexivity.
  - rewrite insert_unique_In, IH. cbn. intuition.
Qed.

Lemma np_unique_sorted (l : list nat) : Sorted lt (np_unique l).
Proof.
  unfold np_unique. induction l as [|i l IH]; cbn [fold_right].
  - constructor.
  - apply insert_unique_sorted. exact IH.
Qed.

Lemma np_unique_NoDup (l : list nat) : NoDup (np_unique l).
Proof.
  pose proof (np_unique_sorted l) as Hs.
  apply Sorted_StronglySorted in Hs; [|intros a b c; lia].
  induction Hs as [|a m Hs IH Hall]; constructor; [|exact IH].
  intros Hin. rewrite Forall_forall in Hall. specialize (Hall a Hin). lia.
Qed.

Lemma argwhere_from_bound {A} (f : A -> bool) (l : list A) (k i : nat) :
  In i (argwhere_from k f l) -> (k <= i < k + length l)%nat.
Proof.
  revert k. induction l as [|a l IH]; intros k Hi; [destruct Hi|].
  cbn [argwhere_from] in Hi. cbn [length].
  destruct (f a).
  - destruct Hi as [<-|Hi]; [lia|]. apply IH in Hi. lia.
  - apply IH in Hi. lia.
Qed.

Lemma argwhere_bound {A} (f : A -> bool) (l : list A) (i : nat) :
  In i (argwhere f l) -> (i < length l)%nat.
Proof. intros H. apply argwhere_from_bound in H. lia. Qed.

Lemma delete_from_length {A} (k : nat) (idxs : list nat) (l : list A) :
  length (delete_from k idxs l)
  = length (filter (fun i => negb (existsb (Nat.eqb i) idxs)) (seq k (length l))).
Proof.
  revert k. induction l as [|a l IH]; intros k; [reflexivity|].
  cbn [delete_from length seq filter].
  destruct (existsb (Nat.eqb k) idxs); cbn [negb length]; now rewrite IH.
Qed.

Lemma existsb_eqb_In (i : nat) (idxs : list nat) :
  existsb (Nat.eqb i) idxs = true <-> In i idxs.
Proof.
  rewrite existsb_exists. split.
  - intros [j [Hj E]]. apply Nat.eqb_eq in E. now subst.
  - intros H. exists i. split; [exact H | apply Nat.eqb_refl].
Qed.

(** Deleting [k] distinct positions of a row of length [n] leaves
    [n - k] entries. *)
Lemma delete_from_count {A} (idxs : list nat) (l : list A) :
  NoDup idxs -> (forall i, In i idxs -> (i < length l)%nat) ->
  length (delete_from 0 idxs l) = (length l - length idxs)%nat /\
  (length idxs <= length l)%nat.
Proof.
  intros Hnd Hb. rewrite delete_from_length.
  set (n := length l).
  set (keep := filter (fun i => negb (existsb (Nat.eqb i) idxs)) (seq 0 n)).
  set (gone := filter (fun i => existsb (Nat.eqb i) idxs) (seq 0 n)).
  assert (Hsplit : (length gone + length keep = n)%nat).
  { unfold gone, keep. rewrite <- (length_seq n 0) at 3.
    generalize (seq 0 n) as s. intros s. induction s as [|a s IH]; [reflexivity|].
    cbn [filter]. destruct (existsb (Nat.eqb a) idxs); cbn [negb length]; lia. }
  assert (Hperm : Permutation gone idxs).
  { apply NoDup_Permutation.
    - unfold gone. apply NoDup_filter. apply seq_NoDup.
    - exact Hnd.
    - intros i. unfold gone. rewrite filter_In, in_seq, existsb_eqb_In.
      split; [intros [_ H]; exact H|].
      intros H. split; [|exact H]. specialize (Hb i H). fold n in Hb. lia. }
  apply Permutation_length in Hperm. lia.
Qed.

(** X2.  [rm_tails] on a 6 x N array: the columns listed in the returned
    [p_idxs] are deleted from every row, [q_array] is left as it was, so
    the invariant "one charge per column" survives exactly when no
    particle is removed. *)
Theorem rm_tails_keeps_all_charges
        (pa : ParticleArray.t) (xlim ylim px_lim py_lim : R) :
  ParticleArray.shape_ok pa ->
  let p_idxs := fst (ParticleArray.rm_tails pa xlim ylim px_lim py_lim) in
  let pa' := snd (ParticleArray.rm_tails pa xlim ylim px_lim py_lim) in
  ParticleArray.shape_ok pa' /\
  ParticleArray.columns pa' = (ParticleArray.columns pa - length p_idxs)%nat /\
  ParticleArray.q_array pa' = ParticleArray.q_array pa /\
  (ParticleArray.weights_match pa ->
   (ParticleArray.weights_match pa' <-> p_idxs = [])).
Proof.
  intros Hshape p_idxs pa'.
  destruct (shape_ok_rows Hshape)
    as (r0 & r1 & r2 & r3 & r4 & r5 & Hr & H1 & H2 & H3 & H4 & H5).
  assert (Hnd : NoDup p_idxs) by apply np_unique_NoDup.
  assert (Hb : forall i, In i p_idxs -> (i < length r0)%nat).
  { intros i Hi. unfold p_idxs, ParticleArray.rm_tails in Hi. cbn [fst] in Hi.
    apply (proj1 (np_unique_In _ _)) in Hi.
    unfold ParticleArray.x, ParticleArray.y, ParticleArray.px, ParticleArray.py,
      ParticleArray.row in Hi.
    rewrite Hr in Hi. cbn [nth] in Hi.
    repeat (apply in_app_or in Hi; destruct Hi as [Hi|Hi]);
      apply argwhere_bound in Hi; rewrite length_map in Hi; lia. }
  assert (Hrow : forall r : list R, length r = length r0 ->
                 length (delete_from 0 p_idxs r) = (length r0 - length p_idxs)%nat).
  { intros r Hlen.
    destruct (@delete_from_count R p_idxs r Hnd) as [Hc _];
      [intros i Hi; rewrite Hlen; now apply Hb|].
    rewrite Hc, Hlen. reflexivity. }
  destruct (@delete_from_count R p_idxs r0 Hnd Hb) as [_ Hle].
  assert (Hcols : ParticleArray.columns pa = length r0).
  { unfold ParticleArray.columns, ParticleArray.row. now rewrite Hr. }
  assert (Hrows' : ParticleArray.rparticles pa'
                   = map (delete_from 0 p_idxs) [r0; r1; r2; r3; r4; r5]).
  { unfold pa', ParticleArray.rm_tails. cbn [snd ParticleArray.rparticles].
    unfold np_delete_columns. rewrite Hr. reflexivity. }
  assert (Hcols' : ParticleArray.columns pa' = (length r0 - length p_idxs)%nat).
  { unfold ParticleArray.columns, ParticleArray.row. rewrite Hrows'.
    cbn [map nth]. now apply Hrow. }
  split; [|split; [|split]].
  - split.
    + rewrite Hrows'. reflexivity.
    + rewrite Hcols', Hrows'. cbn [map].
      repeat constructor; apply Hrow; congruence.
  - rewrite Hcols', Hcols. reflexivity.
  - reflexivity.
  - unfold ParticleArray.weights_match. intros Hw.
    replace (ParticleArray.q_array pa') with (ParticleArray.q_array pa) by reflexivity.
    rewrite Hcols', Hw, Hcols. split.
    + intros E. destruct p_idxs as [|i l]; [reflexivity|].
      cbn [length] in *. lia.
    + intros ->. cbn [length]. lia.
Qed.

Lemma rm_tails_keeps_all_charges_witness :
  let pa := ParticleArray.mk [[0; 2]; [0; 0]; [0; 0]; [0; 0]; [0; 0]; [0; 0]]
                             [1; 1] 0 0 in
  ParticleArray.columns (snd (ParticleArray.rm_tails pa 1 1 1 1))
  = (2 - length (fst (ParticleArray.rm_tails pa 1 1 1 1)))%nat /\
  ParticleArray.q_array (snd (ParticleArray.rm_tails pa 1 1 1 1)) = [1; 1].
Proof.
  intros pa.
  destruct (@rm_tails_keeps_all_charges pa 1 1 1 1) as (_ & Hc & Hq & _).
  - split; [reflexivity|]. repeat constructor.
  - split; [exact Hc | exact Hq].
Defined.

(** Equality of two lists of concrete reals, entry by entry. *)
Ltac Rlist_eq := repeat (apply f_equal2; [lra|]); reflexivity.

(* ------------------------------------------------------------------ *)
(** * [get_envelope]: the small-angle correction *)

(** What the two assignments compute: the second plane is corrected with
    the already corrected first plane. *)
Lemma small_angle_correction_sequential (px py : list R) :
  let px_new := map2 (fun px py => px * (1 - 0.5 * px * px - 0.5 * py * py)) px py in
  small_angle_correction px py
  = (px_new,
     map2 (fun px' py => py * (1 - 0.5 * px' * px' - 0.5 * py * py)) px_new py).
Proof. reflexivity. Qed.

(** C2 fails on the code.  Three particles, no dispersion: the corrected
    py of particle 0 is 0.5, where the same-form correction from the
    uncorrected px = py = 1 is 0; the mean [tws.py] is 0.3125. *)
Theorem get_envelope_py_reads_corrected_px :
  let pa := ParticleArray.mk
              [[1; 0; 0]; [1; 0.5; 0]; [1; 0; 0]; [1; 0; 0.5]; [0; 0; 0]; [0; 0; 0]]
              [1; 1; 1] 0 1 in
  small_angle_correction (ParticleArray.px pa) (ParticleArray.py pa)
    = ([0; 0.4375; 0], [0.5; 0; 0.4375]) /\
  map2 (fun px py => py * (1 - 0.5 * px * px - 0.5 * py * py))
       (ParticleArray.px pa) (ParticleArray.py pa) = [0; 0; 0.4375] /\
  Twiss.px (get_envelope pa Twiss.init) = Some (0.4375 / 3) /\
  Twiss.py (get_envelope pa Twiss.init) = Some 0.3125.
Proof.
  intros pa. unfold pa. repeat split.
  - reval. apply f_equal2; Rlist_eq.
  - reval. Rlist_eq.
  - reval. apply f_equal. lra.
  - reval. apply f_equal. lra.
Qed.

(* ------------------------------------------------------------------ *)
(** * Cumulative sums and monadic maps *)

Lemma cumsum_from_length acc l : length (cumsum_from acc l) = length l.
Proof.
  revert acc; induction l as [|v l IH]; intros acc; simpl; [reflexivity|].
  now rewrite IH.
Qed.

Lemma np_cumsum_length l : length (np_cumsum l) = length l.
Proof. apply cumsum_from_length. Qed.

Lemma cumsum_from_nth acc l k :
  (k < length l)%nat ->
  nth_error (cumsum_from acc l) k = Some (acc + np_sum (firstn (S k) l)).
Proof.
  revert acc k; induction l as [|v l IH]; intros acc k Hk; [simpl in Hk; lia|].
  destruct k as [|k].
  - simpl. rewrite np_sum_cons, np_sum_nil. f_equal; lra.
  - cbn [cumsum_from nth_error]. rewrite IH by (simpl in Hk; lia).
    rewrite firstn_cons, (np_sum_cons v). f_equal; lra.
Qed.

Lemma np_cumsum_first v l : getitemZ (np_cumsum (v :: l)) 0 = Ok v.
Proof.
  unfold getitemZ, getitem, np_cumsum. cbn [Z.ltb Z.compare Z.to_nat].
  rewrite cumsum_from_nth by (simpl; lia).
  cbn [firstn]. rewrite np_sum_cons, np_sum_nil. f_equal; lra.
Qed.

Lemma np_cumsum_last v l :
  getitemZ (np_cumsum (v :: l)) (Z.of_nat (length (v :: l)) - 1)
  = Ok (v + np_sum l).
Proof.
  unfold getitemZ, getitem, np_cumsum.
  destruct (Z.ltb_spec (Z.of_nat (length (v :: l)) - 1) 0) as [H|_];
    [simpl length in H; lia|].
  rewrite cumsum_from_nth by (simpl length; lia).
  replace (S (Z.to_nat (Z.of_nat (length (v :: l)) - 1))) with (length (v :: l))
    by (simpl length; lia).
  rewrite firstn_all, np_sum_cons. f_equal; lra.
Qed.

Lemma mapM_const {A B} (f : A -> result B) (c : B) (l : list A) :
  (forall a, In a l -> f a = Ok c) ->
  mapM f l = Ok (repeat c (length l)).
Proof.
  induction l as [|a l IH]; intros H; [reflexivity|].
  cbn [mapM]. rewrite (H a) by (left; reflexivity).
  rewrite IH by (intros b Hb; apply H; right; exact Hb).
  reflexivity.
Qed.

Lemma In_range i a b : In i (Py.range a b) -> (a <= i < b)%Z.
Proof.
  unfold Py.range. rewrite in_map_iff. intros [k [<- Hk]].
  apply in_seq in Hk. lia.
Qed.

Lemma map2_repeat_r {A B C} (f : A -> B -> C) (l : list A) (c : B) (n : nat) :
  n = length l -> map2 f l (repeat c n) = map (fun a => f a c) l.
Proof.
  intros ->. induction l as [|a l IH]; simpl; [reflexivity|]. now rewrite IH.
Qed.

Lemma map2_repeat {A B C} (f : A -> B -> C) (a : A) (b : B) (n : nat) :
  map2 f (repeat a n) (repeat b n) = repeat (f a b) n.
Proof. induction n as [|n IH]; simpl; [reflexivity|]. now rewrite IH. Qed.

Lemma map2_diag {A C} (f : A -> A -> C) (l : list A) :
  map2 f l l = map (fun a => f a a) l.
Proof. induction l as [|a l IH]; simpl; [reflexivity|]. now rewrite IH. Qed.

Lemma map2_map {A B A' B' C} (f : A' -> B' -> C) (g : A -> A') (h : B -> B')
      (l1 : list A) (l2 : list B) :
  map2 f (map g l1) (map h l2) = map2 (fun a b => f (g a) (h b)) l1 l2.
Proof.
  revert l2; induction l1 as [|a l1 IH]; intros [|b l2]; simpl; try reflexivity.
  now rewrite IH.
Qed.

Lemma map2_length {A B C} (f : A -> B -> C) (l1 : list A) (l2 : list B) :
  length l1 = length l2 -> length (map2 f l1 l2) = length l1.
Proof.
  revert l2; induction l1 as [|a l1 IH]; intros [|b l2] H; simpl in *;
    try reflexivity; try discriminate.
  f_equal. apply IH. lia.
Qed.

Lemma map_repeat {A B} (f : A -> B) (a : A) (n : nat) :
  map f (repeat a n) = repeat (f a) n.
Proof. induction n as [|n IH]; simpl; [reflexivity|]. now rewrite IH. Qed.

Lemma np_broadcast2_same {A B C} (f : A -> B -> C) (a : list A) (b : list B) :
  length a = length b -> np_broadcast2 f a b = Ok (map2 f a b).
Proof. intros H. unfold np_broadcast2. rewrite H, Nat.eqb_refl. reflexivity. Qed.

(* ------------------------------------------------------------------ *)
(** * [slice_analysis] with a window that covers the whole sample *)

Section FullWindow.

Variables (N : nat) (m : Z).
Hypothesis HN : (2 <= N)%nat.
Hypothesis Hm : (Z.of_nat N - 1 <= m)%Z.

Lemma full_window_bounds (i : Z) :
  (0 <= i < Z.of_nat N)%Z ->
  slice_n1 m i = 0%Z /\ slice_n2 (Z.of_nat N) m i = (Z.of_nat N - 1)%Z.
Proof. intros Hi. unfold slice_n1, slice_n2. lia. Qed.

(** The difference of the two cumulative sums leaves out the first
    sample: the window of the source is [(n1, n2]]. *)
Lemma window_quotient_full (l : list R) (i : Z) :
  length l = N ->
  (0 <= i < Z.of_nat N)%Z ->
  window_quotient (Z.of_nat N) m (np_cumsum l) i = Ok (np_mean (tl l)).
Proof.
  intros Hl Hi. unfold window_quotient.
  destruct (@full_window_bounds i Hi) as [-> ->].
  destruct l as [|v l]; [simpl in Hl; lia|].
  rewrite <- Hl. rewrite np_cumsum_last, np_cumsum_first.
  cbn [Py.bind tl]. f_equal. unfold np_mean.
  replace (Z.of_nat (length (v :: l)) - 1 - 0)%Z with (Z.of_nat (length l))
    by (simpl length; lia).
  rewrite <- INR_IZR_INZ. f_equal. lra.
Qed.

End FullWindow.

Lemma tl_map {A B} (f : A -> B) (l : list A) : tl (map f l) = map f (tl l).
Proof. destruct l; reflexivity. Qed.

Lemma tl_map2 {A B C} (f : A -> B -> C) (l1 : list A) (l2 : list B) :
  tl (map2 f l1 l2) = map2 f (tl l1) (tl l2).
Proof.
  destruct l1 as [|a l1], l2 as [|b l2]; try reflexivity.
  simpl. destruct l1; reflexivity.
Qed.

(* ------------------------------------------------------------------ *)
(** * [argsort] on a sorted key, [np.round] on an integer *)

Lemma np_round_IZR (k : Z) : np_round (IZR k) = k.
Proof.
  unfold np_round. rewrite ZfloorZ.
  destruct (Rlt_dec (IZR k - IZR k) (1 / 2)) as [_|H]; [reflexivity|].
  exfalso; lra.
Qed.

Lemma Sorted_Rlt_nth (z : list R) (i : nat) :
  Sorted Rlt z -> (S i < length z)%nat -> nth i z 0 < nth (S i) z 0.
Proof.
  intros Hs. revert i. induction Hs as [|a z Hs IH Hd]; intros i Hi.
  - simpl in Hi; lia.
  - destruct i as [|i].
    + destruct Hd as [|b z Hab]; [simpl in Hi; lia|]. exact Hab.
    + apply IH. simpl in Hi. lia.
Qed.

Lemma argsort_sorted_from (z : list R) (k a : nat) :
  Sorted Rlt z -> (a + k <= length z)%nat ->
  fold_right (insert_by_key z) [] (seq a k) = seq a k.
Proof.
  intros Hs. revert a. induction k as [|k IH]; intros a Hk; [reflexivity|].
  cbn [seq fold_right]. rewrite IH by lia.
  destruct k as [|k]; [reflexivity|].
  cbn [seq insert_by_key].
  destruct (Rle_dec (nth a z 0) (nth (S a) z 0)) as [_|H]; [reflexivity|].
  exfalso. apply H. left. apply Sorted_Rlt_nth; [exact Hs | lia].
Qed.

Lemma argsort_sorted (z : list R) :
  Sorted Rlt z -> argsort z = seq 0 (length z).
Proof. intros Hs. apply argsort_sorted_from; [exact Hs | lia]. Qed.

Lemma take_seq_from (pre l : list R) :
  take (pre ++ l) (seq (length pre) (length l)) = Ok l.
Proof.
  revert pre. induction l as [|v l IH]; intros pre; [reflexivity|].
  unfold take in *. cbn [length seq mapM]. unfold getitem at 1.
  rewrite nth_error_app2 by lia. rewrite Nat.sub_diag. cbn [nth_error].
  specialize (IH (pre ++ [v])).
  rewrite <- app_assoc, length_app in IH. cbn [length app] in IH.
  rewrite Nat.add_1_r in IH. rewrite IH. reflexivity.
Qed.

Lemma take_all (x : list R) : take x (seq 0 (length x)) = Ok x.
Proof. exact (take_seq_from [] x). Qed.

Lemma slice_analysis_sorted_key (z x xs : list R) (M : R) :
  Sorted Rlt z -> length z = length x -> length xs = length x ->
  slice_analysis z x xs M true = slice_analysis z x xs M false.
Proof.
  intros Hs Hz Hxs. unfold slice_analysis.
  rewrite argsort_sorted by exact Hs.
  rewrite Hz, take_all. cbn [Py.bind].
  replace (take xs (seq 0 (length x))) with (Ok xs)
    by (rewrite <- Hxs; symmetry; apply take_all).
  reflexivity.
Qed.

(** C1 (as amended).  For a sample of N >= 2 points and a window
    parameter M with round(M/2) >= N-1, [slice_analysis] (on a sample
    that is already in increasing order of z, or called without sorting)
    returns at every index the centred moments of the sample without its
    first point: the means of x[1:] and xs[1:], their centred second
    moments with weight 1/(N-1), and the emittance built from them. *)
Theorem slice_analysis_full_window (z x xs : list R) (M : R) (to_sort : bool) :
  (to_sort = true -> Sorted Rlt z /\ length z = length x) ->
  (2 <= length x)%nat ->
  length xs = length x ->
  (Z.of_nat (length x) - 1 <= np_round (M / 2))%Z ->
  slice_analysis z x xs M to_sort
  = Ok (map (fun v => repeat v (length x)) (global_moments (tl x) (tl xs))).
Proof.
  intros Hsort HN Hxs HM.
  assert (Hfalse : slice_analysis z x xs M to_sort = slice_analysis z x xs M false).
  { destruct to_sort; [|reflexivity].
    destruct (Hsort eq_refl) as [Hs Hz]. now apply slice_analysis_sorted_key. }
  rewrite Hfalse. clear Hfalse Hsort.
  set (N := length x) in *.
  set (m := Z.max (np_round (M / 2)) 1).
  assert (Hm : (Z.of_nat N - 1 <= m)%Z) by (unfold m; lia).
  assert (Hrange : length (Py.range 0 (Z.of_nat N)) = N)
    by (rewrite range_length; lia).
  unfold slice_analysis. cbn [Py.bind]. fold N. fold m.
  (* first loop *)
  rewrite (@mapM_const _ _ _ (np_mean (tl x), np_mean (tl xs))).
  2:{ intros i Hi. apply In_range in Hi.
      rewrite (@window_quotient_full N m HN Hm x) by (reflexivity || exact Hi).
      rewrite (@window_quotient_full N m HN Hm xs) by (exact Hxs || exact Hi).
      reflexivity. }
  cbn [Py.bind]. rewrite Hrange, !map_repeat. cbn [fst snd].
  (* centring *)
  rewrite np_broadcast2_same by (rewrite repeat_length; reflexivity).
  cbn [Py.bind]. rewrite map2_repeat_r by reflexivity.
  rewrite np_broadcast2_same by (rewrite repeat_length; exact Hxs).
  cbn [Py.bind]. rewrite map2_repeat_r by (symmetry; exact Hxs).
  set (cx := map (fun a => a - np_mean (tl x)) x).
  set (cxs := map (fun a => a - np_mean (tl xs)) xs).
  assert (Hcx : length cx = N) by (unfold cx; rewrite length_map; reflexivity).
  assert (Hcxs : length cxs = N) by (unfold cxs; rewrite length_map; exact Hxs).
  rewrite !np_broadcast2_same by congruence.
  cbn [Py.bind].
  (* second loop *)
  rewrite (@mapM_const _ _ _
    (np_mean (tl (map2 Rmult cx cx)), np_mean (tl (map2 Rmult cxs cxs)),
     np_mean (tl (map2 Rmult cx cxs)))).
  2:{ intros i Hi. apply In_range in Hi.
      rewrite !(@window_quotient_full N m HN Hm)
        by (exact Hi || (rewrite map2_length; congruence)).
      reflexivity. }
  cbn [Py.bind]. rewrite Hrange, !map_repeat. cbn [fst snd].
  rewrite !np_broadcast2_same by (rewrite !repeat_length; reflexivity).
  cbn [Py.bind].
  rewrite !np_broadcast2_same
    by (rewrite !map2_repeat, !repeat_length; reflexivity).
  cbn [Py.bind]. rewrite !map2_repeat, map_repeat.
  (* the windowed values are the moments of the tail *)
  assert (Hvx : np_mean (tl (map2 Rmult cx cx)) = centered_var (tl x)).
  { unfold centered_var, cx. rewrite map2_diag, tl_map, tl_map, map_map.
    reflexivity. }
  assert (Hvxs : np_mean (tl (map2 Rmult cxs cxs)) = centered_var (tl xs)).
  { unfold centered_var, cxs. rewrite map2_diag, tl_map, tl_map, map_map.
    reflexivity. }
  assert (Hcov : np_mean (tl (map2 Rmult cx cxs)) = centered_cov (tl x) (tl xs)).
  { unfold centered_cov, cx, cxs. rewrite map2_map, tl_map2. reflexivity. }
  rewrite Hvx, Hvxs, Hcov. reflexivity.
Qed.

Lemma slice_analysis_full_window_witness :
  slice_analysis [0; 1; 2] [3; 0; 2] [0; 1; 0] 4 true
  = Ok (map (fun v => repeat v 3) (global_moments [0; 2] [1; 0])).
Proof.
  apply (@slice_analysis_full_window [0; 1; 2] [3; 0; 2] [0; 1; 0] 4 true).
  - intros _. split; [|reflexivity].
    repeat constructor; lra.
  - simpl; lia.
  - reflexivity.
  - replace (4 / 2) with (IZR 2) by lra. rewrite np_round_IZR. simpl; lia.
Defined.

(** C1 as stated fails: with the window over the whole sample the
    returned mean of x = [3, 0, 2] is 1 at every index, the mean of
    [0, 2]; the global mean is 5/3. *)
Lemma slice_analysis_full_window_counterexample :
  exists mx rest,
    slice_analysis [0; 1; 2] [3; 0; 2] [0; 1; 0] 4 false = Ok (mx :: rest) /\
    mx = [1; 1; 1] /\
    np_mean [3; 0; 2] = 5 / 3 /\
    nth 0 mx 0 <> nth 0 (global_moments [3; 0; 2] [0; 1; 0]) 0.
Proof.
  assert (Hm : np_mean [3; 0; 2] = 5 / 3) by (reval; lra).
  eexists; eexists. split; [|split; [|split]].
  - unfold slice_analysis.
    replace (4 / 2) with (IZR 2) by lra. rewrite np_round_IZR.
    reval. reflexivity.
  - Rlist_eq.
  - exact Hm.
  - cbn [nth global_moments]. rewrite Hm. lra.
Qed.

(* ------------------------------------------------------------------ *)
(** * [moments] *)

Section MomentsFacts.

Context {F : Type} (O : NpFloat.ops F).

(** On two samples of one length [moments] raises nothing and returns
    the means, the three population moments and the square root of
    [mxx*myy - mxy*mxy], in the arithmetic of [O]. *)
Lemma moments_population (x y : list F) :
  length x = length y ->
  moments O x y
  = Ok (NpFloat.mean O x, NpFloat.mean O y,
        population_moment O x x, population_moment O x y,
        population_moment O y y,
        NpFloat.sqrt O
          (NpFloat.sub O
             (NpFloat.mul O (population_moment O x x) (population_moment O y y))
             (NpFloat.mul O (population_moment O x y) (population_moment O x y)))).
Proof.
  intros Hlen. unfold moments.
  rewrite !np_broadcast2_same by (rewrite !length_map; congruence).
  cbn [Py.bind]. unfold population_moment.
  rewrite !map2_map, <- Hlen. reflexivity.
Qed.

End MomentsFacts.

(** The square root of a negative binary64 number is NaN. *)
Lemma sqrt_negative_is_nan (r : PrimFloat.float) :
  PrimFloat.ltb r PrimFloat.zero = true ->
  PrimFloat.is_nan (PrimFloat.sqrt r) = true.
Proof.
  intros Hneg. rewrite FloatAxioms.ltb_spec in Hneg.
  assert (Hs : FloatOps.Prim2SF (PrimFloat.sqrt r) = SpecFloat.S754_nan).
  { rewrite FloatAxioms.sqrt_spec.
    destruct (FloatOps.Prim2SF r) as [s|s| |s m e]; cbn in Hneg |- *.
    - destruct s; discriminate.
    - destruct s; [reflexivity | discriminate].
    - discriminate.
    - destruct s; [reflexivity | discriminate]. }
  unfold PrimFloat.is_nan. rewrite FloatAxioms.eqb_spec, Hs. reflexivity.
Qed.

(** C4.  On two arrays of one length [moments], run in binary64, returns
    the emittance sqrt(var_x*var_y - cov_xy^2) where var_x, var_y and
    cov_xy are the population (weight 1/n) centred second moments; it
    raises no exception, and when the radicand is negative the emittance
    it returns is NaN. *)
Theorem moments_emittance_or_nan (x y : list PrimFloat.float) :
  length x = length y ->
  let var_x := population_moment NpFloat.binary64 x x in
  let cov_xy := population_moment NpFloat.binary64 x y in
  let var_y := population_moment NpFloat.binary64 y y in
  let radicand :=
    PrimFloat.sub (PrimFloat.mul var_x var_y) (PrimFloat.mul cov_xy cov_xy) in
  moments NpFloat.binary64 x y
  = Ok (NpFloat.mean NpFloat.binary64 x, NpFloat.mean NpFloat.binary64 y,
        var_x, cov_xy, var_y, PrimFloat.sqrt radicand) /\
  (PrimFloat.ltb radicand PrimFloat.zero = true ->
   PrimFloat.is_nan (PrimFloat.sqrt radicand) = true).
Proof.
  intros Hlen. cbv zeta. split.
  - apply (moments_population NpFloat.binary64 x y Hlen).
  - apply sqrt_negative_is_nan.
Qed.

Section Binary64Witness.

Import PrimFloat.

(** x = [0.5, 2.0], y = 0.3*x: in binary64 the radicand comes out as
    about -6.9e-18 and the emittance is NaN. *)
Lemma moments_emittance_or_nan_witness :
  exists mx my mxx mxy myy emitt,
    moments NpFloat.binary64
            [0x1p-1; 0x1p+1]%float
            [0x1.3333333333333p-3; 0x1.3333333333333p-1]%float
    = Ok (mx, my, mxx, mxy, myy, emitt) /\
    PrimFloat.is_nan emitt = true.
Proof.
  destruct (@moments_emittance_or_nan
              [0x1p-1; 0x1p+1]%float
              [0x1.3333333333333p-3; 0x1.3333333333333p-1]%float eq_refl)
    as [Hrun Hnan].
  do 6 eexists. split; [exact Hrun|].
  apply Hnan. vm_compute. reflexivity.
Defined.

End Binary64Witness.

(** Over the reals the same code gives the centred moments of
    [global_moments]. *)
Lemma population_moment_real_var (x : list R) :
  population_moment NpFloat.real x x = centered_var x.
Proof.
  unfold population_moment, centered_var. rewrite map2_diag.
  unfold np_mean at 1. rewrite length_map. reflexivity.
Qed.

Lemma population_moment_real_cov (x y : list R) :
  length x = length y ->
  population_moment NpFloat.real x y = centered_cov x y.
Proof.
  intros Hlen. unfold population_moment, centered_cov.
  unfold np_mean at 1. rewrite map2_length by exact Hlen. reflexivity.
Qed.

Lemma moments_real (x y : list R) :
  length x = length y ->
  moments NpFloat.real x y
  = Ok (np_mean x, np_mean y, centered_var x, centered_cov x y, centered_var y,
        sqrt (centered_var x * centered_var y - centered_cov x y * centered_cov x y)).
Proof.
  intros Hlen. rewrite moments_population by exact Hlen.
  rewrite !population_moment_real_var, population_moment_real_cov by exact Hlen.
  reflexivity.
Qed.

(* ------------------------------------------------------------------ *)
(** * [beam_matching]: the module-level function *)

Lemma assign_slot_mismatch (n : nat) (v : list R) :
  length v <> n -> length v <> 1%nat -> assign_slot n v = Raise ValueError.
Proof.
  intros Hn H1. unfold assign_slot.
  destruct (Nat.eqb_spec (length v) n) as [E|_]; [contradiction|].
  destruct v as [|v0 [|v1 v]]; try reflexivity.
  exfalso. apply H1. reflexivity.
Qed.

Lemma assign_slot_same (n : nat) (v : list R) :
  length v = n -> assign_slot n v = Ok v.
Proof. intros H. unfold assign_slot. rewrite H, Nat.eqb_refl. reflexivity. Qed.

(** C5 fails on the function of lines 689-717.  For a 6 x N array the
    scratch table has [len(particles)/6 = 1] row, so for N other than 1
    the first column assignment raises ValueError and no particle is
    transformed. *)
Theorem beam_matching_raises_value_error
        (x px y py tau p : list R) (bounds x_opt y_opt : list R) :
  length x <> 1%nat ->
  beam_matching [x; px; y; py; tau; p] bounds x_opt y_opt = Raise ValueError.
Proof.
  intros H. unfold beam_matching, beam_matching_body.
  change (length [x; px; y; py; tau; p] / 6)%nat with 1%nat.
  cbn [getitem nth_error Py.bind].
  rewrite assign_slot_mismatch by exact H. reflexivity.
Qed.

Lemma beam_matching_raises_value_error_witness :
  beam_matching [[0; 1]; [0; 0]; [0; 0]; [0; 0]; [0; 1]; [0; 0]]
                [-5; 5] [0; 1; 0] [0; 1; 0]
  = Raise ValueError.
Proof.
  apply (@beam_matching_raises_value_error [0; 1] [0; 0] [0; 0] [0; 0] [0; 1] [0; 0]).
  cbv. discriminate.
Defined.

(* ------------------------------------------------------------------ *)
(** * [BeamTransform.beam_matching]: the method *)

Lemma take_argwhere_from (f : R -> bool) (keys vals pre : list R) :
  length vals = length keys ->
  take (pre ++ vals) (argwhere_from (length pre) f keys) = Ok (select f keys vals).
Proof.
  revert vals pre. induction keys as [|k ks IH]; intros vals pre Hlen.
  - destruct vals; reflexivity.
  - destruct vals as [|v vs]; [discriminate Hlen|].
    assert (Hrec : take (pre ++ v :: vs) (argwhere_from (S (length pre)) f ks)
                   = Ok (select f ks vs)).
    { specialize (IH vs (pre ++ [v])).
      rewrite <- app_assoc, length_app, Nat.add_1_r in IH.
      apply IH. simpl in Hlen. lia. }
    cbn [argwhere_from select]. destruct (f k); [|exact Hrec].
    unfold take in *. cbn [mapM]. unfold getitem at 1.
    rewrite nth_error_app2 by lia. rewrite Nat.sub_diag. cbn [nth_error].
    rewrite Hrec. reflexivity.
Qed.

Lemma take_argwhere (f : R -> bool) (keys vals : list R) :
  length vals = length keys ->
  take vals (argwhere f keys) = Ok (select f keys vals).
Proof. exact (take_argwhere_from f keys vals []). Qed.

Lemma select_length (f : R -> bool) (keys vals : list R) :
  length vals = length keys ->
  length (select f keys vals) = length (filter f keys).
Proof.
  revert vals. induction keys as [|k ks IH]; intros vals Hlen.
  - destruct vals; reflexivity.
  - destruct vals as [|v vs]; [discriminate Hlen|].
    cbn [select filter]. destruct (f k); cbn [length];
      rewrite IH by (simpl in Hlen; lia); reflexivity.
Qed.

Lemma match_plane_applies (inds_key : R -> bool) (keys u us opt : list R)
      (a b mu : R) :
  length u = length keys -> length us = length keys ->
  opt = [a; b; mu] ->
  exists M,
    m_from_twiss (measured_twiss (select inds_key keys u) (select inds_key keys us)) opt
      = Ok M /\
    match_plane (argwhere inds_key keys) u us opt = Ok (apply_matrix M u us).
Proof.
  intros Hu Hus ->. unfold match_plane.
  rewrite !take_argwhere by assumption. cbn [Py.bind].
  rewrite moments_real by (rewrite !select_length by assumption; reflexivity).
  cbn [Py.bind]. unfold measured_twiss.
  unfold m_from_twiss. cbn [getitem nth_error Py.bind].
  eexists. split; reflexivity.
Qed.

(** X1.  The method of lines 757-785 sizes the scratch table by
    [particles.size/6] and, on a 6 x N array, applies the matrix measured
    on the particles inside the window to every particle, inside the
    window or not; tau and p are left as they are.  The particles inside
    the window have a positive emittance in each plane and the target
    betas are positive, so that no quotient or square root of the method
    is undefined. *)
Theorem method_beam_matching_transforms_every_particle
        (x px y py tau p : list R) (b0 b1 : R) (x_opt y_opt : list R)
        (ax bx mux ay bY muy : R) :
  length px = length x -> length y = length x -> length py = length x ->
  length tau = length x -> length p = length x ->
  x_opt = [ax; bx; mux] -> y_opt = [ay; bY; muy] ->
  let z0 := np_mean tau in
  let sig0 := np_std tau in
  let inside := fun t => Rleb (z0 + sig0 * b0) t && Rleb t (z0 + sig0 * b1) in
  let emit2 := fun u us =>
    centered_var (select inside tau u) * centered_var (select inside tau us)
    - centered_cov (select inside tau u) (select inside tau us)
      * centered_cov (select inside tau u) (select inside tau us) in
  0 < emit2 x px -> 0 < emit2 y py -> 0 < bx -> 0 < bY ->
  exists Mx My,
    m_from_twiss (measured_twiss (select inside tau x) (select inside tau px)) x_opt
      = Ok Mx /\
    m_from_twiss (measured_twiss (select inside tau y) (select inside tau py)) y_opt
      = Ok My /\
    BeamTransform.beam_matching [x; px; y; py; tau; p] [b0; b1] x_opt y_opt
    = Ok [fst (apply_matrix Mx x px); snd (apply_matrix Mx x px);
          fst (apply_matrix My y py); snd (apply_matrix My y py); tau; p].
Proof.
  intros Hpx Hy Hpy Htau Hp Hxo Hyo z0 sig0 inside emit2 _ _ _ _.
  destruct (@match_plane_applies inside tau x px x_opt ax bx mux)
    as [Mx [HMx Hplx]]; try congruence.
  destruct (@match_plane_applies inside tau y py y_opt ay bY muy)
    as [My [HMy Hply]]; try congruence.
  exists Mx, My. split; [exact HMx|]. split; [exact HMy|].
  unfold BeamTransform.beam_matching, beam_matching_body.
  assert (Hsize : (fold_right (fun r n => length r + n) 0 [x; px; y; py; tau; p] / 6
                   = length x)%nat).
  { cbn [fold_right]. rewrite Hpx, Hy, Hpy, Htau, Hp.
    replace (length x + (length x + (length x + (length x + (length x + (length x + 0))))))%nat
      with (length x * 6)%nat by lia.
    apply Nat.div_mul. discriminate. }
  rewrite Hsize. cbn [getitem nth_error Py.bind].
  rewrite !assign_slot_same by congruence. cbn [Py.bind].
  fold z0. fold sig0. fold inside.
  rewrite Hplx. cbn [Py.bind].
  unfold apply_matrix at 1 2.
  rewrite !assign_slot_same by (rewrite map2_length; congruence).
  cbn [Py.bind]. rewrite Hply. cbn [Py.bind].
  unfold apply_matrix at 1 2.
  rewrite !assign_slot_same by (rewrite map2_length; congruence).
  reflexivity.
Qed.

Lemma method_beam_matching_transforms_every_particle_witness :
  let tau := [0; 2; 1; 1; 1] in
  let inside := fun t => Rleb (np_mean tau + np_std tau * 0) t
                         && Rleb t (np_mean tau + np_std tau * 0) in
  let x := [7; 7; 0; 1; 0] in
  let px := [7; 7; 0; 0; 1] in
  let y := [7; 7; 1; 0; 0] in
  let py := [7; 7; 0; 1; 0] in
  exists Mx My,
    m_from_twiss (measured_twiss (select inside tau x) (select inside tau px))
                 [1; 2; 0] = Ok Mx /\
    m_from_twiss (measured_twiss (select inside tau y) (select inside tau py))
                 [0; 3; 0] = Ok My /\
    BeamTransform.beam_matching [x; px; y; py; tau; [0; 0; 0; 0; 0]]
                                [0; 0] [1; 2; 0] [0; 3; 0]
    = Ok [fst (apply_matrix Mx x px); snd (apply_matrix Mx x px);
          fst (apply_matrix My y py); snd (apply_matrix My y py);
          tau; [0; 0; 0; 0; 0]].
Proof.
  intros tau inside x px y py.
  assert (Hm : np_mean tau = 1) by (unfold tau; reval; lra).
  assert (Hin : forall t, inside t = Rleb 1 t && Rleb t 1).
  { intros t. unfold inside. rewrite Hm, Rmult_0_r, Rplus_0_r. reflexivity. }
  assert (H0 : inside 0 = false).
  { rewrite Hin. rewrite (proj2 (Rleb_false 1 0)) by lra. reflexivity. }
  assert (H2 : inside 2 = false).
  { rewrite Hin. rewrite (proj2 (Rleb_false 2 1)) by lra. apply andb_false_r. }
  assert (H1 : inside 1 = true).
  { rewrite Hin. rewrite (proj2 (Rleb_true 1 1)) by lra. reflexivity. }
  assert (Hsel : forall a b c d e, select inside tau [a; b; c; d; e] = [c; d; e]).
  { intros a b c d e. unfold tau. cbn [select]. rewrite H0, H2, H1. reflexivity. }
  destruct (@method_beam_matching_transforms_every_particle
              x px y py tau [0; 0; 0; 0; 0] 0 0 [1; 2; 0] [0; 3; 0] 1 2 0 0 3 0
              eq_refl eq_refl eq_refl eq_refl eq_refl eq_refl eq_refl)
    as (Mx & My & HMx & HMy & Hrun).
  - fold inside. unfold x, px. rewrite !Hsel. reval. lra.
  - fold inside. unfold y, py. rewrite !Hsel. reval. lra.
  - lra.
  - lra.
  - exists Mx, My. repeat split; assumption.
Defined.

(* ------------------------------------------------------------------ *)
(** * The objective function of the tuning loop *)

Section ErrorFunc.

Import Mint.

Context {W : Type}.
Variable self : Optimizer.t W.
Variable elapse : R -> W -> W.

Local Abbreviation dp := (Optimizer.dp self).
Local Abbreviation mi := (Optimizer.mi self).

Lemma getitem_app_head {A} (pre l : list A) (a : A) (n : nat) :
  n = length pre -> getitem (pre ++ a :: l) n = Ok a.
Proof.
  intros ->. unfold getitem. rewrite nth_error_app2 by lia.
  rewrite Nat.sub_diag. reflexivity.
Qed.

Lemma getitem_limits (c : device) :
  (2 <= length (get_limits dp c))%nat ->
  getitem (get_limits dp c) 0 = Ok (nth 0 (get_limits dp c) 0) /\
  getitem (get_limits dp c) 1 = Ok (nth 1 (get_limits dp c) 0).
Proof.
  intros H. destruct (get_limits dp c) as [|l0 [|l1 l]]; simpl in H; try lia.
  split; reflexivity.
Qed.

Lemma limits_exceeded_from (pc cs : list device) (px x : list R) :
  length pc = length px -> length cs = length x ->
  (forall c, In c cs -> (2 <= length (get_limits dp c))%nat) ->
  (Exists (fun cv => MintSpec.outside_limits dp (fst cv) (snd cv)) (combine cs x) ->
   Optimizer.limits_exceeded self (pc ++ cs) (px ++ x) (seq (length px) (length x))
   = Ok true) /\
  (Forall (fun cv => ~ MintSpec.outside_limits dp (fst cv) (snd cv)) (combine cs x) ->
   Optimizer.limits_exceeded self (pc ++ cs) (px ++ x) (seq (length px) (length x))
   = Ok false).
Proof.
  revert pc px x. induction cs as [|c cs IH]; intros pc px x Hpre Hlen Hlim.
  - destruct x; [|discriminate Hlen]. split.
    + intros H. inversion H.
    + reflexivity.
  - destruct x as [|v x]; [discriminate Hlen|].
    assert (Hc : (2 <= length (get_limits dp c))%nat) by (apply Hlim; left; reflexivity).
    destruct (getitem_limits c Hc) as [H0 H1].
    assert (Hrec := IH (pc ++ [c]) (px ++ [v]) x).
    rewrite <- !app_assoc, !length_app in Hrec. cbn [length app] in Hrec.
    rewrite !Nat.add_1_r in Hrec.
    specialize (Hrec ltac:(lia) ltac:(simpl in Hlen; lia)
                     ltac:(intros c' Hc'; apply Hlim; right; exact Hc')).
    destruct Hrec as [Hex Hall].
    cbn [length seq Optimizer.limits_exceeded combine].
    rewrite !getitem_app_head by congruence.
    cbn [Py.bind]. rewrite H0, H1. cbn [Py.bind].
    unfold Rgtb.
    destruct (Rltb v (nth 0 (get_limits dp c) 0)) eqn:E0;
      destruct (Rltb (nth 1 (get_limits dp c) 0) v) eqn:E1; cbn [orb];
      try (split; [reflexivity|];
           intros HF; inversion HF as [|? ? Hnot _]; subst; exfalso; apply Hnot;
           unfold MintSpec.outside_limits; cbn [fst snd];
           first [left; apply Rltb_true; exact E0 | right; apply Rltb_true; exact E1]).
    split.
    + intros HE. inversion HE as [? ? Hout|? ? Hrest]; subst.
      * exfalso. unfold MintSpec.outside_limits in Hout. cbn [fst snd] in Hout.
        apply Rltb_false in E0. apply Rltb_false in E1. lra.
      * apply Hex. exact Hrest.
    + intros HF. inversion HF; subst. apply Hall. assumption.
Qed.

Lemma set_all_from (pc cs : list device) (px x : list R) (w : W) (log : list event) :
  length pc = length px -> length cs = length x ->
  Optimizer.set_all self (pc ++ cs) (px ++ x) (seq (length pc) (length cs)) (w, log)
  = (Ok tt, (MintSpec.written mi cs x w, log ++ MintSpec.writes cs x)).
Proof.
  revert pc px x w log. induction cs as [|c cs IH]; intros pc px x w log Hpre Hlen.
  - destruct x; [|discriminate Hlen]. cbn. rewrite app_nil_r. reflexivity.
  - destruct x as [|v x]; [discriminate Hlen|].
    assert (Hrec := IH (pc ++ [c]) (px ++ [v]) x).
    rewrite <- !app_assoc, !length_app in Hrec. cbn [length app] in Hrec.
    rewrite !Nat.add_1_r in Hrec.
    cbn [length seq Optimizer.set_all].
    unfold bindM at 1, lift at 1. rewrite getitem_app_head by reflexivity.
    unfold bindM at 1, lift at 1. rewrite getitem_app_head by congruence.
    unfold bindM at 1, Optimizer.mi_set_value at 1. cbn [fst snd].
    rewrite Hrec by (simpl in Hlen; lia).
    unfold MintSpec.written, MintSpec.writes. cbn [combine fold_left map2 fst snd].
    rewrite <- app_assoc. reflexivity.
Qed.

(** A vector with a value outside its limits is rejected before any
    write. *)
Lemma error_func_rejects
      (correctors : list device) (x : list R) (w : W) (log : list event) :
  length x = length correctors ->
  (forall c, In c correctors -> (2 <= length (get_limits dp c))%nat) ->
  Exists (fun cv => MintSpec.outside_limits dp (fst cv) (snd cv))
         (combine correctors x) ->
  Optimizer.error_func self elapse correctors x (w, log) = (Ok 100, (w, log)).
Proof.
  intros Hlen Hlim Hout.
  destruct (@limits_exceeded_from [] correctors [] x eq_refl (eq_sym Hlen) Hlim)
    as [Hex _].
  cbn [app length] in Hex.
  unfold Optimizer.error_func, bindM at 1, lift at 1.
  rewrite (Hex Hout). reflexivity.
Qed.

(** A vector inside the limits is written, and the penalty follows from
    the readings taken after the wait. *)
Lemma error_func_applies
      (correctors : list device) (x : list R) (w : W) (log : list event) :
  length x = length correctors ->
  (forall c, In c correctors -> (2 <= length (get_limits dp c))%nat) ->
  Forall (fun cv => ~ MintSpec.outside_limits dp (fst cv) (snd cv))
         (combine correctors x) ->
  let w1 := MintSpec.written mi correctors x w in
  let w2 := elapse (Optimizer.timeout self) w1 in
  let sase := fst (get_sase mi w2) in
  let w3 := snd (get_sase mi w2) in
  let alarms := fst (get_alarms mi w3) in
  let w4 := snd (get_alarms mi w3) in
  alarms <> [] ->
  Optimizer.error_func self elapse correctors x (w, log)
  = (Ok (MintSpec.penalty (np_max alarms) sase),
     (w4, log ++ MintSpec.writes correctors x
              ++ [Sleep (Optimizer.timeout self); GetSase sase; GetAlarms alarms])).
Proof.
  intros Hlen Hlim Hin w1 w2 sase w3 alarms w4 Hal.
  destruct (@limits_exceeded_from [] correctors [] x eq_refl (eq_sym Hlen) Hlim)
    as [_ Hall].
  cbn [app length] in Hall.
  unfold Optimizer.error_func, bindM at 1, lift at 1.
  rewrite (Hall Hin).
  unfold bindM at 1.
  assert (Hset := @set_all_from [] correctors [] x w log eq_refl (eq_sym Hlen)).
  cbn [app length] in Hset. rewrite Hset. clear Hset.
  unfold bindM at 1, Optimizer.sleep at 1. cbn [fst snd].
  unfold bindM at 1, Optimizer.mi_get_sase at 1. cbn [fst snd].
  fold w1. fold w2.
  destruct (get_sase mi w2) as [sase' w3'] eqn:Es.
  unfold bindM at 1, Optimizer.mi_get_alarms at 1. cbn [fst snd].
  subst sase w3. cbn [fst snd] in *.
  destruct (get_alarms mi w3') as [alarms' w4'] eqn:Ea.
  subst alarms w4. cbn [fst snd] in *.
  unfold bindM at 1, lift at 1, max_alarm.
  destruct alarms' as [|a0 al]; [contradiction|].
  unfold MintSpec.penalty, Rgtb, Rltb, ret.
  rewrite <- !app_assoc. cbn [app].
  destruct (Rlt_dec 1 (np_max (a0 :: al))); [reflexivity|].
  destruct (Rlt_dec 0.7 (np_max (a0 :: al))); [reflexivity|].
  repeat f_equal. lra.
Qed.

(** C9.  With one proposed value per actuator, the objective function
    returns the fixed penalty 100.0 and writes nothing (the machine and
    the trace are as before) when some value is outside its actuator's
    limits; otherwise it writes every actuator, waits [timeout], reads
    the objective and the alarms and returns 100.0 when the largest
    alarm exceeds 1.0, alarm * 50.0 when it exceeds 0.7, and
    alarm - objective otherwise. *)
Theorem error_func_penalties
        (correctors : list device) (x : list R) (w : W) (log : list event) :
  length x = length correctors ->
  (forall c, In c correctors -> (2 <= length (get_limits dp c))%nat) ->
  (Exists (fun cv => MintSpec.outside_limits dp (fst cv) (snd cv))
          (combine correctors x) ->
   Optimizer.error_func self elapse correctors x (w, log) = (Ok 100, (w, log))) /\
  (Forall (fun cv => ~ MintSpec.outside_limits dp (fst cv) (snd cv))
          (combine correctors x) ->
   let w1 := MintSpec.written mi correctors x w in
   let w2 := elapse (Optimizer.timeout self) w1 in
   let sase := fst (get_sase mi w2) in
   let w3 := snd (get_sase mi w2) in
   let alarms := fst (get_alarms mi w3) in
   let w4 := snd (get_alarms mi w3) in
   alarms <> [] ->
   Optimizer.error_func self elapse correctors x (w, log)
   = (Ok (MintSpec.penalty (np_max alarms) sase),
      (w4, log ++ MintSpec.writes correctors x
               ++ [Sleep (Optimizer.timeout self); GetSase sase; GetAlarms alarms]))).
Proof.
  intros Hlen Hlim. split.
  - intros Hout. now apply error_func_rejects.
  - intros Hin. now apply error_func_applies.
Qed.

End ErrorFunc.

Section ErrorFuncWitness.

Import Mint.
Import String.StringSyntax.

(** The test interface with the limits of the [DeviceProperties]
    placeholder: a value beyond 1000 is rejected, 1 is applied. *)
Lemma error_func_penalties_witness :
  let self := Optimizer.init TestInterface
                {| get_limits := fun _ => [-1000; 1000] |} in
  let elapse := fun (_ : R) (w : unit) => w in
  Optimizer.error_func self elapse ["h1"%string] [2000] (tt, []) = (Ok 100, (tt, [])) /\
  Optimizer.error_func self elapse ["h1"%string] [1] (tt, [])
  = (Ok (MintSpec.penalty (np_max [0]) 0),
     (tt, [SetValue "h1"%string 1; Sleep 1; GetSase 0; GetAlarms [0]])).
Proof.
  intros self elapse. split.
  - apply (@error_func_penalties unit self elapse ["h1"%string] [2000] tt []).
    + reflexivity.
    + intros c _. simpl. lia.
    + constructor. right. simpl. lra.
  - apply (@error_func_penalties unit self elapse ["h1"%string] [1] tt []).
    + reflexivity.
    + intros c _. simpl. lia.
    + constructor; [|constructor]. intros [H|H]; simpl in H; lra.
    + discriminate.
Defined.

End ErrorFuncWitness.

(* ------------------------------------------------------------------ *)
(** * The tuning loop *)

Section MaxSaseFacts.

Import Mint.
Import MintTrace.
Import String.StringSyntax.

Context {W : Type}.
Variable self : Optimizer.t W.
Variable elapse : R -> W -> W.
Variable scipy : Scipy.
Variable correctors : list device.

Local Abbreviation dp := (Optimizer.dp self).
Local Abbreviation mi := (Optimizer.mi self).

Hypothesis alarms_nonempty : forall w, fst (get_alarms mi w) <> [].
Hypothesis limits_pairs :
  forall c, In c correctors -> (2 <= length (get_limits dp c))%nat.

Lemma bindM_ok {A B} (m : M W A) (k : A -> M W B) st a st' :
  m st = (Ok a, st') -> bindM m k st = k a st'.
Proof. intros H. unfold bindM. rewrite H. reflexivity. Qed.

Lemma runs_ok_bind {A B} (m : M W A) (k : A -> M W B) :
  runs_ok m -> (forall a, runs_ok (k a)) -> runs_ok (bindM m k).
Proof.
  intros Hm Hk w log.
  destruct (Hm w log) as (a & w1 & ev1 & H1).
  destruct (Hk a w1 (log ++ ev1)) as (b & w2 & ev2 & H2).
  exists b, w2, (ev1 ++ ev2).
  rewrite (@bindM_ok _ _ m k _ _ _ H1), H2, app_assoc. reflexivity.
Qed.

Lemma runs_ok_ret {A} (a : A) : runs_ok (@ret W A a).
Proof. intros w log. exists a, w, []. rewrite app_nil_r. reflexivity. Qed.

Lemma runs_ok_emit (e : event) : runs_ok (@emit W e).
Proof. intros w log. exists tt, w, [e]. reflexivity. Qed.

Lemma outside_limits_dec (cv : device * R) :
  {MintSpec.outside_limits dp (fst cv) (snd cv)}
  + {~ MintSpec.outside_limits dp (fst cv) (snd cv)}.
Proof.
  unfold MintSpec.outside_limits.
  destruct (Rlt_dec (snd cv) (nth 0 (get_limits dp (fst cv)) 0)) as [H|H];
    [left; left; exact H|].
  destruct (Rlt_dec (nth 1 (get_limits dp (fst cv)) 0) (snd cv)) as [H'|H'];
    [left; right; exact H'|].
  right. intros [H1|H1]; contradiction.
Qed.

Lemma error_func_runs_ok (x : list R) :
  length x = length correctors ->
  runs_ok (Optimizer.error_func self elapse correctors x).
Proof.
  intros Hlen w log.
  destruct (Exists_dec (fun cv => MintSpec.outside_limits dp (fst cv) (snd cv))
                       (combine correctors x) outside_limits_dec) as [He|Hne].
  - exists 100, w, []. rewrite app_nil_r.
    exact (@error_func_rejects W self elapse correctors x w log Hlen limits_pairs He).
  - apply Forall_Exists_neg in Hne.
    eexists; eexists; eexists.
    apply (@error_func_applies W self elapse correctors x w log Hlen limits_pairs Hne).
    apply alarms_nonempty.
Qed.

Lemma minimize_runs_ok (fuel : nat) (next : list (list R * R) -> option (list R))
      (seen : list (list R * R)) :
  (forall h x, next h = Some x -> length x = length correctors) ->
  runs_ok (Optimizer.minimize fuel next (Optimizer.error_func self elapse correctors) seen).
Proof.
  intros Hnext. revert seen. induction fuel as [|fuel IH]; intros seen.
  - apply runs_ok_ret.
  - cbn [Optimizer.minimize]. destruct (next seen) as [x|] eqn:E.
    + apply runs_ok_bind.
      * apply error_func_runs_ok. eapply Hnext. exact E.
      * intros v. apply IH.
    + apply runs_ok_ret.
Qed.

Lemma stage_runs_ok (b : bool) (s : options -> strategy) (o : options) (x0 : list R) :
  length x0 = length correctors ->
  (forall o x0 seen x, s o x0 seen = Some x -> length x = length x0) ->
  runs_ok (if b then Optimizer.run_minimizer scipy s o
                       (Optimizer.error_func self elapse correctors) x0
           else ret tt).
Proof.
  intros Hx0 Hs. destruct b; [|apply runs_ok_ret].
  unfold Optimizer.run_minimizer. apply minimize_runs_ok.
  intros h x Hx. rewrite <- Hx0. eapply Hs. exact Hx.
Qed.

Lemma log_start_runs_ok method x_init sase_ref :
  (Optimizer.logging self = true -> Optimizer.log_file self <> None) ->
  runs_ok (Optimizer.log_start self correctors method x_init sase_ref).
Proof.
  intros Hlog. unfold Optimizer.log_start.
  destruct (Optimizer.logging self); [|apply runs_ok_ret].
  destruct (Optimizer.log_file self) as [name|]; [|exfalso; now apply Hlog].
  repeat (apply runs_ok_bind; [apply runs_ok_emit | intros _]).
  apply runs_ok_emit.
Qed.

Lemma revert_all_is_set_all (x : list R) (indices : list nat) :
  Optimizer.revert_all self correctors x indices
  = Optimizer.set_all self correctors x indices.
Proof.
  induction indices as [|i rest IH]; [reflexivity|].
  cbn [Optimizer.revert_all Optimizer.set_all]. now rewrite IH.
Qed.

Lemma log_end_events (sase_new : R) (w : W) (log : list event) :
  exists logged,
    Optimizer.log_end self sase_new (w, log) = (Ok tt, (w, log ++ logged)) /\
    Forall is_log logged.
Proof.
  unfold Optimizer.log_end. destruct (Optimizer.logging self).
  - exists [FileWrite (LogSaseNew sase_new); FileClose]. split.
    + unfold bindM, emit. cbn [fst snd]. rewrite <- app_assoc. reflexivity.
    + repeat constructor.
  - exists []. split; [unfold ret; now rewrite app_nil_r | constructor].
Qed.

(** C8.  One call of [max_sase] that runs to its end: after the last
    reading [sase_new] of the objective the trace holds the write of
    every actuator back to its baseline value exactly when
    [sase_new <= sase_ref], and no write to an actuator when
    [sase_new > sase_ref]; what follows are log-file events only. *)
Theorem max_sase_reverts_iff_not_improved
        (method : String.string) (params : list (String.string * R)) (w0 : W) :
  (forall w, length (fst (init_corrector_vals mi correctors w)) = length correctors) ->
  (forall s, In s [fmin_cg scipy; fmin scipy; fmin_powell scipy] ->
             forall o x0 seen x, s o x0 seen = Some x -> length x = length x0) ->
  (Optimizer.logging self = true -> Optimizer.log_file self <> None) ->
  let sase_ref := fst (get_sase mi w0) in
  let x_init := fst (init_corrector_vals mi correctors (snd (get_sase mi w0))) in
  exists w1 tuning sase_new logged,
    Optimizer.max_sase self elapse scipy correctors method params (w0, [])
    = (Ok tt,
       (w1, [GetSase sase_ref; InitCorrectorVals correctors x_init] ++ tuning
            ++ [GetSase sase_new]
            ++ (if Rle_dec sase_new sase_ref
                then MintSpec.writes correctors x_init else [])
            ++ logged)) /\
    Forall is_log logged.
Proof.
  intros Hinit Hstrat Hlog. cbv zeta.
  unfold Optimizer.max_sase.
  unfold bindM at 1, Optimizer.mi_get_sase at 1. cbn [fst snd].
  destruct (get_sase mi w0) as [sref wa] eqn:Eref.
  unfold bindM at 1, Optimizer.mi_init_corrector_vals at 1. cbn [fst snd].
  assert (Hx : length (fst (init_corrector_vals mi correctors wa)) = length correctors)
    by apply Hinit.
  destruct (init_corrector_vals mi correctors wa) as [x wb] eqn:Einit.
  cbn [fst snd] in *. cbn [app].
  set (log0 := [GetSase sref; InitCorrectorVals correctors x]).
  destruct (@log_start_runs_ok method x sref Hlog wb log0) as (u1 & w1 & ev1 & H1).
  rewrite (@bindM_ok _ _ _ _ _ _ _ H1).
  destruct (@stage_runs_ok (String.eqb method "cg"%string) (fmin_cg scipy)
              {| maxiter := param_or params "maxiter"%string (10 * INR (length x));
                 tol := param_or params "gtol"%string 1e-3;
                 epsilon := Some (param_or params "epsilon"%string 0.1) |}
              x Hx (Hstrat _ (or_introl eq_refl)) w1 (log0 ++ ev1))
    as (u2 & w2 & ev2 & H2).
  rewrite (@bindM_ok _ _ _ _ _ _ _ H2).
  destruct (@stage_runs_ok (String.eqb method "simplex"%string) (fmin scipy)
              {| maxiter := param_or params "maxiter"%string (10 * INR (length x));
                 tol := param_or params "xtol"%string 1e-3;
                 epsilon := None |}
              x Hx (Hstrat _ (or_intror (or_introl eq_refl))) w2 ((log0 ++ ev1) ++ ev2))
    as (u3 & w3 & ev3 & H3).
  rewrite (@bindM_ok _ _ _ _ _ _ _ H3).
  destruct (@stage_runs_ok (String.eqb method "powell"%string) (fmin_powell scipy)
              {| maxiter := param_or params "maxiter"%string (10 * INR (length x));
                 tol := param_or params "xtol"%string 1e-3;
                 epsilon := None |}
              x Hx (Hstrat _ (or_intror (or_intror (or_introl eq_refl))))
              w3 (((log0 ++ ev1) ++ ev2) ++ ev3))
    as (u4 & w4 & ev4 & H4).
  rewrite (@bindM_ok _ _ _ _ _ _ _ H4).
  unfold bindM at 1, Optimizer.mi_get_sase at 1. cbn [fst snd].
  destruct (get_sase mi w4) as [snew w5] eqn:Enew.
  set (log5 := ((((log0 ++ ev1) ++ ev2) ++ ev3) ++ ev4) ++ [GetSase snew]).
  unfold Rleb. destruct (Rle_dec snew sref) as [Hle|Hgt].
  - rewrite revert_all_is_set_all.
    assert (Hset := @set_all_from W self [] correctors [] x w5 log5 eq_refl (eq_sym Hx)).
    cbn [app length] in Hset.
    rewrite (@bindM_ok _ _ _ _ _ _ _ Hset).
    destruct (log_end_events snew (MintSpec.written mi correctors x w5)
                             (log5 ++ MintSpec.writes correctors x))
      as (logged & Hend & Hlogged).
    exists (MintSpec.written mi correctors x w5), (ev1 ++ ev2 ++ ev3 ++ ev4), snew, logged.
    split; [|exact Hlogged].
    destruct (Rle_dec snew sref) as [_|Hn]; [|contradiction].
    rewrite Hend. unfold log5, log0. rewrite <- !app_assoc. reflexivity.
  - unfold bindM at 1, ret at 1.
    destruct (log_end_events snew w5 log5) as (logged & Hend & Hlogged).
    exists w5, (ev1 ++ ev2 ++ ev3 ++ ev4), snew, logged.
    split; [|exact Hlogged].
    destruct (Rle_dec snew sref) as [Hn|_]; [contradiction|].
    rewrite Hend. unfold log5, log0. rewrite <- !app_assoc. reflexivity.
Qed.

End MaxSaseFacts.

Section MaxSaseWitness.

Import Mint.
Import String.StringSyntax.

(** The test interface, one corrector, a simplex stand-in that tries
    one point: the objective stays 0, which is not an improvement, and
    the corrector is written back. *)
Lemma max_sase_reverts_iff_not_improved_witness :
  let self := Optimizer.init TestInterface
                {| get_limits := fun _ => [-1000; 1000] |} in
  let elapse := fun (_ : R) (w : unit) => w in
  let one_step : options -> strategy :=
    fun _ x0 seen => match seen with
                     | [] => Some (map (fun v => v + 1) x0)
                     | _ => None
                     end in
  let scipy := {| fmin_cg := fun _ _ _ => None;
                  fmin := one_step;
                  fmin_powell := fun _ _ _ => None;
                  evaluations := fun _ => 5%nat |} in
  exists w1 tuning sase_new logged,
    Optimizer.max_sase self elapse scipy ["h1"%string] "simplex"%string [] (tt, [])
    = (Ok tt,
       (w1, [GetSase 0; InitCorrectorVals ["h1"%string] [0]] ++ tuning
            ++ [GetSase sase_new]
            ++ (if Rle_dec sase_new 0
                then MintSpec.writes ["h1"%string] [0] else [])
            ++ logged)) /\
    Forall MintTrace.is_log logged.
Proof.
  intros self elapse one_step scipy.
  apply (@max_sase_reverts_iff_not_improved unit self elapse scipy ["h1"%string]).
  - intros w. cbn. discriminate.
  - intros c _. cbn. lia.
  - intros w. reflexivity.
  - intros s Hs o x0 seen x Hx.
    destruct Hs as [<-|[<-|[<-|[]]]]; cbn in Hx; try discriminate.
    destruct seen; [|discriminate].
    injection Hx as <-. apply length_map.
  - cbn. discriminate.
Defined.

End MaxSaseWitness.

(* ------------------------------------------------------------------ *)
(** * [s_to_cur]: the grid *)

Lemma np_min_le_max (A : list R) : A <> [] -> np_min A <= np_max A.
Proof.
  intros HA. destruct A as [|x A]; [contradiction|].
  destruct (np_min_max_bounds (x :: A) x (or_introl eq_refl)). lra.
Qed.

Section CurrentGrid.

Variables (A : list R) (sigma : R).
Hypothesis HA : A <> [].
Hypothesis Hsigma : 0 < sigma.

Let a := np_min A - 3 * sigma.
Let b := np_max A + 3 * sigma.
Let N := Zceil ((b - a) / (0.25 * sigma)).
Let s := (b - a) / IZR N.

Lemma grid_extent : 6 * sigma <= b - a.
Proof. unfold a, b. pose proof (np_min_le_max HA). lra. Qed.

Lemma grid_bins : (24 <= N)%Z.
Proof.
  unfold N. apply Z.le_trans with (Zceil 24).
  - replace 24 with (IZR 24) by reflexivity.
    rewrite (Zceil_eq 24 (IZR 24)) by lra. lia.
  - apply Zceil_le.
    apply Rmult_le_reg_r with (0.25 * sigma); [lra|].
    unfold Rdiv. rewrite Rmult_assoc, Rinv_l by lra.
    pose proof grid_extent. lra.
Qed.

Lemma grid_bins_pos : 0 < IZR N.
Proof. apply IZR_lt. pose proof grid_bins. lia. Qed.

Lemma grid_step_pos : 0 < s.
Proof.
  unfold s. apply Rdiv_lt_0_compat; [|exact grid_bins_pos].
  pose proof grid_extent. lra.
Qed.

Lemma grid_step_le : s <= 0.25 * sigma.
Proof.
  unfold s. pose proof grid_bins_pos as HN.
  apply Rmult_le_reg_r with (IZR N); [exact HN|].
  unfold Rdiv. rewrite Rmult_assoc, Rinv_l by lra.
  rewrite Rmult_1_r.
  destruct (Zceil_bound ((b - a) / (0.25 * sigma))) as [_ Hc]. fold N in Hc.
  apply Rmult_le_compat_l with (r := 0.25 * sigma) in Hc; [|lra].
  replace (0.25 * sigma * ((b - a) / (0.25 * sigma))) with (b - a) in Hc
    by (field; lra).
  lra.
Qed.

Lemma grid_extent_step : b - a = IZR N * s.
Proof. unfold s. field. pose proof grid_bins_pos. lra. Qed.

(** [np.arange(0, (N+0.5)*s, s)] has [N + 1] entries. *)
Lemma grid_arange :
  np_arange 0 ((IZR N + 0.5) * s) s
  = Ok (map (fun k => 0 + INR k * s) (seq 0 (Z.to_nat (N + 1)))).
Proof.
  unfold np_arange. pose proof grid_step_pos as Hs.
  destruct (Req_dec_T s 0) as [E|_]; [lra|].
  replace (((IZR N + 0.5) * s - 0) / s) with (IZR N + 0.5) by (field; lra).
  rewrite (Zceil_eq (N + 1) (IZR N + 0.5)) by (rewrite plus_IZR; lra).
  reflexivity.
Qed.

(** Every particle falls in a bin [i] with [12 <= i] and [i + 12 <= N]. *)
Lemma particle_bin (x : R) :
  In x A -> (12 <= Zfloor ((x - a) / s) /\ Zfloor ((x - a) / s) + 12 <= N)%Z.
Proof.
  intros Hx. destruct (np_min_max_bounds A x Hx) as [Hlo Hhi].
  pose proof grid_step_pos as Hs. pose proof grid_step_le as Hle.
  pose proof grid_extent_step as Hext.
  assert (H3 : 12 * s <= 3 * sigma) by lra.
  split.
  - apply Zfloor_lub.
    apply Rmult_le_reg_r with s; [exact Hs|].
    unfold Rdiv. rewrite Rmult_assoc, Rinv_l by lra. unfold a. lra.
  - assert (Hup : (x - a) / s <= IZR (N - 12)).
    { apply Rmult_le_reg_r with s; [exact Hs|].
      unfold Rdiv. rewrite Rmult_assoc, Rinv_l by lra.
      rewrite minus_IZR. unfold b in Hext. unfold a in *. lra. }
    apply Zfloor_le in Hup. rewrite ZfloorZ in Hup. lia.
Qed.

(** The kernel half-width [K = floor(3*sigma/s + 0.5)] is at least 12. *)
Lemma kernel_halfwidth : (12 <= Zfloor (3 * sigma / s + 0.5))%Z.
Proof.
  pose proof grid_step_pos as Hs. pose proof grid_step_le as Hle.
  apply Zfloor_lub.
  assert (12 <= 3 * sigma / s).
  { apply Rmult_le_reg_r with s; [exact Hs|].
    unfold Rdiv. rewrite Rmult_assoc, Rinv_l by lra. lra. }
  lra.
Qed.

End CurrentGrid.

(* ------------------------------------------------------------------ *)
(** * [s_to_cur]: the histogram *)

Lemma update_nth_length {A} (i : nat) (f : A -> A) (l : list A) :
  length (update_nth i f l) = length l.
Proof.
  revert i; induction l as [|x l IH]; intros [|i]; simpl; try reflexivity.
  now rewrite IH.
Qed.

Lemma np_sum_update_nth (i : nat) (d : R) (l : list R) :
  (i < length l)%nat ->
  np_sum (update_nth i (fun c => c + d) l) = np_sum l + d.
Proof.
  revert i; induction l as [|x l IH]; intros i Hi; [simpl in Hi; lia|].
  destruct i as [|i]; cbn [update_nth]; rewrite !np_sum_cons.
  - lra.
  - rewrite IH by (simpl in Hi; lia). lra.
Qed.

Lemma Forall_update_nth (P : R -> Prop) (i : nat) (f : R -> R) (l : list R) :
  (forall x, P x -> P (f x)) -> Forall P l -> Forall P (update_nth i f l).
Proof.
  intros Hf Hl. revert i. induction Hl as [|x l Hx Hl IH]; intros [|i];
    cbn [update_nth]; constructor; auto.
Qed.

Lemma add_at_inside (C : list R) (k : Z) (d : R) :
  (0 <= k < Z.of_nat (length C))%Z ->
  add_at C k d = Ok (update_nth (Z.to_nat k) (fun c => c + d) C).
Proof.
  intros Hk. unfold add_at, norm_index.
  destruct (Z.ltb_spec k 0); [lia|].
  destruct (Z.ltb_spec k (Z.of_nat (length C))); [reflexivity | lia].
Qed.

Lemma deposit_inside (I : list Z) (xiA C : list R) :
  length xiA = length I ->
  Forall (fun i => 0 <= i /\ i + 1 < Z.of_nat (length C))%Z I ->
  Forall (fun xi => 0 <= xi <= 1) xiA ->
  Forall (Rle 0) C ->
  exists C',
    deposit (Z.of_nat (length C)) I xiA C = Ok C' /\
    length C' = length C /\
    Forall (Rle 0) C' /\
    np_sum C' = np_sum C + INR (length I).
Proof.
  revert xiA C. induction I as [|i I IH]; intros xiA C Hlen HI Hxi HC.
  - exists C. destruct xiA; cbn; repeat split; try assumption; lra.
  - destruct xiA as [|xi xiA]; [discriminate Hlen|].
    inversion HI as [|? ? [Hi0 Hi1] HI']; subst.
    inversion Hxi as [|? ? Hx Hxi']; subst.
    cbn [deposit].
    destruct (Z.gtb_spec i (Z.of_nat (length C) - 1)) as [Hbig|_]; [lia|].
    rewrite add_at_inside by lia. cbn [Py.bind].
    rewrite add_at_inside by (rewrite update_nth_length; lia). cbn [Py.bind].
    set (C2 := update_nth (Z.to_nat (i + 1)) (fun c => c + (1 - xi))
                 (update_nth (Z.to_nat (i + 0)) (fun c => c + xi) C)).
    assert (Hlen2 : length C2 = length C)
      by (unfold C2; now rewrite !update_nth_length).
    assert (Hpos2 : Forall (Rle 0) C2).
    { unfold C2. apply Forall_update_nth; [intros; lra|].
      apply Forall_update_nth; [intros; lra | exact HC]. }
    assert (Hsum2 : np_sum C2 = np_sum C + 1).
    { unfold C2. rewrite np_sum_update_nth by (rewrite update_nth_length; lia).
      rewrite np_sum_update_nth by lia. lra. }
    destruct (IH xiA C2) as (C' & Hrun & Hl & Hp & Hs).
    + simpl in Hlen. lia.
    + rewrite Hlen2. exact HI'.
    + exact Hxi'.
    + exact Hpos2.
    + exists C'. rewrite Hlen2 in Hrun. rewrite Hrun. repeat split.
      * congruence.
      * exact Hp.
      * rewrite Hs, Hsum2. cbn [length]. rewrite S_INR. lra.
Qed.

Lemma hat_weight (c : R) : 0 <= 1 + IZR (Zfloor c) - c <= 1.
Proof. destruct (Zfloor_bound c). lra. Qed.

Lemma hat_weights (cA : list R) :
  Forall (fun xi => 0 <= xi <= 1)
         (map2 (fun i c => 1 + IZR i - c) (map Zfloor cA) cA).
Proof.
  induction cA as [|c cA IH]; cbn [map map2]; constructor;
    [apply hat_weight | exact IH].
Qed.

(* ------------------------------------------------------------------ *)
(** * [s_to_cur]: the kernel and the convolution *)

Lemma np_sum_pos (l : list R) : l <> [] -> Forall (Rlt 0) l -> 0 < np_sum l.
Proof.
  intros Hne Hl. destruct Hl as [|x l Hx Hl]; [contradiction|].
  rewrite np_sum_cons.
  assert (0 <= np_sum l).
  { clear Hne Hx. induction Hl as [|y l Hy Hl IH];
      [rewrite np_sum_nil; lra | rewrite np_sum_cons; lra]. }
  lra.
Qed.

Lemma np_sum_nonneg (l : list R) : Forall (Rle 0) l -> 0 <= np_sum l.
Proof.
  induction 1 as [|y l Hy Hl IH]; [rewrite np_sum_nil; lra|].
  rewrite np_sum_cons. lra.
Qed.

Lemma normalised_positive (G : list R) :
  G <> [] -> Forall (Rlt 0) G ->
  Forall (Rlt 0) (map (fun g => g / np_sum G) G).
Proof.
  intros Hne HG. pose proof (np_sum_pos Hne HG) as Hs.
  apply Forall_map. eapply Forall_impl; [|exact HG].
  intros g Hg. cbn beta. apply Rdiv_lt_0_compat; assumption.
Qed.

Lemma Forall_nth_R (P : R -> Prop) (l : list R) (i : nat) :
  Forall P l -> (i < length l)%nat -> P (nth i l 0).
Proof.
  intros Hl Hi. rewrite Forall_forall in Hl. apply Hl. now apply nth_In.
Qed.

Lemma nth_nonneg (l : list R) (i : nat) : Forall (Rle 0) l -> 0 <= nth i l 0.
Proof.
  intros Hl. destruct (Nat.lt_ge_cases i (length l)) as [Hi|Hi].
  - now apply Forall_nth_R.
  - rewrite nth_overflow by exact Hi. lra.
Qed.

(** A sum of non-negative terms is at least any one of them. *)
Lemma np_sum_ge_term (f : nat -> R) (n k : nat) :
  (forall m, 0 <= f m) -> (k < n)%nat ->
  f k <= np_sum (map f (seq 0 n)).
Proof.
  intros Hf Hk. induction n as [|n IH]; [lia|].
  rewrite seq_S, map_app, np_sum_app. cbn [map Nat.add].
  rewrite np_sum_cons, np_sum_nil.
  assert (H0 : 0 <= np_sum (map f (seq 0 n))).
  { apply np_sum_nonneg. apply Forall_map. apply Forall_forall. intros; apply Hf. }
  destruct (Nat.eq_dec k n) as [->|Hne].
  - lra.
  - specialize (IH ltac:(lia)). pose proof (Hf n). lra.
Qed.

Lemma conv_at_ge_centre (C G : list R) (K k : nat) :
  Forall (Rle 0) C -> Forall (Rle 0) G -> (k < length C)%nat ->
  nth k C 0 * nth K G 0 <= conv_at C G (K + k).
Proof.
  intros HC HG Hk. unfold conv_at.
  set (f := fun m => if (m <=? K + k)%nat
                     then nth m C 0 * nth (K + k - m) G 0 else 0).
  assert (Hf : forall m, 0 <= f m).
  { intros m. unfold f. destruct (m <=? K + k)%nat; [|lra].
    apply Rmult_le_pos; apply nth_nonneg; assumption. }
  assert (Hfk : f k = nth k C 0 * nth K G 0).
  { unfold f. destruct (Nat.leb_spec k (K + k)); [|lia].
    replace (K + k - k)%nat with K by lia. reflexivity. }
  rewrite <- Hfk. apply np_sum_ge_term; assumption.
Qed.

Lemma np_sum_map_le (f g : nat -> R) (l : list nat) :
  (forall k, In k l -> g k <= f k) ->
  np_sum (map g l) <= np_sum (map f l).
Proof.
  induction l as [|k l IH]; intros H; cbn [map].
  - lra.
  - rewrite !np_sum_cons.
    pose proof (H k (or_introl eq_refl)).
    specialize (IH (fun j Hj => H j (or_intror Hj))). lra.
Qed.

Lemma np_sum_scale (c : R) (l : list R) :
  np_sum (map (fun h => c * h) l) = c * np_sum l.
Proof.
  induction l as [|x l IH]; cbn [map].
  - rewrite np_sum_nil. lra.
  - rewrite !np_sum_cons, IH. lra.
Qed.

Lemma map_nth_seq (l : list R) :
  map (fun k => nth k l 0) (seq 0 (length l)) = l.
Proof.
  apply nth_ext with (d := 0) (d' := 0).
  - now rewrite length_map, length_seq.
  - intros n Hn. rewrite length_map, length_seq in Hn.
    rewrite (nth_indep _ 0 ((fun k => nth k l 0) 0%nat))
      by (rewrite length_map, length_seq; exact Hn).
    rewrite (map_nth (fun k => nth k l 0)). now rewrite seq_nth.
Qed.

(** The part of the convolution that [convmode] keeps has at least the
    mass of the histogram times the centre weight of the kernel. *)
Lemma conv_window_mass (C G : list R) (K : nat) :
  Forall (Rle 0) C -> Forall (Rle 0) G ->
  np_sum C * nth K G 0
  <= np_sum (map (conv_at C G) (seq K (length C))).
Proof.
  intros HC HG.
  assert (Hseq : seq K (length C) = map (Nat.add K) (seq 0 (length C))).
  { clear. generalize (length C) as n. intros n. revert K.
    induction n as [|n IH]; intros K; [reflexivity|].
    cbn [seq map]. rewrite Nat.add_0_r. f_equal.
    rewrite IH, <- seq_shift, !map_map.
    apply map_ext. intros k. lia. }
  rewrite Hseq, map_map.
  apply Rle_trans
    with (np_sum (map (fun k => nth k C 0 * nth K G 0) (seq 0 (length C)))).
  - replace (map (fun k => nth k C 0 * nth K G 0) (seq 0 (length C)))
      with (map (fun h => nth K G 0 * h) (map (fun k => nth k C 0) (seq 0 (length C)))).
    + rewrite np_sum_scale, map_nth_seq. lra.
    + rewrite map_map. apply map_ext. intros k. lra.
  - apply np_sum_map_le. intros k Hk. apply in_seq in Hk.
    apply conv_at_ge_centre; [assumption | assumption | lia].
Qed.

Lemma firstn_seq_le (n start len : nat) :
  (n <= len)%nat -> firstn n (seq start len) = seq start n.
Proof.
  revert start len. induction n as [|n IH]; intros start len H; [reflexivity|].
  destruct len as [|len]; [lia|]. cbn [seq firstn]. f_equal. apply IH. lia.
Qed.

Lemma map_fst_combine_same {A B} (l1 : list A) (l2 : list B) :
  length l1 = length l2 -> map fst (combine l1 l2) = l1.
Proof.
  revert l2. induction l1 as [|x l1 IH]; intros [|y l2] H; cbn in *;
    try reflexivity; try discriminate.
  f_equal. apply IH. lia.
Qed.

Lemma map_snd_combine_same {A B} (l1 : list A) (l2 : list B) :
  length l1 = length l2 -> map snd (combine l1 l2) = l2.
Proof.
  revert l2. induction l1 as [|x l1 IH]; intros [|y l2] H; cbn in *;
    try reflexivity; try discriminate.
  f_equal. apply IH. lia.
Qed.

(** [convmode(C, G, 1)] for a kernel of odd length [2K + 1]: the middle
    [len(C)] entries of the full convolution. *)
Lemma convmode_same (C G : list R) (K : nat) :
  C <> [] -> length G = (2 * K + 1)%nat ->
  convmode C G 1 = Ok (map (conv_at C G) (seq K (length C))).
Proof.
  intros HC HG. unfold convmode. cbn [Z.eqb Pos.eqb Py.bind].
  assert (Hi : Z.to_nat (Zfloor (INR (length G) * 0.5)) = K).
  { rewrite HG. rewrite (Zfloor_eq (Z.of_nat K)); [apply Nat2Z.id|].
    rewrite plus_INR, mult_INR, <- INR_IZR_INZ. cbn [INR]. lra. }
  rewrite Hi. unfold np_convolve.
  destruct C as [|c C]; [contradiction|].
  destruct G as [|g G]; [cbn in HG; lia|].
  cbn [Py.bind]. f_equal.
  rewrite skipn_map, firstn_map, skipn_seq, firstn_seq_le by lia.
  cbn [skipn]. rewrite app_nil_r. reflexivity.
Qed.

(** C6.  For a non-empty sample and sigma > 0, [s_to_cur] returns a
    profile on the grid a + k*s, k = 0..N, whose bin heights times the
    bin width s sum to q0*v. *)
Theorem s_to_cur_integrates_to_charge (A : list R) (sigma q0 v : R) :
  A <> [] -> 0 < sigma ->
  let a := np_min A - 3 * sigma in
  let b := np_max A + 3 * sigma in
  let N := Zceil ((b - a) / (0.25 * sigma)) in
  let s := (b - a) / IZR N in
  exists B,
    s_to_cur A sigma q0 v = Ok B /\
    map fst B = map (fun k => a + INR k * s) (seq 0 (Z.to_nat (N + 1))) /\
    np_sum (map snd B) * s = q0 * v.
Proof.
  intros HA Hsigma a b N s.
  pose proof (grid_bins HA Hsigma) as HN. cbv zeta in HN. fold a b N in HN.
  pose proof (grid_step_pos HA Hsigma) as Hs. cbv zeta in Hs. fold a b N s in Hs.
  pose proof (grid_arange HA Hsigma) as Hgrid. cbv zeta in Hgrid.
  fold a b N s in Hgrid.
  pose proof (kernel_halfwidth HA Hsigma) as HK. cbv zeta in HK.
  fold a b N s in HK.
  set (rows := Z.to_nat (N + 1)).
  set (cA := map (fun x => (x - a) / s) A).
  set (K := Zfloor (3 * sigma / s + 0.5)) in *.
  unfold s_to_cur. cbv zeta.
  replace (match A with [] => Raise ValueError | _ :: _ => Ok tt end)
    with (@Ok unit tt) by (destruct A; [contradiction | reflexivity]).
  cbn [Py.bind]. fold a b.
  destruct (Req_dec_T (0.25 * sigma) 0) as [E|_]; [lra|]. cbn [Py.bind].
  fold N.
  destruct (Z.ltb_spec (N + 1) 0) as [H|_]; [lia|]. cbn [Py.bind].
  destruct (Z.eqb_spec N 0) as [H|_]; [lia|]. cbn [Py.bind].
  fold s. rewrite Hgrid. cbn [Py.bind]. fold rows.
  rewrite assign_slot_same by (rewrite !length_map, length_seq; reflexivity).
  cbn [Py.bind]. fold cA. fold K.
  (* the histogram *)
  destruct (@deposit_inside (map Zfloor cA)
              (map2 (fun i c => 1 + IZR i - c) (map Zfloor cA) cA)
              (repeat 0 rows))
    as (C & HC & HlenC & HposC & HsumC).
  { rewrite map2_length by (now rewrite length_map). now rewrite length_map. }
  { rewrite repeat_length. apply Forall_map. unfold cA. apply Forall_map.
    apply Forall_forall. intros x Hx.
    destruct (@particle_bin A sigma HA Hsigma x Hx) as [H1 H2].
    cbv zeta in H1, H2. fold a b N s in H1, H2. unfold rows. lia. }
  { apply hat_weights. }
  { apply Forall_forall. intros y Hy. apply repeat_spec in Hy. lra. }
  rewrite repeat_length in HC, HlenC. rewrite HC. cbn [Py.bind].
  (* the kernel *)
  set (G0 := map (fun k => exp (- 0.5 * (IZR k * s / sigma) ^ 2))
                 (Py.range (- K) (K + 1))).
  set (G := map (fun g => g / np_sum G0) G0).
  assert (HlenG0 : length G0 = (2 * Z.to_nat K + 1)%nat).
  { unfold G0. rewrite length_map, range_length. lia. }
  assert (HposG : Forall (Rlt 0) G).
  { unfold G. apply normalised_positive.
    - intros E. rewrite E in HlenG0. cbn in HlenG0. lia.
    - unfold G0. apply Forall_map. apply Forall_forall. intros; apply exp_pos. }
  assert (HlenG : length G = (2 * Z.to_nat K + 1)%nat)
    by (unfold G; rewrite length_map; exact HlenG0).
  assert (HneC : C <> []).
  { intros E. rewrite E in HlenC. unfold rows in HlenC. cbn in HlenC. lia. }
  rewrite (@convmode_same C G (Z.to_nat K) HneC HlenG). cbn [Py.bind].
  rewrite HlenC.
  rewrite assign_slot_same by (rewrite length_map, length_seq; reflexivity).
  cbn [Py.bind].
  set (B1 := map (conv_at C G) (seq (Z.to_nat K) rows)).
  (* the mass of the kept part of the convolution is positive *)
  assert (HS : 0 < np_sum B1).
  { assert (HG0 : Forall (Rle 0) G)
      by (eapply Forall_impl; [|exact HposG]; intros; lra).
    pose proof (@conv_window_mass C G (Z.to_nat K) HposC HG0) as Hmass.
    rewrite HlenC in Hmass. fold B1 in Hmass.
    assert (Hg : 0 < nth (Z.to_nat K) G 0)
      by (apply Forall_nth_R; [exact HposG | lia]).
    assert (HsumC' : 0 < np_sum C).
    { rewrite HsumC. replace (np_sum (repeat 0 rows)) with 0.
      - rewrite length_map. unfold cA. rewrite length_map.
        assert (0 < INR (length A)); [|lra].
        apply lt_0_INR. destruct A; [contradiction | cbn; lia].
      - clear. induction rows as [|r IH]; [reflexivity|].
        cbn [repeat]. rewrite np_sum_cons, <- IH. lra. }
    pose proof (Rmult_lt_0_compat _ _ HsumC' Hg). lra. }
  eexists. split; [reflexivity|]. split.
  - rewrite map_fst_combine_same
      by (unfold B1; rewrite !length_map, !length_seq; reflexivity).
    rewrite map_map. apply map_ext. intros k. lra.
  - rewrite map_snd_combine_same
      by (unfold B1; rewrite !length_map, !length_seq; reflexivity).
    rewrite np_sum_scale. field. lra.
Qed.

Lemma s_to_cur_integrates_to_charge_witness :
  let a := np_min [0; 1] - 3 * 1 in
  let b := np_max [0; 1] + 3 * 1 in
  let N := Zceil ((b - a) / (0.25 * 1)) in
  let s := (b - a) / IZR N in
  exists B,
    s_to_cur [0; 1] 1 2 5 = Ok B /\
    map fst B = map (fun k => a + INR k * s) (seq 0 (Z.to_nat (N + 1))) /\
    np_sum (map snd B) * s = 2 * 5.
Proof.
  apply (@s_to_cur_integrates_to_charge [0; 1] 1 2 5).
  - discriminate.
  - lra.
Defined.

(* ------------------------------------------------------------------ *)
(** * [m_from_twiss] *)

Lemma getitem_Ok_lt {A} (l : list A) (i : nat) :
  (i < length l)%nat -> exists a, getitem l i = Ok a /\ nth_error l i = Some a.
Proof.
  intros H. unfold getitem. destruct (nth_error l i) as [a|] eqn:E.
  - now exists a.
  - apply nth_error_None in E. lia.
Qed.

Lemma getitem_Raise_ge {A} (l : list A) (i : nat) :
  (length l <= i)%nat -> getitem l i = Raise IndexError.
Proof.
  intros H. unfold getitem.
  now rewrite (proj2 (nth_error_None l i) H).
Qed.

Lemma getitem_cases {A} (l : list A) (i : nat) :
  (exists a, getitem l i = Ok a /\ (i < length l)%nat) \/
  (getitem l i = Raise IndexError /\ (length l <= i)%nat).
Proof.
  destruct (Nat.lt_ge_cases i (length l)) as [H|H].
  - left. destruct (getitem_Ok_lt l H) as [a [Ha _]]. eauto.
  - right. split; [now apply getitem_Raise_ge | exact H].
Qed.

(** X3.  [m_from_twiss] raises IndexError whenever one of its two
    arguments has fewer than three entries, whatever the entries are
    (all six are read first); on arguments of at least three entries
    with positive betas it returns a matrix, the one of the first three
    entries of each argument: entries past the third are not read. *)
Theorem m_from_twiss_short_arguments :
  (forall Tw1 Tw2 : list R,
     (length Tw1 < 3 \/ length Tw2 < 3)%nat ->
     m_from_twiss Tw1 Tw2 = Raise IndexError) /\
  (forall a1 b1 p1 a2 b2 p2 rest1 rest2,
     0 < b1 -> 0 < b2 ->
     exists M,
       m_from_twiss (a1 :: b1 :: p1 :: rest1) (a2 :: b2 :: p2 :: rest2) = Ok M /\
       m_from_twiss [a1; b1; p1] [a2; b2; p2] = Ok M /\
       length M = 2%nat /\ Forall (fun row => length row = 2%nat) M).
Proof.
  split.
  - intros Tw1 Tw2 Hshort. unfold m_from_twiss.
    destruct Tw1 as [|a1 [|b1 [|p1 r1]]]; cbn [getitem nth_error Py.bind];
      try reflexivity.
    destruct Tw2 as [|a2 [|b2 [|p2 r2]]]; cbn [getitem nth_error Py.bind];
      try reflexivity.
    cbn [length] in Hshort. lia.
  - intros a1 b1 p1 a2 b2 p2 rest1 rest2 _ _.
    unfold m_from_twiss. cbn [getitem nth_error Py.bind].
    eexists. split; [reflexivity|]. split; [reflexivity|].
    split; [reflexivity|]. repeat constructor.
Qed.

Lemma m_from_twiss_entries (a1 b1 p1 a2 b2 p2 : R) :
  0 < b1 -> 0 < b2 ->
  m_from_twiss [a1; b1; p1] [a2; b2; p2]
  = Ok [[sqrt b2 / sqrt b1 * (cos (p2 - p1) + a1 * sin (p2 - p1));
         sqrt b2 * sqrt b1 * sin (p2 - p1)];
        [((a1 - a2) * cos (p2 - p1) - (1 + a1 * a2) * sin (p2 - p1))
         / (sqrt b2 * sqrt b1);
         sqrt b1 / sqrt b2 * (cos (p2 - p1) - a2 * sin (p2 - p1))]].
Proof.
  intros H1 H2. unfold m_from_twiss. cbn [getitem nth_error Py.bind].
  rewrite !sqrt_div by lra. rewrite !sqrt_mult by lra. reflexivity.
Qed.

Lemma sqrt_pos_sq (b : R) : 0 < b -> 0 < sqrt b /\ sqrt b * sqrt b = b.
Proof.
  intros H. split; [now apply sqrt_lt_R0 | apply sqrt_sqrt; lra].
Qed.

(** The algebra behind the two theorems that follow. *)
Lemma m_from_twiss_matching (a1 b1 p1 a2 b2 p2 : R) :
  0 < b1 -> 0 < b2 ->
  exists M,
    m_from_twiss [a1; b1; p1] [a2; b2; p2] = Ok M /\
    mat2_det M = 1 /\
    twiss_transport M a1 b1 = (a2, b2).
Proof.
  intros H1 H2. rewrite m_from_twiss_entries by assumption.
  eexists; split; [reflexivity|].
  unfold mat2_det, twiss_transport, entry. cbn [nth].
  destruct (sqrt_pos_sq H1) as [Hr1 Hs1]. destruct (sqrt_pos_sq H2) as [Hr2 Hs2].
  pose proof (sin2_cos2 (p2 - p1)) as Hsc. unfold Rsqr in Hsc.
  set (c := cos (p2 - p1)) in *. set (s := sin (p2 - p1)) in *.
  set (r1 := sqrt b1) in *. set (r2 := sqrt b2) in *.
  rewrite <- Hs1, <- Hs2. clearbody r1 r2 c s. clear Hs1 Hs2 H1 H2.
  split; [|f_equal].
  - match goal with
    | |- ?L = _ => transitivity (s * s + c * c); [field; lra | exact Hsc]
    end.
  - match goal with
    | |- ?L = _ => transitivity (a2 * (s * s + c * c)); [field; lra|]
    end.
    rewrite Hsc. lra.
  - match goal with
    | |- ?L = _ => transitivity (r2 * r2 * (s * s + c * c)); [field; lra|]
    end.
    rewrite Hsc. lra.
Qed.

(** X4.  For positive beta functions the matrix [m_from_twiss] builds
    has determinant 1, whatever the alphas and the phase advance. *)
Theorem m_from_twiss_unit_determinant (a1 b1 p1 a2 b2 p2 : R) :
  0 < b1 -> 0 < b2 ->
  exists M, m_from_twiss [a1; b1; p1] [a2; b2; p2] = Ok M /\ mat2_det M = 1.
Proof.
  intros H1 H2.
  destruct (m_from_twiss_matching a1 p1 a2 p2 H1 H2) as (M & HM & Hdet & _).
  exists M. split; assumption.
Qed.

Lemma m_from_twiss_unit_determinant_witness :
  exists M, m_from_twiss [1; 2; 0] [0; 3; 1] = Ok M /\ mat2_det M = 1.
Proof.
  apply (@m_from_twiss_unit_determinant 1 2 0 0 3 1); lra.
Defined.

(** X5.  The matrix of [m_from_twiss(Tw1, Tw2)] carries the Twiss
    parameters (alpha1, beta1) to (alpha2, beta2): it is a matching
    matrix between the two optics. *)
Theorem m_from_twiss_transports_twiss (a1 b1 p1 a2 b2 p2 : R) :
  0 < b1 -> 0 < b2 ->
  exists M,
    m_from_twiss [a1; b1; p1] [a2; b2; p2] = Ok M /\
    twiss_transport M a1 b1 = (a2, b2).
Proof.
  intros H1 H2.
  destruct (m_from_twiss_matching a1 p1 a2 p2 H1 H2) as (M & HM & _ & Htr).
  exists M. split; assumption.
Qed.

Lemma m_from_twiss_transports_twiss_witness :
  exists M,
    m_from_twiss [1; 2; 0] [0; 3; 1] = Ok M /\
    twiss_transport M 1 2 = (0, 3).
Proof.
  apply (@m_from_twiss_transports_twiss 1 2 0 0 3 1); lra.
Defined.

(** Splits an equation between two 2 x 2 matrices into its four entries. *)
Ltac mat2_eq :=
  apply f_equal2;
  [ apply f_equal2; [|apply f_equal2; [|reflexivity]]
  | apply f_equal2;
    [ apply f_equal2; [|apply f_equal2; [|reflexivity]] | reflexivity ] ].

(** X6.  Matching matrices compose: for positive beta functions,
    [m_from_twiss(Tw2, Tw3) @ m_from_twiss(Tw1, Tw2)] is
    [m_from_twiss(Tw1, Tw3)], and [m_from_twiss(Tw, Tw)] is the identity
    matrix. *)
Theorem m_from_twiss_composes (a1 b1 p1 a2 b2 p2 a3 b3 p3 : R) :
  0 < b1 -> 0 < b2 -> 0 < b3 ->
  exists M12 M23 M13,
    m_from_twiss [a1; b1; p1] [a2; b2; p2] = Ok M12 /\
    m_from_twiss [a2; b2; p2] [a3; b3; p3] = Ok M23 /\
    m_from_twiss [a1; b1; p1] [a3; b3; p3] = Ok M13 /\
    mat2_mul M23 M12 = M13 /\
    m_from_twiss [a1; b1; p1] [a1; b1; p1] = Ok [[1; 0]; [0; 1]].
Proof.
  intros H1 H2 H3. rewrite !m_from_twiss_entries by assumption.
  do 3 eexists. split; [reflexivity|]. split; [reflexivity|].
  split; [reflexivity|].
  destruct (sqrt_pos_sq H1) as [Hr1 Hs1]. destruct (sqrt_pos_sq H2) as [Hr2 Hs2].
  destruct (sqrt_pos_sq H3) as [Hr3 Hs3].
  split.
  - unfold mat2_mul, entry. cbn [nth].
    replace (p3 - p1) with ((p3 - p2) + (p2 - p1)) by lra.
    rewrite cos_plus, sin_plus.
    set (c := cos (p2 - p1)). set (s := sin (p2 - p1)).
    set (c' := cos (p3 - p2)). set (s' := sin (p3 - p2)).
    set (r1 := sqrt b1) in *. set (r2 := sqrt b2) in *. set (r3 := sqrt b3) in *.
    mat2_eq; field; lra.
  - replace (p1 - p1) with 0 by lra. rewrite cos_0, sin_0.
    apply f_equal. mat2_eq; field; lra.
Qed.

Lemma m_from_twiss_composes_witness :
  exists M12 M23 M13,
    m_from_twiss [1; 2; 0] [0; 3; 1] = Ok M12 /\
    m_from_twiss [0; 3; 1] [2; 1; 3] = Ok M23 /\
    m_from_twiss [1; 2; 0] [2; 1; 3] = Ok M13 /\
    mat2_mul M23 M12 = M13 /\
    m_from_twiss [1; 2; 0] [1; 2; 0] = Ok [[1; 0]; [0; 1]].
Proof.
  apply (@m_from_twiss_composes 1 2 0 0 3 1 2 1 3); lra.
Defined.

(* ------------------------------------------------------------------ *)
(** * [moments]: when it raises, and the sign of the radicand *)

Lemma np_broadcast2_raises {A B C} (f : A -> B -> C) (a : list A) (b : list B) :
  np_broadcast2 f a b = Raise ValueError <->
  (length a <> length b /\ length a <> 1 /\ length b <> 1)%nat.
Proof.
  unfold np_broadcast2.
  destruct (Nat.eqb_spec (length a) (length b)) as [E|E].
  - split; [discriminate | intros [H _]; contradiction].
  - destruct a as [|a0 [|a1 a]]; destruct b as [|b0 [|b1 b]]; cbn [length] in *;
      split; try discriminate; try (intros _; repeat split; lia);
      try (intros (_ & H1 & H2); lia); try reflexivity.
Qed.

Lemma np_broadcast2_Ok_or_ValueError {A B C} (f : A -> B -> C) a b :
  (exists l, np_broadcast2 f a b = Ok l) \/ np_broadcast2 f a b = Raise ValueError.
Proof.
  unfold np_broadcast2. destruct (length a =? length b)%nat; [eauto|].
  destruct a as [|a0 [|a1 a]]; destruct b as [|b0 [|b1 b]]; eauto.
Qed.

(** X7.  In either arithmetic, [moments] raises ValueError exactly when
    the two arrays have different lengths and neither has length 1 (a
    length-1 array is broadcast); it raises nothing else. *)
Theorem moments_raises_iff_not_broadcastable
        {F : Type} (O : NpFloat.ops F) (x y : list F) :
  (moments O x y = Raise ValueError <->
   (length x <> length y /\ length x <> 1 /\ length y <> 1)%nat) /\
  (forall e, moments O x y = Raise e -> e = ValueError).
Proof.
  unfold moments.
  set (x' := map (fun v => NpFloat.sub O v (NpFloat.mean O x)) x).
  set (y' := map (fun v => NpFloat.sub O v (NpFloat.mean O y)) y).
  assert (Hx : length x' = length x) by (unfold x'; apply length_map).
  assert (Hy : length y' = length y) by (unfold y'; apply length_map).
  rewrite <- Hx, <- Hy.
  rewrite !np_broadcast2_same by reflexivity. cbn [Py.bind].
  pose proof (np_broadcast2_raises (NpFloat.mul O) x' y') as Hr.
  destruct (np_broadcast2_Ok_or_ValueError (NpFloat.mul O) x' y') as [[l Hl]|Hl];
    rewrite Hl in *; cbn [Py.bind].
  - split.
    + split; [discriminate|]. intros H. apply Hr in H. discriminate H.
    + intros e H. discriminate H.
  - split.
    + split; [intros _; now apply Hr | reflexivity].
    + intros e H. injection H as <-. reflexivity.
Qed.

(** Sums of products of centred pairs. *)
Lemma np_sum_map_sq_nonneg (m : R) (x : list R) :
  0 <= np_sum (map (fun v => (v - m) * (v - m)) x).
Proof.
  apply np_sum_nonneg. apply Forall_map. apply Forall_forall.
  intros v _. cbn beta. apply (Rle_0_sqr (v - m)).
Qed.

(** The quadratic [A t^2 + 2 C t + B] of a sample is a sum of squares. *)
Lemma quadratic_sum_nonneg (mx my t : R) (x y : list R) :
  length x = length y ->
  0 <= np_sum (map (fun v => (v - mx) * (v - mx)) x) * t * t
       + 2 * np_sum (map2 (fun a b => (a - mx) * (b - my)) x y) * t
       + np_sum (map (fun v => (v - my) * (v - my)) y).
Proof.
  revert y. induction x as [|a x IH]; intros [|b y] Hlen; try discriminate Hlen.
  - cbn [map map2]. rewrite np_sum_nil. lra.
  - cbn [map map2]. rewrite !np_sum_cons.
    specialize (IH y ltac:(simpl in Hlen; lia)).
    pose proof (Rle_0_sqr ((a - mx) * t + (b - my))) as Hsq. unfold Rsqr in Hsq.
    lra.
Qed.

Lemma discriminant_nonpos (A B C : R) :
  0 <= A -> (forall t, 0 <= A * t * t + 2 * C * t + B) -> C * C <= A * B.
Proof.
  intros HA H. destruct (Req_dec_T A 0) as [E|E].
  - subst A.
    assert (C = 0).
    { destruct (Req_dec_T C 0) as [|HC]; [assumption|].
      specialize (H (- (B + 1) / (2 * C))).
      replace (0 * (- (B + 1) / (2 * C)) * (- (B + 1) / (2 * C))
               + 2 * C * (- (B + 1) / (2 * C)) + B) with (-1) in H by (field; lra).
      lra. }
    subst C. lra.
  - specialize (H (- C / A)).
    replace (A * (- C / A) * (- C / A) + 2 * C * (- C / A) + B)
      with ((A * B - C * C) / A) in H by (field; lra).
    assert (HApos : 0 < A) by lra.
    apply Rmult_le_compat_r with (r := A) in H; [|lra].
    replace ((A * B - C * C) / A * A) with (A * B - C * C) in H by (field; lra).
    lra.
Qed.

(** Cauchy-Schwarz for the centred moments of two samples of one length. *)
Lemma centered_cauchy_schwarz (x y : list R) :
  length x = length y ->
  0 <= centered_var x /\ 0 <= centered_var y /\
  centered_cov x y * centered_cov x y <= centered_var x * centered_var y.
Proof.
  intros Hlen. unfold centered_var, centered_cov, np_mean.
  rewrite !length_map, map2_length by exact Hlen. rewrite <- Hlen.
  set (mx := np_sum x / INR (length x)). set (my := np_sum y / INR (length x)).
  pose proof (np_sum_map_sq_nonneg mx x) as HA.
  pose proof (np_sum_map_sq_nonneg my y) as HB.
  pose proof (@discriminant_nonpos _ _ _ HA
                (fun t => @quadratic_sum_nonneg mx my t x y Hlen)) as HC.
  set (A := np_sum (map (fun v => (v - mx) * (v - mx)) x)) in *.
  set (B := np_sum (map (fun v => (v - my) * (v - my)) y)) in *.
  set (C := np_sum (map2 (fun a b => (a - mx) * (b - my)) x y)) in *.
  destruct (Nat.eq_dec (length x) 0) as [E|E].
  - rewrite E. cbn [INR]. unfold Rdiv. rewrite Rinv_0. lra.
  - assert (Hn : 0 < INR (length x)) by (apply lt_0_INR; lia).
    assert (Hi : 0 < / INR (length x)) by (now apply Rinv_0_lt_compat).
    unfold Rdiv. repeat split; nra.
Qed.



(* ------------------------------------------------------------------ *)
(** * [BeamTransform.beam_matching]: the optics after matching *)

Lemma select_map2 (f : R -> bool) (g : R -> R -> R) (keys u us : list R) :
  length u = length keys -> length us = length keys ->
  select f keys (map2 g u us) = map2 g (select f keys u) (select f keys us).
Proof.
  revert u us. induction keys as [|k ks IH]; intros u us Hu Hus.
  - destruct u; destruct us; reflexivity.
  - destruct u as [|a u]; [discriminate Hu|].
    destruct us as [|b us]; [discriminate Hus|].
    cbn [map2 select]. destruct (f k); cbn [map2];
      rewrite IH by (simpl in Hu, Hus; lia); reflexivity.
Qed.

Lemma map_map2 {A B C D} (h : C -> D) (f : A -> B -> C) (l1 : list A) (l2 : list B) :
  map h (map2 f l1 l2) = map2 (fun a b => h (f a b)) l1 l2.
Proof.
  revert l2. induction l1 as [|a l1 IH]; intros [|b l2]; cbn [map2 map];
    try reflexivity.
  now rewrite IH.
Qed.

Lemma map2_map2_same {A B C D E} (g : C -> D -> E) (f1 : A -> B -> C)
      (f2 : A -> B -> D) (l1 : list A) (l2 : list B) :
  map2 g (map2 f1 l1 l2) (map2 f2 l1 l2) = map2 (fun a b => g (f1 a b) (f2 a b)) l1 l2.
Proof.
  revert l2. induction l1 as [|a l1 IH]; intros [|b l2]; cbn [map2];
    try reflexivity.
  now rewrite IH.
Qed.

Lemma np_sum_map2_linear (c d : R) (u us : list R) :
  length u = length us ->
  np_sum (map2 (fun a b => c * a + d * b) u us) = c * np_sum u + d * np_sum us.
Proof.
  revert us. induction u as [|a u IH]; intros [|b us] Hlen; try discriminate Hlen.
  - cbn [map2]. rewrite np_sum_nil. lra.
  - cbn [map2]. rewrite !np_sum_cons, IH by (simpl in Hlen; lia). lra.
Qed.

Lemma np_sum_bilinear (mu mus c d e f : R) (u us : list R) :
  length u = length us ->
  np_sum (map2 (fun a b => (c * a + d * b - (c * mu + d * mus))
                           * (e * a + f * b - (e * mu + f * mus))) u us)
  = c * e * np_sum (map (fun v => (v - mu) * (v - mu)) u)
    + (c * f + d * e) * np_sum (map2 (fun a b => (a - mu) * (b - mus)) u us)
    + d * f * np_sum (map (fun v => (v - mus) * (v - mus)) us).
Proof.
  revert us. induction u as [|a u IH]; intros [|b us] Hlen; try discriminate Hlen.
  - cbn [map2 map]. rewrite np_sum_nil. lra.
  - cbn [map2 map]. rewrite !np_sum_cons, IH by (simpl in Hlen; lia). lra.
Qed.

Lemma centered_var_is_cov (x : list R) : centered_var x = centered_cov x x.
Proof. unfold centered_var, centered_cov. now rewrite map2_diag. Qed.

Lemma centered_cov_raw (x y : list R) :
  length x = length y ->
  centered_cov x y
  = np_sum (map2 (fun a b => (a - np_mean x) * (b - np_mean y)) x y) / INR (length x).
Proof.
  intros Hlen. unfold centered_cov. unfold np_mean at 1.
  now rewrite map2_length.
Qed.

Lemma centered_var_raw (x : list R) :
  centered_var x
  = np_sum (map (fun v => (v - np_mean x) * (v - np_mean x)) x) / INR (length x).
Proof.
  unfold centered_var. unfold np_mean at 1. now rewrite length_map.
Qed.

Lemma np_mean_map2_linear (c d : R) (u us : list R) :
  length u = length us ->
  np_mean (map2 (fun a b => c * a + d * b) u us) = c * np_mean u + d * np_mean us.
Proof.
  intros Hlen. unfold np_mean. rewrite map2_length by exact Hlen.
  rewrite np_sum_map2_linear by exact Hlen. rewrite <- Hlen. unfold Rdiv. lra.
Qed.

(** The centred covariance of two linear combinations of a sample of
    pairs. *)
Lemma centered_cov_linear (c d e f : R) (u us : list R) :
  length u = length us ->
  centered_cov (map2 (fun a b => c * a + d * b) u us)
               (map2 (fun a b => e * a + f * b) u us)
  = c * e * centered_var u + (c * f + d * e) * centered_cov u us
    + d * f * centered_var us.
Proof.
  intros Hlen.
  rewrite (centered_var_raw u), (centered_var_raw us), (@centered_cov_raw u us Hlen).
  rewrite <- Hlen.
  set (SA := np_sum (map (fun v => (v - np_mean u) * (v - np_mean u)) u)).
  set (SB := np_sum (map (fun v => (v - np_mean us) * (v - np_mean us)) us)).
  set (SAB := np_sum (map2 (fun a b => (a - np_mean u) * (b - np_mean us)) u us)).
  rewrite centered_cov_raw by (rewrite !map2_length by exact Hlen; reflexivity).
  rewrite !np_mean_map2_linear by exact Hlen.
  rewrite map2_map2_same, map2_length by exact Hlen.
  rewrite (@np_sum_bilinear (np_mean u) (np_mean us) c d e f u us Hlen).
  fold SA SB SAB. unfold Rdiv. lra.
Qed.

(** The centred second moments of the image of a sample of pairs under
    a linear map. *)
Lemma linear_image_moments (c d e f : R) (u us : list R) :
  length u = length us ->
  let u' := map2 (fun a b => c * a + d * b) u us in
  let us' := map2 (fun a b => e * a + f * b) u us in
  centered_var u'
  = c * c * centered_var u + 2 * c * d * centered_cov u us + d * d * centered_var us /\
  centered_cov u' us'
  = c * e * centered_var u + (c * f + d * e) * centered_cov u us
    + d * f * centered_var us /\
  centered_var us'
  = e * e * centered_var u + 2 * e * f * centered_cov u us + f * f * centered_var us.
Proof.
  intros Hlen u' us'. unfold u', us'.
  rewrite (centered_var_is_cov (map2 (fun a b => c * a + d * b) u us)).
  rewrite (centered_var_is_cov (map2 (fun a b => e * a + f * b) u us)).
  rewrite !centered_cov_linear by exact Hlen.
  repeat split; lra.
Qed.

(** One plane: a matrix of determinant 1 that transports the measured
    Twiss parameters of a sample to (a2, b2) leaves the sample with the
    measured parameters (a2, b2) and with the emittance it had. *)
Lemma measured_twiss_after_matching (M : list (list R)) (u us : list R) (a2 b2 : R) :
  length u = length us ->
  let V := centered_var u in
  let C := centered_cov u us in
  let W := centered_var us in
  0 < V * W - C * C ->
  mat2_det M = 1 ->
  twiss_transport M (- C / sqrt (V * W - C * C)) (V / sqrt (V * W - C * C)) = (a2, b2) ->
  let u' := fst (apply_matrix M u us) in
  let us' := snd (apply_matrix M u us) in
  measured_twiss u' us' = [a2; b2; 0] /\
  centered_var u' * centered_var us' - centered_cov u' us' * centered_cov u' us'
  = V * W - C * C.
Proof.
  intros Hlen V C W Hpos Hdet Htr u' us'.
  destruct (centered_cauchy_schwarz u us Hlen) as (HV0 & HW0 & _).
  fold V W in HV0, HW0.
  unfold u', us', apply_matrix. cbn [fst snd].
  unfold mat2_det, twiss_transport, entry in Hdet, Htr.
  set (m00 := nth 0 (nth 0 M []) 0) in *. set (m01 := nth 1 (nth 0 M []) 0) in *.
  set (m10 := nth 0 (nth 1 M []) 0) in *. set (m11 := nth 1 (nth 1 M []) 0) in *.
  destruct (@linear_image_moments m00 m01 m10 m11 u us Hlen) as (HV & HC & HW).
  cbv zeta in HV, HC, HW. fold V C W in HV, HC, HW.
  assert (Hrad :
    centered_var (map2 (fun a b => m00 * a + m01 * b) u us)
    * centered_var (map2 (fun a b => m10 * a + m11 * b) u us)
    - centered_cov (map2 (fun a b => m00 * a + m01 * b) u us)
                   (map2 (fun a b => m10 * a + m11 * b) u us)
      * centered_cov (map2 (fun a b => m00 * a + m01 * b) u us)
                     (map2 (fun a b => m10 * a + m11 * b) u us)
    = V * W - C * C).
  { rewrite HV, HC, HW.
    transitivity ((m00 * m11 - m01 * m10) * (m00 * m11 - m01 * m10) * (V * W - C * C));
      [ring|]. rewrite Hdet. ring. }
  split; [|exact Hrad].
  unfold measured_twiss. rewrite Hrad, HV, HC.
  set (e := sqrt (V * W - C * C)) in *.
  assert (He : 0 < e) by (apply sqrt_lt_R0; exact Hpos).
  assert (Hee : e * e = V * W - C * C) by (apply sqrt_sqrt; lra).
  assert (HVpos : 0 < V) by nra.
  assert (HWeq : W = (e * e + C * C) / V) by (rewrite Hee; field; lra).
  injection Htr as Ha Hb.
  clearbody m00 m01 m10 m11 e V C W. subst W.
  rewrite <- Ha, <- Hb.
  apply f_equal2; [field; lra|]. apply f_equal2; [field; lra | reflexivity].
Qed.

Lemma measured_twiss_sample (u us : list R) :
  measured_twiss u us
  = [- centered_cov u us
       / sqrt (centered_var u * centered_var us - centered_cov u us * centered_cov u us);
     centered_var u
       / sqrt (centered_var u * centered_var us - centered_cov u us * centered_cov u us);
     0].
Proof. reflexivity. Qed.

(** What the method returns on a 6 x N array. *)
Lemma method_beam_matching_run
      (x px y py tau p : list R) (b0 b1 : R) (x_opt y_opt : list R)
      (inside : R -> bool) (Mx My : list (list R)) :
  length px = length x -> length y = length x -> length py = length x ->
  length tau = length x -> length p = length x ->
  inside = (fun t => Rleb (np_mean tau + np_std tau * b0) t
                     && Rleb t (np_mean tau + np_std tau * b1)) ->
  match_plane (argwhere inside tau) x px x_opt = Ok (apply_matrix Mx x px) ->
  match_plane (argwhere inside tau) y py y_opt = Ok (apply_matrix My y py) ->
  BeamTransform.beam_matching [x; px; y; py; tau; p] [b0; b1] x_opt y_opt
  = Ok [fst (apply_matrix Mx x px); snd (apply_matrix Mx x px);
        fst (apply_matrix My y py); snd (apply_matrix My y py); tau; p].
Proof.
  intros Hpx Hy Hpy Htau Hp Hin Hplx Hply.
  unfold BeamTransform.beam_matching, beam_matching_body.
  assert (Hsize : (fold_right (fun r n => length r + n) 0 [x; px; y; py; tau; p] / 6
                   = length x)%nat).
  { cbn [fold_right]. rewrite Hpx, Hy, Hpy, Htau, Hp.
    replace (length x + (length x + (length x + (length x + (length x + (length x + 0))))))%nat
      with (length x * 6)%nat by lia.
    apply Nat.div_mul. discriminate. }
  rewrite Hsize. cbn [getitem nth_error Py.bind].
  rewrite !assign_slot_same by congruence. cbn [Py.bind].
  rewrite <- Hin.
  rewrite Hplx. cbn [Py.bind].
  unfold apply_matrix at 1 2.
  rewrite !assign_slot_same by (rewrite map2_length; congruence).
  cbn [Py.bind]. rewrite Hply. cbn [Py.bind].
  unfold apply_matrix at 1 2.
  rewrite !assign_slot_same by (rewrite map2_length; congruence).
  reflexivity.
Qed.

(** One plane of the method, with the optics it reaches. *)
Lemma match_plane_reaches_target (inside : R -> bool) (keys u us : list R)
      (a2 b2 mu2 : R) :
  length u = length keys -> length us = length keys ->
  let su := select inside keys u in
  let sus := select inside keys us in
  0 < centered_var su * centered_var sus - centered_cov su sus * centered_cov su sus ->
  0 < b2 ->
  exists M,
    match_plane (argwhere inside keys) u us [a2; b2; mu2] = Ok (apply_matrix M u us) /\
    let su' := select inside keys (fst (apply_matrix M u us)) in
    let sus' := select inside keys (snd (apply_matrix M u us)) in
    measured_twiss su' sus' = [a2; b2; 0] /\
    centered_var su' * centered_var sus' - centered_cov su' sus' * centered_cov su' sus'
    = centered_var su * centered_var sus - centered_cov su sus * centered_cov su sus.
Proof.
  intros Hu Hus su sus Hpos Hb2.
  destruct (@match_plane_applies inside keys u us [a2; b2; mu2] a2 b2 mu2 Hu Hus eq_refl)
    as (M & HM & Hrun).
  fold su sus in HM. rewrite measured_twiss_sample in HM.
  assert (Hlen : length su = length sus)
    by (unfold su, sus; rewrite !select_length by assumption; reflexivity).
  destruct (centered_cauchy_schwarz su sus Hlen) as (HV0 & HW0 & _).
  set (V := centered_var su) in *. set (C := centered_cov su sus) in *.
  set (W := centered_var sus) in *.
  assert (He : 0 < sqrt (V * W - C * C)) by (apply sqrt_lt_R0; exact Hpos).
  assert (HVpos : 0 < V) by nra.
  assert (Hb1 : 0 < V / sqrt (V * W - C * C)) by (apply Rdiv_lt_0_compat; assumption).
  destruct (m_from_twiss_matching (- C / sqrt (V * W - C * C)) 0 a2 mu2 Hb1 Hb2)
    as (M' & HM' & Hdet & Htr).
  rewrite HM in HM'. injection HM' as <-.
  exists M. split; [exact Hrun|].
  cbv zeta. unfold apply_matrix. cbn [fst snd].
  rewrite !select_map2 by assumption. fold su sus.
  exact (@measured_twiss_after_matching M su sus a2 b2 Hlen Hpos Hdet Htr).
Qed.

(** X9.  After [BeamTransform.beam_matching] on a 6 x N array the
    particles inside the selection window have, in each transverse
    plane, exactly the target alpha and beta of [x_opt] and [y_opt] when
    measured the way the method measures them, and the emittance they
    had before; this needs a positive measured emittance in each plane
    and positive target betas. *)
Theorem method_beam_matching_reaches_target
        (x px y py tau p : list R) (b0 b1 ax bx mux ay bY muy : R) :
  length px = length x -> length y = length x -> length py = length x ->
  length tau = length x -> length p = length x ->
  let inside := fun t => Rleb (np_mean tau + np_std tau * b0) t
                         && Rleb t (np_mean tau + np_std tau * b1) in
  let emit2 := fun u us =>
    centered_var (select inside tau u) * centered_var (select inside tau us)
    - centered_cov (select inside tau u) (select inside tau us)
      * centered_cov (select inside tau u) (select inside tau us) in
  0 < emit2 x px -> 0 < emit2 y py -> 0 < bx -> 0 < bY ->
  exists x' px' y' py',
    BeamTransform.beam_matching [x; px; y; py; tau; p] [b0; b1]
                                [ax; bx; mux] [ay; bY; muy]
    = Ok [x'; px'; y'; py'; tau; p] /\
    measured_twiss (select inside tau x') (select inside tau px') = [ax; bx; 0] /\
    measured_twiss (select inside tau y') (select inside tau py') = [ay; bY; 0] /\
    emit2 x' px' = emit2 x px /\
    emit2 y' py' = emit2 y py.
Proof.
  intros Hpx Hy Hpy Htau Hp inside emit2 Hex Hey Hbx HbY.
  destruct (@match_plane_reaches_target inside tau x px ax bx mux)
    as (Mx & Hrx & Htx & Hemx); try congruence; try assumption.
  destruct (@match_plane_reaches_target inside tau y py ay bY muy)
    as (My & Hry & Hty & Hemy); try congruence; try assumption.
  exists (fst (apply_matrix Mx x px)), (snd (apply_matrix Mx x px)),
         (fst (apply_matrix My y py)), (snd (apply_matrix My y py)).
  split.
  - apply (@method_beam_matching_run x px y py tau p b0 b1 _ _ inside Mx My);
      try assumption; reflexivity.
  - repeat split; assumption.
Qed.

Lemma method_beam_matching_reaches_target_witness :
  let tau := [0; 2; 1; 1; 1] in
  let inside := fun t => Rleb (np_mean tau + np_std tau * 0) t
                         && Rleb t (np_mean tau + np_std tau * 0) in
  exists x' px' y' py',
    BeamTransform.beam_matching
      [[7; 7; 0; 1; 0]; [7; 7; 0; 0; 1]; [7; 7; 1; 0; 0]; [7; 7; 0; 1; 0]; tau;
       [0; 0; 0; 0; 0]]
      [0; 0] [1; 2; 0] [0; 3; 0]
    = Ok [x'; px'; y'; py'; tau; [0; 0; 0; 0; 0]] /\
    measured_twiss (select inside tau x') (select inside tau px') = [1; 2; 0] /\
    measured_twiss (select inside tau y') (select inside tau py') = [0; 3; 0].
Proof.
  intros tau inside.
  assert (Hm : np_mean tau = 1) by (unfold tau; reval; lra).
  assert (Hin : forall t, inside t = Rleb 1 t && Rleb t 1).
  { intros t. unfold inside. rewrite Hm, Rmult_0_r, Rplus_0_r. reflexivity. }
  assert (H0 : inside 0 = false).
  { rewrite Hin. rewrite (proj2 (Rleb_false 1 0)) by lra. reflexivity. }
  assert (H2 : inside 2 = false).
  { rewrite Hin. rewrite (proj2 (Rleb_false 2 1)) by lra. apply andb_false_r. }
  assert (H1 : inside 1 = true).
  { rewrite Hin. rewrite (proj2 (Rleb_true 1 1)) by lra. reflexivity. }
  assert (Hsel : forall a b c d e, select inside tau [a; b; c; d; e] = [c; d; e]).
  { intros a b c d e. unfold tau. cbn [select]. rewrite H0, H2, H1. reflexivity. }
  destruct (@method_beam_matching_reaches_target
              [7; 7; 0; 1; 0] [7; 7; 0; 0; 1] [7; 7; 1; 0; 0] [7; 7; 0; 1; 0] tau
              [0; 0; 0; 0; 0]
              0 0 1 2 0 0 3 0 eq_refl eq_refl eq_refl eq_refl eq_refl)
    as (x' & px' & y' & py' & Hrun & Hx & Hy & _).
  - fold inside. rewrite !Hsel. reval. lra.
  - fold inside. rewrite !Hsel. reval. lra.
  - lra.
  - lra.
  - exists x', px', y', py'. repeat split; assumption.
Defined.

(* ------------------------------------------------------------------ *)
(** * [rm_tails]: the particles that stay *)

Lemma argwhere_from_In {A} (f : A -> bool) (d : A) (l : list A) (k i : nat) :
  In i (argwhere_from k f l) <->
  (k <= i < k + length l)%nat /\ f (nth (i - k) l d) = true.
Proof.
  revert k. induction l as [|a l IH]; intros k.
  - cbn. split; [intros [] | intros [H _]; lia].
  - cbn [argwhere_from length].
    assert (Hrec : In i (argwhere_from (S k) f l) <->
                   (S k <= i < S k + length l)%nat /\ f (nth (i - S k) l d) = true)
      by apply IH.
    assert (Hnth : (S k <= i)%nat -> nth (i - k) (a :: l) d = nth (i - S k) l d).
    { intros H. replace (i - k)%nat with (S (i - S k)) by lia. reflexivity. }
    destruct (f a) eqn:Ea.
    + cbn [In]. rewrite Hrec. split.
      * intros [<-|[Hb Hf]].
        -- split; [lia|]. rewrite Nat.sub_diag. exact Ea.
        -- split; [lia|]. rewrite Hnth by lia. exact Hf.
      * intros [Hb Hf]. destruct (Nat.eq_dec k i) as [E|E]; [now left|].
        right. split; [lia|]. rewrite <- Hnth by lia. exact Hf.
    + rewrite Hrec. split.
      * intros [Hb Hf]. split; [lia|]. rewrite Hnth by lia. exact Hf.
      * intros [Hb Hf]. destruct (Nat.eq_dec k i) as [E|E].
        -- subst i. rewrite Nat.sub_diag in Hf. cbn in Hf. congruence.
        -- split; [lia|]. rewrite <- Hnth by lia. exact Hf.
Qed.

Lemma argwhere_In {A} (f : A -> bool) (d : A) (l : list A) (i : nat) :
  In i (argwhere f l) <-> (i < length l)%nat /\ f (nth i l d) = true.
Proof.
  unfold argwhere. rewrite (argwhere_from_In f d l 0 i).
  rewrite Nat.sub_0_r. intuition lia.
Qed.

Lemma argwhere_never {A} (f : A -> bool) (l : list A) :
  (forall a, In a l -> f a = false) -> argwhere f l = [].
Proof.
  unfold argwhere. generalize 0%nat as k.
  induction l as [|a l IH]; intros k H; [reflexivity|].
  cbn [argwhere_from]. rewrite (H a (or_introl eq_refl)).
  apply IH. intros b Hb. apply H. now right.
Qed.

Lemma delete_from_pick (k : nat) (idxs : list nat) (l : list R) :
  delete_from k idxs l
  = map (fun i => nth (i - k) l 0)
        (filter (fun i => negb (existsb (Nat.eqb i) idxs)) (seq k (length l))).
Proof.
  revert k. induction l as [|a l IH]; intros k; [reflexivity|].
  cbn [delete_from length seq filter].
  assert (Hshift :
    map (fun i => nth (i - k) (a :: l) 0)
        (filter (fun i => negb (existsb (Nat.eqb i) idxs)) (seq (S k) (length l)))
    = map (fun i => nth (i - S k) l 0)
        (filter (fun i => negb (existsb (Nat.eqb i) idxs)) (seq (S k) (length l)))).
  { apply map_ext_in. intros i Hi. apply filter_In in Hi. destruct Hi as [Hi _].
    apply in_seq in Hi. replace (i - k)%nat with (S (i - S k)) by lia. reflexivity. }
  destruct (existsb (Nat.eqb k) idxs); cbn [negb map].
  - rewrite IH. symmetry. exact Hshift.
  - rewrite Nat.sub_diag. cbn [nth]. f_equal. rewrite IH. symmetry. exact Hshift.
Qed.

Lemma delete_from_nothing {A} (k : nat) (l : list A) : delete_from k [] l = l.
Proof.
  revert k. induction l as [|a l IH]; intros k; [reflexivity|].
  cbn [delete_from existsb]. now rewrite IH.
Qed.

Lemma Rgtb_negb_Rleb (a b : R) : Rgtb a b = negb (Rleb a b).
Proof.
  unfold Rgtb, Rltb, Rleb.
  destruct (Rlt_dec b a), (Rle_dec a b); try reflexivity; exfalso; lra.
Qed.

Section RmTails.

Variable pa : ParticleArray.t.
Variables xlim ylim px_lim py_lim : R.
Hypothesis Hshape : ParticleArray.shape_ok pa.

Local Abbreviation N := (ParticleArray.columns pa).
Local Abbreviation p_idxs := (fst (ParticleArray.rm_tails pa xlim ylim px_lim py_lim)).
Local Abbreviation pa' := (snd (ParticleArray.rm_tails pa xlim ylim px_lim py_lim)).
Local Abbreviation inside := (within_limits pa xlim ylim px_lim py_lim).

Lemma rm_tails_row_lengths :
  length (ParticleArray.x pa) = N /\ length (ParticleArray.px pa) = N /\
  length (ParticleArray.y pa) = N /\ length (ParticleArray.py pa) = N.
Proof.
  destruct (shape_ok_rows Hshape)
    as (r0 & r1 & r2 & r3 & r4 & r5 & Hr & H1 & H2 & H3 & H4 & H5).
  unfold ParticleArray.columns, ParticleArray.x, ParticleArray.px,
    ParticleArray.y, ParticleArray.py, ParticleArray.row.
  rewrite Hr. cbn [nth]. repeat split; assumption.
Qed.

(** The returned indices are the particles outside a limit. *)
Lemma rm_tails_p_idxs_In (i : nat) :
  In i p_idxs <-> (i < N)%nat /\ inside i = false.
Proof.
  destruct rm_tails_row_lengths as (Hx & Hpx & Hy & Hpy).
  unfold ParticleArray.rm_tails. cbn [fst].
  rewrite np_unique_In. rewrite !in_app_iff.
  rewrite !(argwhere_In _ 0). rewrite !length_map, Hx, Hy, Hpx, Hpy.
  rewrite !Rneqb_refl.
  unfold within_limits.
  destruct (Nat.lt_ge_cases i N) as [Hi|Hi].
  - rewrite !(nth_indep _ 0 (Rabs 0)) by (rewrite length_map; lia).
    rewrite !map_nth. rewrite !Rgtb_negb_Rleb.
    destruct (Rleb (Rabs (nth i (ParticleArray.x pa) 0)) xlim);
      destruct (Rleb (Rabs (nth i (ParticleArray.y pa) 0)) ylim);
      destruct (Rleb (Rabs (nth i (ParticleArray.px pa) 0)) px_lim);
      destruct (Rleb (Rabs (nth i (ParticleArray.py pa) 0)) py_lim);
      cbn [negb andb]; intuition (try discriminate; try lia).
  - split; [intuition lia | intros [H _]; lia].
Qed.

(** Every row keeps, in order, its entries at the particles inside the
    limits. *)
Lemma rm_tails_rows :
  ParticleArray.rparticles pa'
  = map (fun r => pick r (filter inside (seq 0 N))) (ParticleArray.rparticles pa).
Proof.
  unfold ParticleArray.rm_tails. cbn [snd ParticleArray.rparticles].
  unfold np_delete_columns. apply map_ext_in. intros r Hr.
  assert (Hlen : length r = N).
  { destruct Hshape as [_ Hall]. rewrite Forall_forall in Hall. now apply Hall. }
  rewrite delete_from_pick. unfold pick. rewrite Hlen.
  assert (Hf : filter (fun i => negb (existsb (Nat.eqb i) p_idxs)) (seq 0 N)
               = filter inside (seq 0 N)).
  { apply filter_ext_in. intros i Hi. apply in_seq in Hi.
    destruct (existsb (Nat.eqb i) p_idxs) eqn:E.
    - apply existsb_eqb_In in E. apply rm_tails_p_idxs_In in E.
      destruct E as [_ E]. rewrite E. reflexivity.
    - destruct (inside i) eqn:Ei; [reflexivity|].
      assert (Hin : In i p_idxs) by (apply rm_tails_p_idxs_In; split; [lia | exact Ei]).
      apply existsb_eqb_In in Hin. congruence. }
  unfold ParticleArray.rm_tails in Hf. cbn [fst] in Hf. rewrite Hf.
  apply map_ext. intros i. now rewrite Nat.sub_0_r.
Qed.

Lemma rm_tails_row (k : nat) :
  (k < 6)%nat ->
  ParticleArray.row k pa' = pick (ParticleArray.row k pa) (filter inside (seq 0 N)).
Proof.
  intros Hk. unfold ParticleArray.row at 1. rewrite rm_tails_rows.
  destruct Hshape as [H6 _].
  rewrite (nth_indep _ [] ((fun r => pick r (filter inside (seq 0 N))) []))
    by (rewrite length_map; lia).
  rewrite (map_nth (fun r => pick r (filter inside (seq 0 N)))). reflexivity.
Qed.

(** The particles that stay are inside every limit. *)
Lemma rm_tails_survivors :
  Forall (fun v => Rabs v <= xlim) (ParticleArray.x pa') /\
  Forall (fun v => Rabs v <= ylim) (ParticleArray.y pa') /\
  Forall (fun v => Rabs v <= px_lim) (ParticleArray.px pa') /\
  Forall (fun v => Rabs v <= py_lim) (ParticleArray.py pa').
Proof.
  unfold ParticleArray.x, ParticleArray.y, ParticleArray.px, ParticleArray.py.
  rewrite !rm_tails_row by lia. unfold pick.
  repeat split; apply Forall_map; apply Forall_forall; intros i Hi;
    apply filter_In in Hi; destruct Hi as [_ Hi]; unfold within_limits in Hi;
    repeat (apply andb_prop in Hi; destruct Hi as [Hi ?]);
    apply Rleb_true; assumption.
Qed.

End RmTails.

(** Two strictly increasing lists with the same members are equal. *)
Lemma Sorted_lt_ext (l1 l2 : list nat) :
  Sorted lt l1 -> Sorted lt l2 -> (forall i, In i l1 <-> In i l2) -> l1 = l2.
Proof.
  intros H1 H2.
  apply Sorted_StronglySorted in H1; [|intros a b c; lia].
  apply Sorted_StronglySorted in H2; [|intros a b c; lia].
  revert l2 H2. induction H1 as [|a l1 Hs1 IH Ha]; intros l2 H2 Hext.
  - destruct l2 as [|b l2]; [reflexivity|].
    exfalso. apply (proj2 (Hext b)). now left.
  - destruct H2 as [|b l2 Hs2 Hb].
    + exfalso. apply (proj1 (Hext a)). now left.
    + rewrite Forall_forall in Ha, Hb.
      assert (E : a = b).
      { destruct (proj1 (Hext a) (or_introl eq_refl)) as [E|Hin]; [now symmetry|].
        destruct (proj2 (Hext b) (or_introl eq_refl)) as [E|Hin']; [exact E|].
        specialize (Ha b Hin'). specialize (Hb a Hin). lia. }
      subst b. f_equal. apply IH; [exact Hs2|].
      intros i. split; intros Hi.
      * destruct (proj1 (Hext i) (or_intror Hi)) as [E|Hin]; [|exact Hin].
        subst i. specialize (Ha a Hi). lia.
      * destruct (proj2 (Hext i) (or_intror Hi)) as [E|Hin]; [|exact Hin].
        subst i. specialize (Hb a Hi). lia.
Qed.

Lemma Sorted_lt_filter_seq (f : nat -> bool) (k n : nat) :
  Sorted lt (filter f (seq k n)).
Proof.
  apply StronglySorted_Sorted.
  revert k. induction n as [|n IH]; intros k; [constructor|].
  cbn [seq filter]. destruct (f k); [|apply IH].
  constructor; [apply IH|].
  apply Forall_forall. intros i Hi. apply filter_In in Hi.
  destruct Hi as [Hi _]. apply in_seq in Hi. lia.
Qed.

(** X10.  [rm_tails] on a 6 x N array keeps exactly the particles with
    |x| <= xlim, |y| <= ylim, |px| <= px_lim and |py| <= py_lim (a
    particle on a limit stays), in their order and with all six
    coordinates; the returned [p_idxs] are the other particles, in
    increasing order. *)
Theorem rm_tails_keeps_particles_within_limits
        (pa : ParticleArray.t) (xlim ylim px_lim py_lim : R) :
  ParticleArray.shape_ok pa ->
  let p_idxs := fst (ParticleArray.rm_tails pa xlim ylim px_lim py_lim) in
  let pa' := snd (ParticleArray.rm_tails pa xlim ylim px_lim py_lim) in
  let inside := within_limits pa xlim ylim px_lim py_lim in
  let N := ParticleArray.columns pa in
  p_idxs = filter (fun i => negb (inside i)) (seq 0 N) /\
  (forall k, (k < 6)%nat ->
     ParticleArray.row k pa' = pick (ParticleArray.row k pa) (filter inside (seq 0 N))) /\
  Forall (fun v => Rabs v <= xlim) (ParticleArray.x pa') /\
  Forall (fun v => Rabs v <= ylim) (ParticleArray.y pa') /\
  Forall (fun v => Rabs v <= px_lim) (ParticleArray.px pa') /\
  Forall (fun v => Rabs v <= py_lim) (ParticleArray.py pa').
Proof.
  intros Hshape p_idxs pa' inside N.
  split; [|split].
  - apply (@Sorted_lt_ext p_idxs).
    + apply np_unique_sorted.
    + apply Sorted_lt_filter_seq.
    + intros i. unfold p_idxs. rewrite (rm_tails_p_idxs_In xlim ylim px_lim py_lim Hshape).
      rewrite filter_In, in_seq. fold inside N.
      destruct (inside i); cbn [negb]; intuition (try discriminate; try lia).
  - intros k Hk. apply rm_tails_row; assumption.
  - apply rm_tails_survivors. exact Hshape.
Qed.

Lemma rm_tails_keeps_particles_within_limits_witness :
  let pa := ParticleArray.mk [[0; 2; 1]; [0; 0; 0]; [0; 0; 0]; [0; 0; 3]; [4; 5; 6];
                              [7; 8; 9]] [1; 1; 1] 0 0 in
  fst (ParticleArray.rm_tails pa 1 1 1 1)
  = filter (fun i => negb (within_limits pa 1 1 1 1 i)) (seq 0 3) /\
  Forall (fun v => Rabs v <= 1) (ParticleArray.x (snd (ParticleArray.rm_tails pa 1 1 1 1))).
Proof.
  intros pa.
  destruct (@rm_tails_keeps_particles_within_limits pa 1 1 1 1)
    as (Hidx & _ & Hx & _).
  - split; [reflexivity|]. repeat constructor.
  - split; [exact Hidx | exact Hx].
Defined.

(** X11.  [rm_tails] is idempotent: a second call with the same limits
    on the array it left removes nothing, returns an empty [p_idxs] and
    leaves the array as it is. *)
Theorem rm_tails_idempotent
        (pa : ParticleArray.t) (xlim ylim px_lim py_lim : R) :
  ParticleArray.shape_ok pa ->
  let pa' := snd (ParticleArray.rm_tails pa xlim ylim px_lim py_lim) in
  ParticleArray.rm_tails pa' xlim ylim px_lim py_lim = ([], pa').
Proof.
  intros Hshape pa'.
  destruct (rm_tails_survivors xlim ylim px_lim py_lim Hshape) as (Hx & Hy & Hpx & Hpy).
  fold pa' in Hx, Hy, Hpx, Hpy.
  assert (Hnone : forall (lim : R) (r : list R),
            Forall (fun v => Rabs v <= lim) r ->
            argwhere (fun v => Rgtb v lim) (map Rabs r) = []).
  { intros lim r Hr. apply argwhere_never. intros a Ha.
    apply in_map_iff in Ha. destruct Ha as [v [<- Hv]].
    rewrite Forall_forall in Hr. rewrite Rgtb_negb_Rleb.
    rewrite (proj2 (Rleb_true _ _) (Hr v Hv)). reflexivity. }
  assert (Hnan : forall r : list R, argwhere (fun v => Rneqb v v) r = []).
  { intros r. apply argwhere_never. intros a _. apply Rneqb_refl. }
  unfold ParticleArray.rm_tails at 1.
  rewrite (Hnone _ _ Hx), (Hnone _ _ Hy), (Hnone _ _ Hpx), (Hnone _ _ Hpy), !Hnan.
  cbn [app np_unique fold_right]. f_equal.
  unfold np_delete_columns.
  rewrite (map_ext _ (fun r => r)) by (intros r; apply delete_from_nothing).
  rewrite map_id. destruct pa'; reflexivity.
Qed.

Lemma rm_tails_idempotent_witness :
  let pa := ParticleArray.mk [[0; 2; 1]; [0; 0; 0]; [0; 0; 0]; [0; 0; 3]; [4; 5; 6];
                              [7; 8; 9]] [1; 1; 1] 0 0 in
  let pa' := snd (ParticleArray.rm_tails pa 1 1 1 1) in
  ParticleArray.rm_tails pa' 1 1 1 1 = ([], pa').
Proof.
  intros pa.
  apply (@rm_tails_idempotent pa 1 1 1 1).
  split; [reflexivity|]. repeat constructor.
Defined.

(* ------------------------------------------------------------------ *)
(** * [ParticleArray]: one particle in, one particle out *)

Lemma norm_index_inside (n : nat) (k : Z) :
  (- Z.of_nat n <= k < Z.of_nat n)%Z ->
  exists i, norm_index n k = Ok i /\ (i < n)%nat /\
            Z.of_nat i = (if (k <? 0)%Z then Z.of_nat n + k else k)%Z.
Proof.
  intros H. unfold norm_index.
  destruct (Z.ltb_spec k 0).
  - destruct (Z.ltb_spec (Z.of_nat n + k) 0); [lia|].
    eexists. split; [reflexivity|]. lia.
  - destruct (Z.ltb_spec k (Z.of_nat n)); [|lia].
    eexists. split; [reflexivity|]. lia.
Qed.

Lemma norm_index_outside (n : nat) (k : Z) :
  ~ (- Z.of_nat n <= k < Z.of_nat n)%Z -> norm_index n k = Raise IndexError.
Proof.
  intros H. unfold norm_index.
  destruct (Z.ltb_spec k 0).
  - destruct (Z.ltb_spec (Z.of_nat n + k) 0); [reflexivity | lia].
  - destruct (Z.ltb_spec k (Z.of_nat n)); [lia | reflexivity].
Qed.

(** [l[k]] reads the position [norm_index] names. *)
Lemma getitemZ_norm_index {A} (l : list A) (k : Z) :
  getitemZ l k = (i <- norm_index (length l) k ;; getitem l i)%py.
Proof.
  unfold getitemZ, norm_index.
  destruct (Z.ltb_spec k 0).
  - destruct (Z.ltb_spec (Z.of_nat (length l) + k) 0); reflexivity.
  - destruct (Z.ltb_spec k (Z.of_nat (length l))); [reflexivity|].
    cbn [Py.bind]. apply getitem_Raise_ge. lia.
Qed.

Lemma getitem_nth (l : list R) (i : nat) :
  (i < length l)%nat -> getitem l i = Ok (nth i l 0).
Proof.
  intros H. unfold getitem.
  rewrite (nth_error_nth' l 0 H). reflexivity.
Qed.

Lemma nth_update_nth_same {A} (i : nat) (f : A -> A) (l : list A) (d : A) :
  (i < length l)%nat -> nth i (update_nth i f l) d = f (nth i l d).
Proof.
  revert i. induction l as [|a l IH]; intros [|i] H; cbn in *; try lia.
  - reflexivity.
  - apply IH. lia.
Qed.

Lemma nth_update_nth_other {A} (i j : nat) (f : A -> A) (l : list A) (d : A) :
  i <> j -> nth j (update_nth i f l) d = nth j l d.
Proof.
  revert i j. induction l as [|a l IH]; intros [|i] [|j] H; cbn; try reflexivity;
    try lia.
  apply IH. lia.
Qed.

Section ParticleItems.

Import ParticleArrayItems.

(** The particle in column [i], in the words of [__getitem__]. *)
Lemma getitem_column (r0 r1 r2 r3 r4 r5 q : list R) (s E : R) (idx : Z) (i : nat) :
  length r1 = length r0 -> length r2 = length r0 -> length r3 = length r0 ->
  length r4 = length r0 -> length r5 = length r0 ->
  norm_index (length r0) idx = Ok i -> (i < length r0)%nat ->
  __getitem__ (ParticleArray.mk [r0; r1; r2; r3; r4; r5] q s E) idx
  = Ok (Particle.mk (nth i r0 0) (nth i r2 0) (nth i r1 0) (nth i r3 0) s
                    (nth i r5 0) (nth i r4 0) 0).
Proof.
  intros H1 H2 H3 H4 H5 Hi Hlt.
  unfold __getitem__, getitem2.
  cbn [ParticleArray.rparticles ParticleArray.s getitem nth_error Py.bind].
  rewrite !getitemZ_norm_index, H1, H2, H3, H4, H5, Hi. cbn [Py.bind].
  rewrite !getitem_nth by congruence. reflexivity.
Qed.

Lemma setitem_column (r0 r1 r2 r3 r4 r5 q : list R) (s E : R) (idx : Z) (i : nat)
      (p : Particle.t) :
  length r1 = length r0 -> length r2 = length r0 -> length r3 = length r0 ->
  length r4 = length r0 -> length r5 = length r0 ->
  norm_index (length r0) idx = Ok i ->
  __setitem__ idx p (ParticleArray.mk [r0; r1; r2; r3; r4; r5] q s E)
  = (Ok tt,
     ParticleArray.mk
       [update_nth i (fun _ => Particle.x p) r0;
        update_nth i (fun _ => Particle.px p) r1;
        update_nth i (fun _ => Particle.y p) r2;
        update_nth i (fun _ => Particle.py p) r3;
        update_nth i (fun _ => Particle.tau p) r4;
        update_nth i (fun _ => Particle.p p) r5]
       q (Particle.s p) E).
Proof.
  intros H1 H2 H3 H4 H5 Hi.
  unfold __setitem__, store, setitem2, Obj.bind, Obj.modify, with_rparticles, with_s.
  cbn [ParticleArray.rparticles ParticleArray.q_array ParticleArray.s ParticleArray.E
       getitem nth_error Py.bind set_row].
  rewrite Hi. cbn [Py.bind ParticleArray.rparticles ParticleArray.q_array
                   ParticleArray.s ParticleArray.E getitem nth_error set_row].
  rewrite H1, Hi. cbn [Py.bind ParticleArray.rparticles ParticleArray.q_array
                   ParticleArray.s ParticleArray.E getitem nth_error set_row].
  rewrite H2, Hi. cbn [Py.bind ParticleArray.rparticles ParticleArray.q_array
                   ParticleArray.s ParticleArray.E getitem nth_error set_row].
  rewrite H3, Hi. cbn [Py.bind ParticleArray.rparticles ParticleArray.q_array
                   ParticleArray.s ParticleArray.E getitem nth_error set_row].
  rewrite H4, Hi. cbn [Py.bind ParticleArray.rparticles ParticleArray.q_array
                   ParticleArray.s ParticleArray.E getitem nth_error set_row].
  rewrite H5, Hi. cbn [Py.bind ParticleArray.rparticles ParticleArray.q_array
                   ParticleArray.s ParticleArray.E getitem nth_error set_row].
  reflexivity.
Qed.

(** X12.  On a 6 x N array and for an index in [-N, N), [pa[idx] = p]
    followed by [pa[idx]] gives back the six coordinates and [s] of [p]
    with [E] reset to 0; every other particle keeps its coordinates but
    is now reported with [s = p.s], because the write also sets the
    array's [s].  For an index outside [-N, N) the write raises
    IndexError and changes nothing. *)
Theorem setitem_getitem_round_trip (pa : ParticleArray.t) (idx : Z) (p : Particle.t) :
  ParticleArray.shape_ok pa ->
  let N := Z.of_nat (ParticleArray.columns pa) in
  ((- N <= idx < N)%Z ->
   exists pa',
     __setitem__ idx p pa = (Ok tt, pa') /\
     ParticleArray.shape_ok pa' /\
     ParticleArray.columns pa' = ParticleArray.columns pa /\
     __getitem__ pa' idx = Ok (Particle.with_E 0 p) /\
     (forall j, (- N <= j < N)%Z -> j <> idx -> j <> (idx + N)%Z -> j <> (idx - N)%Z ->
        exists q, __getitem__ pa j = Ok q /\
                  __getitem__ pa' j = Ok (Particle.with_s (Particle.s p) q)) /\
     ParticleArray.q_array pa' = ParticleArray.q_array pa /\
     ParticleArray.E pa' = ParticleArray.E pa /\
     ParticleArray.s pa' = Particle.s p) /\
  (~ (- N <= idx < N)%Z -> __setitem__ idx p pa = (Raise IndexError, pa)).
Proof.
  intros Hshape N.
  destruct (shape_ok_rows Hshape)
    as (r0 & r1 & r2 & r3 & r4 & r5 & Hr & H1 & H2 & H3 & H4 & H5).
  destruct pa as [rp q s E]. cbn [ParticleArray.rparticles] in Hr. subst rp.
  assert (HN : N = Z.of_nat (length r0)) by reflexivity.
  split.
  - intros Hidx. rewrite HN in Hidx.
    destruct (@norm_index_inside _ _ Hidx) as (i & Hi & Hlt & Hiz).
    rewrite (@setitem_column r0 r1 r2 r3 r4 r5 q s E idx i p) by assumption.
    eexists. split; [reflexivity|].
    assert (Hshape' : ParticleArray.shape_ok
              (ParticleArray.mk
                 [update_nth i (fun _ => Particle.x p) r0;
                  update_nth i (fun _ => Particle.px p) r1;
                  update_nth i (fun _ => Particle.y p) r2;
                  update_nth i (fun _ => Particle.py p) r3;
                  update_nth i (fun _ => Particle.tau p) r4;
                  update_nth i (fun _ => Particle.p p) r5] q (Particle.s p) E)).
    { split; [reflexivity|].
      unfold ParticleArray.columns, ParticleArray.row.
      cbn [ParticleArray.rparticles nth].
      repeat constructor; rewrite !update_nth_length; congruence. }
    split; [exact Hshape'|].
    split.
    { unfold ParticleArray.columns, ParticleArray.row.
      cbn [ParticleArray.rparticles nth]. apply update_nth_length. }
    split.
    { rewrite (@getitem_column _ _ _ _ _ _ q (Particle.s p) E idx i);
        try (rewrite !update_nth_length; congruence).
      rewrite !nth_update_nth_same by congruence. destruct p; reflexivity. }
    split; [|repeat split].
    intros j Hj Hne1 Hne2 Hne3. rewrite HN in Hj, Hne2, Hne3.
    destruct (@norm_index_inside _ _ Hj) as (k & Hk & Hklt & Hkz).
    assert (Hik : i <> k).
    { intros ->. destruct (Z.ltb_spec idx 0); destruct (Z.ltb_spec j 0); lia. }
    rewrite (@getitem_column r0 r1 r2 r3 r4 r5 q s E j k) by assumption.
    eexists. split; [reflexivity|].
    rewrite (@getitem_column _ _ _ _ _ _ q (Particle.s p) E j k);
      try (rewrite !update_nth_length; congruence).
    rewrite !nth_update_nth_other by exact Hik. reflexivity.
  - intros Hidx. rewrite HN in Hidx.
    unfold __setitem__, store, setitem2, Obj.bind.
    cbn [ParticleArray.rparticles getitem nth_error Py.bind].
    rewrite (@norm_index_outside _ _ Hidx). reflexivity.
Qed.

Lemma setitem_getitem_round_trip_witness :
  let pa := ParticleArray.mk [[1; 2]; [3; 4]; [5; 6]; [7; 8]; [9; 10]; [11; 12]]
                             [1; 1] 0 0 in
  let p := Particle.mk 10 20 30 40 50 60 70 80 in
  exists pa',
    __setitem__ (-1) p pa = (Ok tt, pa') /\
    __getitem__ pa' (-1) = Ok (Particle.with_E 0 p).
Proof.
  intros pa p.
  destruct (@setitem_getitem_round_trip pa (-1) p) as [Hin _].
  - split; [reflexivity|]. repeat constructor.
  - destruct Hin as (pa' & Hset & _ & _ & Hget & _).
    + cbn. lia.
    + exists pa'. split; assumption.
Defined.

Lemma norm_index_nat (n i : nat) : (i < n)%nat -> norm_index n (Z.of_nat i) = Ok i.
Proof.
  intros H. unfold norm_index.
  destruct (Z.ltb_spec (Z.of_nat i) 0); [lia|].
  destruct (Z.ltb_spec (Z.of_nat i) (Z.of_nat n)); [|lia].
  now rewrite Nat2Z.id.
Qed.

Lemma last_cons {A} (a d : A) (l : list A) : last (a :: l) d = last l a.
Proof.
  revert a d. induction l as [|b l IH]; intros a d; [reflexivity|].
  change (last (a :: b :: l) d) with (last (b :: l) d).
  rewrite (IH b d), (IH b a). reflexivity.
Qed.

(** Writing entry [i] and then the entries after it is writing the slice
    that starts at [i]. *)
Lemma splice_step (i : nat) (v : R) (vs r : list R) :
  (i < length r)%nat ->
  firstn (S i) (update_nth i (fun _ => v) r) ++ vs
    ++ skipn (S i + length vs) (update_nth i (fun _ => v) r)
  = firstn i r ++ (v :: vs) ++ skipn (i + length (v :: vs)) r.
Proof.
  revert i. induction r as [|a r IH]; intros i Hi; [simpl in Hi; lia|].
  destruct i as [|i].
  - cbn [update_nth firstn app length]. rewrite Nat.add_0_l.
    cbn [Nat.add skipn]. reflexivity.
  - cbn [update_nth firstn length]. rewrite <- !app_comm_cons. f_equal.
    replace (S (S i) + length vs)%nat with (S (S i + length vs)) by lia.
    replace (S i + S (length vs))%nat with (S (i + S (length vs))) by lia.
    cbn [skipn]. specialize (IH i ltac:(simpl in Hi; lia)).
    cbn [length] in IH. exact IH.
Qed.

Lemma setitems_rows (ps : list Particle.t) :
  forall (i : nat) (r0 r1 r2 r3 r4 r5 q : list R) (s E : R),
  length r1 = length r0 -> length r2 = length r0 -> length r3 = length r0 ->
  length r4 = length r0 -> length r5 = length r0 ->
  (i + length ps <= length r0)%nat ->
  setitems i ps (ParticleArray.mk [r0; r1; r2; r3; r4; r5] q s E)
  = (Ok tt,
     ParticleArray.mk
       [firstn i r0 ++ map Particle.x ps ++ skipn (i + length ps) r0;
        firstn i r1 ++ map Particle.px ps ++ skipn (i + length ps) r1;
        firstn i r2 ++ map Particle.y ps ++ skipn (i + length ps) r2;
        firstn i r3 ++ map Particle.py ps ++ skipn (i + length ps) r3;
        firstn i r4 ++ map Particle.tau ps ++ skipn (i + length ps) r4;
        firstn i r5 ++ map Particle.p ps ++ skipn (i + length ps) r5]
       q (last (map Particle.s ps) s) E).
Proof.
  induction ps as [|p ps IH]; intros i r0 r1 r2 r3 r4 r5 q s E H1 H2 H3 H4 H5 Hi.
  - cbn [setitems map length last app]. rewrite Nat.add_0_r.
    rewrite !firstn_skipn. reflexivity.
  - cbn [setitems]. unfold Obj.bind at 1.
    cbn [length] in Hi.
    rewrite (@setitem_column r0 r1 r2 r3 r4 r5 q s E (Z.of_nat i) i p H1 H2 H3 H4 H5)
      by (apply norm_index_nat; lia).
    rewrite IH by (rewrite !update_nth_length; try congruence; lia).
    cbn [map]. rewrite last_cons.
    rewrite <- !(length_map Particle.x ps) at 1.
    rewrite (@splice_step i (Particle.x p) (map Particle.x ps) r0) by lia.
    rewrite (length_map Particle.x ps), <- (length_map Particle.px ps).
    rewrite (@splice_step i (Particle.px p) (map Particle.px ps) r1) by lia.
    rewrite (length_map Particle.px ps), <- (length_map Particle.y ps).
    rewrite (@splice_step i (Particle.y p) (map Particle.y ps) r2) by lia.
    rewrite (length_map Particle.y ps), <- (length_map Particle.py ps).
    rewrite (@splice_step i (Particle.py p) (map Particle.py ps) r3) by lia.
    rewrite (length_map Particle.py ps), <- (length_map Particle.tau ps).
    rewrite (@splice_step i (Particle.tau p) (map Particle.tau ps) r4) by lia.
    rewrite (length_map Particle.tau ps), <- (length_map Particle.p ps).
    rewrite (@splice_step i (Particle.p p) (map Particle.p ps) r5) by lia.
    cbn [length]. rewrite !length_map. reflexivity.
Qed.

Lemma skipn_repeat_all {A} (a : A) (n : nat) : skipn n (repeat a n) = [].
Proof. apply skipn_all2. now rewrite repeat_length. Qed.

Lemma nth_map_field (f : Particle.t -> R) (l : list Particle.t) (i : nat) :
  (i < length l)%nat -> nth i (map f l) 0 = f (nth i l Particle.init).
Proof.
  intros H. rewrite (nth_indep _ 0 (f Particle.init)) by (now rewrite length_map).
  apply map_nth.
Qed.

(** What [list2array] leaves in the object for a non-empty list. *)
Lemma list2array_run (p0 : Particle.t) (rest : list Particle.t) (pa : ParticleArray.t) :
  let p_list := p0 :: rest in
  list2array p_list pa
  = (Ok tt,
     ParticleArray.mk
       [map Particle.x p_list; map Particle.px p_list; map Particle.y p_list;
        map Particle.py p_list; map Particle.tau p_list; map Particle.p p_list]
       (ParticleArray.q_array pa) (Particle.s p0) (Particle.E p0)).
Proof.
  intros p_list. unfold list2array.
  unfold Obj.bind at 1. unfold Obj.modify at 1. unfold with_rparticles.
  cbn [repeat]. unfold Obj.bind at 1.
  set (n := length p_list).
  rewrite (@setitems_rows p_list 0 (repeat 0 n) (repeat 0 n) (repeat 0 n)
             (repeat 0 n) (repeat 0 n) (repeat 0 n)) by (rewrite ?repeat_length; lia).
  cbn [firstn app Nat.add]. fold n. rewrite !skipn_repeat_all, !app_nil_r.
  unfold p_list. cbn [Obj.bind Obj.read Obj.modify getitem nth_error with_s with_E
    ParticleArray.rparticles ParticleArray.q_array ParticleArray.s ParticleArray.E].
  reflexivity.
Qed.

(** X13.  [list2array] on a non-empty list makes the array 6 x len(list)
    with particle i in column i (rows x, px, y, py, tau, p), takes [s]
    and [E] from the first particle and leaves [q_array] as it was; on
    an empty list it raises IndexError after it has replaced the
    coordinates by a 6 x 0 array. *)
Theorem list2array_stores_particles
        (p0 : Particle.t) (rest : list Particle.t) (pa : ParticleArray.t) :
  let p_list := p0 :: rest in
  (exists pa',
     list2array p_list pa = (Ok tt, pa') /\
     ParticleArray.shape_ok pa' /\
     ParticleArray.columns pa' = length p_list /\
     (forall i, (i < length p_list)%nat ->
        __getitem__ pa' (Z.of_nat i)
        = Ok (Particle.with_E 0
                (Particle.with_s (Particle.s p0) (nth i p_list Particle.init)))) /\
     ParticleArray.s pa' = Particle.s p0 /\
     ParticleArray.E pa' = Particle.E p0 /\
     ParticleArray.q_array pa' = ParticleArray.q_array pa) /\
  list2array [] pa
  = (Raise IndexError,
     ParticleArray.mk (repeat [] 6) (ParticleArray.q_array pa)
                      (ParticleArray.s pa) (ParticleArray.E pa)).
Proof.
  intros p_list. split; [|reflexivity].
  unfold p_list at 1. rewrite list2array_run. fold p_list.
  eexists. split; [reflexivity|].
  split; [|split; [|split; [|repeat split]]].
  - split; [reflexivity|].
    unfold ParticleArray.columns, ParticleArray.row.
    cbn [ParticleArray.rparticles nth].
    repeat constructor; now rewrite !length_map.
  - unfold ParticleArray.columns, ParticleArray.row.
    cbn [ParticleArray.rparticles nth]. apply length_map.
  - intros i Hi.
    rewrite (@getitem_column _ _ _ _ _ _ _ _ _ (Z.of_nat i) i);
      try (rewrite !length_map; reflexivity).
    + rewrite !nth_map_field by exact Hi.
      destruct (nth i p_list Particle.init); reflexivity.
    + apply norm_index_nat. now rewrite length_map.
    + now rewrite length_map.
Qed.

(** One turn of the loop of [array2ex_list] overwrites all eight
    attributes of the particle at address [r]. *)
Lemma update_nth_compose {A} (r : nat) (f g : A -> A) (h : list A) :
  update_nth r g (update_nth r f h) = update_nth r (fun q => g (f q)) h.
Proof.
  revert r. induction h as [|a h IH]; intros [|r]; cbn [update_nth]; try reflexivity.
  now rewrite IH.
Qed.

Lemma array2ex_items_rows (refs : list nat) :
  forall (i : nat) (r0 r1 r2 r3 r4 r5 q : list R) (s E : R) (h : heap),
  length r1 = length r0 -> length r2 = length r0 -> length r3 = length r0 ->
  length r4 = length r0 -> length r5 = length r0 ->
  (i + length refs <= length r0)%nat ->
  let self := ParticleArray.mk [r0; r1; r2; r3; r4; r5] q s E in
  exists h',
    array2ex_items self i refs h = (Ok tt, h') /\
    length h' = length h /\
    (forall a, ~ In a refs -> nth a h' Particle.init = nth a h Particle.init) /\
    (NoDup refs -> Forall (fun a => a < length h)%nat refs ->
     forall j, (j < length refs)%nat ->
       nth (nth j refs 0%nat) h' Particle.init
       = Particle.mk (nth (i + j) r0 0) (nth (i + j) r2 0) (nth (i + j) r1 0)
                     (nth (i + j) r3 0) s (nth (i + j) r5 0) (nth (i + j) r4 0) E).
Proof.
  induction refs as [|r refs IH];
    intros i r0 r1 r2 r3 r4 r5 q s E h H1 H2 H3 H4 H5 Hi self.
  - exists h. cbn [array2ex_items]. repeat split; try reflexivity.
    intros _ _ j Hj. cbn in Hj. lia.
  - cbn [length] in Hi. cbn [array2ex_items].
    unfold Obj.bind, Obj.read, set_attr, Obj.modify, getitem2.
    unfold self at 1 2 3 4 5 6 7 8.
    cbn [ParticleArray.rparticles ParticleArray.s ParticleArray.E getitem nth_error
         Py.bind].
    rewrite !getitemZ_norm_index, H1, H2, H3, H4, H5.
    rewrite (@norm_index_nat (length r0) i) by lia. cbn [Py.bind].
    rewrite !getitem_nth by lia.
    rewrite !update_nth_compose.
    set (col := Particle.mk (nth i r0 0) (nth i r2 0) (nth i r1 0) (nth i r3 0) s
                            (nth i r5 0) (nth i r4 0) E).
    match goal with
    | |- context [update_nth r ?F h] =>
        change (update_nth r F h) with (update_nth r (fun _ => col) h)
    end.
    destruct (IH (S i) r0 r1 r2 r3 r4 r5 q s E (update_nth r (fun _ => col) h)
                 H1 H2 H3 H4 H5 ltac:(lia))
      as (h' & Hrun & Hlen & Hout & Hin).
    fold self. exists h'. split; [exact Hrun|].
    rewrite update_nth_length in Hlen. split; [exact Hlen|]. split.
    + intros a Ha. rewrite Hout by (intros Hc; apply Ha; now right).
      apply nth_update_nth_other. intros ->. apply Ha. now left.
    + intros Hnd Hall j Hj.
      inversion Hnd as [|? ? Hnotin Hnd']; subst.
      inversion Hall as [|? ? Hr Hall']; subst.
      destruct j as [|j].
      * cbn [nth]. rewrite Hout by exact Hnotin.
        rewrite nth_update_nth_same by exact Hr. rewrite Nat.add_0_r. reflexivity.
      * cbn [nth]. cbn [length] in Hj.
        rewrite (Hin Hnd') by (rewrite ?update_nth_length; try assumption; lia).
        replace (S i + j)%nat with (i + S j)%nat by lia. reflexivity.
Qed.

(** X14.  Round trip: after [list2array] on a non-empty list,
    [array2ex_list] into as many distinct particle objects returns the
    list it was given and leaves object i with the six coordinates of
    input particle i, and with the [s] and [E] of the first input
    particle; objects not in the list are untouched. *)
Theorem list2array_array2ex_list_round_trip
        (p0 : Particle.t) (rest : list Particle.t) (pa : ParticleArray.t)
        (h : heap) (refs : list nat) :
  let p_list := p0 :: rest in
  NoDup refs ->
  length refs = length p_list ->
  Forall (fun a => a < length h)%nat refs ->
  let pa' := snd (list2array p_list pa) in
  exists h',
    array2ex_list pa' refs h = (Ok refs, h') /\
    length h' = length h /\
    (forall i, (i < length refs)%nat ->
       nth (nth i refs 0%nat) h' Particle.init
       = Particle.with_s (Particle.s p0)
           (Particle.with_E (Particle.E p0) (nth i p_list Particle.init))) /\
    (forall a, ~ In a refs -> nth a h' Particle.init = nth a h Particle.init).
Proof.
  intros p_list Hnd Hlen Hall pa'.
  unfold pa', p_list. rewrite list2array_run. cbn [snd]. fold p_list.
  destruct (@array2ex_items_rows refs 0
              (map Particle.x p_list) (map Particle.px p_list)
              (map Particle.y p_list) (map Particle.py p_list)
              (map Particle.tau p_list) (map Particle.p p_list)
              (ParticleArray.q_array pa) (Particle.s p0) (Particle.E p0) h)
    as (h' & Hrun & Hl & Hout & Hin);
    try (rewrite !length_map; reflexivity).
  { rewrite length_map. lia. }
  exists h'. unfold array2ex_list, Obj.bind. rewrite Hrun.
  split; [reflexivity|]. split; [exact Hl|]. split; [|exact Hout].
  intros i Hi. rewrite (Hin Hnd Hall i Hi). cbn [Nat.add].
  rewrite !nth_map_field by lia.
  destruct (nth i p_list Particle.init); reflexivity.
Qed.

Lemma list2array_array2ex_list_round_trip_witness :
  let p0 := Particle.mk 1 2 3 4 5 6 7 8 in
  let p1 := Particle.mk 10 20 30 40 50 60 70 80 in
  let pa' := snd (list2array [p0; p1] (ParticleArray.init 0)) in
  exists h',
    array2ex_list pa' [2; 0]%nat [Particle.init; Particle.init; Particle.init]
    = (Ok [2; 0]%nat, h') /\
    nth 2 h' Particle.init = p0 /\
    nth 0 h' Particle.init = Particle.mk 10 20 30 40 5 60 70 8 /\
    nth 1 h' Particle.init = Particle.init.
Proof.
  intros p0 p1 pa'.
  destruct (@list2array_array2ex_list_round_trip p0 [p1] (ParticleArray.init 0)
              [Particle.init; Particle.init; Particle.init] [2; 0]%nat)
    as (h' & Hrun & _ & Hin & Hout).
  - repeat constructor; cbn; intuition lia.
  - reflexivity.
  - repeat constructor; cbn; lia.
  - exists h'. split; [exact Hrun|]. split; [|split].
    + apply (Hin 0%nat). cbn. lia.
    + apply (Hin 1%nat). cbn. lia.
    + apply (Hout 1%nat). cbn. intuition lia.
Defined.

End ParticleItems.

(* ------------------------------------------------------------------ *)
(** * [Trajectory]: what [last] returns *)

Lemma final_nonempty (l : list R) (v : R) : Trajectory.final (l ++ [v]) = Ok v.
Proof.
  unfold Trajectory.final, getitemZ. rewrite length_app. cbn [length].
  destruct (Z.ltb_spec (Z.of_nat (length l + 1) - 1) 0); [lia|].
  replace (Z.to_nat (Z.of_nat (length l + 1) - 1)) with (length l) by lia.
  unfold getitem. rewrite nth_error_app2 by lia. rewrite Nat.sub_diag. reflexivity.
Qed.

Lemma final_empty : Trajectory.final [] = Raise IndexError.
Proof. reflexivity. Qed.

(** Points added one after the other to a trajectory. *)
Lemma add_all_E (pts : list (R * R * R * R * R * R * R)) (t : Trajectory.t) :
  Trajectory.E
    (fold_left (fun t '(ct, x, y, xp, yp, z, s) => Trajectory.add t ct x y xp yp z s)
               pts t)
  = Trajectory.E t.
Proof.
  revert t. induction pts as [|[[[[[[ct x] y] xp] yp] z] s] pts IH]; intros t.
  - reflexivity.
  - cbn [fold_left]. rewrite IH. reflexivity.
Qed.

Lemma add_all_snoc (pts : list (R * R * R * R * R * R * R))
      (pt : R * R * R * R * R * R * R) (t : Trajectory.t) :
  fold_left (fun t '(ct, x, y, xp, yp, z, s) => Trajectory.add t ct x y xp yp z s)
            (pts ++ [pt]) t
  = (let '(ct, x, y, xp, yp, z, s) := pt in
     Trajectory.add
       (fold_left (fun t '(ct, x, y, xp, yp, z, s) => Trajectory.add t ct x y xp yp z s)
                  pts t)
       ct x y xp yp z s).
Proof. rewrite fold_left_app. reflexivity. Qed.

(** X15.  [Trajectory.add] never appends to [E], so on a trajectory
    built by [add] calls alone [last()] returns the integer 0, never a
    particle; on a fresh trajectory it raises IndexError.  When [E] has
    been filled from outside, it returns a particle with the last [x],
    [y], [E], [s] and the further attributes [ct], [xp], [yp], while
    [px], [py], [p] and [tau] keep the default 0. *)
Theorem trajectory_last_after_add
        (pts : list (R * R * R * R * R * R * R)) (pt : R * R * R * R * R * R * R) :
  let add_all := fold_left
    (fun t '(ct, x, y, xp, yp, z, s) => Trajectory.add t ct x y xp yp z s) in
  Trajectory.last Trajectory.init = Raise IndexError /\
  Trajectory.last (add_all (pts ++ [pt]) Trajectory.init) = Ok Trajectory.Zero /\
  (forall Es E',
     let '(ct, x, y, xp, yp, z, s) := pt in
     let t := add_all (pts ++ [pt]) Trajectory.init in
     Trajectory.last
       (Trajectory.mk (Trajectory.ct t) (Es ++ [E']) (Trajectory.x t) (Trajectory.y t)
                      (Trajectory.xp t) (Trajectory.yp t) (Trajectory.z t)
                      (Trajectory.s t))
     = Ok (Trajectory.Last (Particle.mk x y 0 0 s 0 0 E') ct xp yp)).
Proof.
  intros add_all. split; [reflexivity|].
  unfold add_all. rewrite add_all_snoc.
  destruct pt as [[[[[[ct x] y] xp] yp] z] s].
  set (t := fold_left _ pts Trajectory.init).
  assert (HE : Trajectory.E t = []) by (unfold t; apply add_all_E).
  split.
  - unfold Trajectory.last, Trajectory.add.
    cbn [Trajectory.ct Trajectory.x Trajectory.y Trajectory.xp Trajectory.yp
         Trajectory.E Trajectory.s].
    rewrite !final_nonempty. cbn [Py.bind]. rewrite HE, final_empty. reflexivity.
  - intros Es E'. unfold Trajectory.last, Trajectory.add.
    cbn [Trajectory.ct Trajectory.x Trajectory.y Trajectory.xp Trajectory.yp
         Trajectory.E Trajectory.s].
    rewrite !final_nonempty. cbn [Py.bind]. reflexivity.
Qed.

(* ------------------------------------------------------------------ *)
(** * [Beam]: setting a property and reading it back *)

(** X16.  Round trips of the [Beam] properties, for a non-zero rest
    energy: [g] and [dg] read back the value that was set; [emit_xn] and
    [emit_yn] do when [g] is not zero, [px] and [py] when [p] is not
    zero; [p] and [pz] read back the absolute value, so the sign of a
    momentum that is set is lost. *)
Theorem beam_property_round_trips (m_e_GeV : R) (b : Beam.t) (v : R) :
  m_e_GeV <> 0 ->
  Beam.g m_e_GeV (Beam.set_g m_e_GeV v b) = v /\
  Beam.dg m_e_GeV (Beam.set_dg m_e_GeV v b) = v /\
  (Beam.g m_e_GeV b <> 0 ->
   Beam.emit_xn m_e_GeV (Beam.set_emit_xn m_e_GeV v b) = v /\
   Beam.emit_yn m_e_GeV (Beam.set_emit_yn m_e_GeV v b) = v) /\
  (Beam.p m_e_GeV b <> 0 ->
   Beam.px m_e_GeV (Beam.set_px m_e_GeV v b) = v /\
   Beam.py m_e_GeV (Beam.set_py m_e_GeV v b) = v) /\
  Beam.p m_e_GeV (Beam.set_p m_e_GeV v b) = Rabs v /\
  Beam.pz m_e_GeV (Beam.set_pz m_e_GeV v b) = Rabs v.
Proof.
  intros Hm.
  assert (Hg : forall w b', Beam.g m_e_GeV (Beam.set_g m_e_GeV w b') = w).
  { intros w b'. unfold Beam.g, Beam.set_g, Beam.with_E. cbn [Beam.E]. field. exact Hm. }
  assert (Hp : forall w b', Beam.p m_e_GeV (Beam.set_p m_e_GeV w b') = Rabs w).
  { intros w b'. unfold Beam.p, Beam.set_p. rewrite Hg.
    replace (sqrt (w ^ 2 + 1) ^ 2 - 1) with (w ^ 2).
    - replace (w ^ 2) with (Rsqr w) by (unfold Rsqr; ring). apply sqrt_Rsqr_abs.
    - rewrite pow2_sqrt; [ring|]. nra. }
  split; [apply Hg|]. split.
  { unfold Beam.dg, Beam.set_dg, Beam.with_sigma_E. cbn [Beam.sigma_E]. field. exact Hm. }
  split.
  { intros Hg0. unfold Beam.emit_xn, Beam.set_emit_xn, Beam.emit_yn, Beam.set_emit_yn.
    unfold Beam.g in *. unfold Beam.with_emit_x, Beam.with_emit_y.
    cbn [Beam.emit_x Beam.emit_y Beam.E]. split; field; split; try assumption;
      intros E0; apply Hg0; rewrite E0; field; exact Hm. }
  split.
  { intros Hp0. unfold Beam.px, Beam.set_px, Beam.py, Beam.set_py.
    unfold Beam.p, Beam.g in *. unfold Beam.with_xp, Beam.with_yp.
    cbn [Beam.xp Beam.yp Beam.E]. split; field; exact Hp0. }
  split; [apply Hp|].
  unfold Beam.pz, Beam.set_pz. rewrite Hp.
  unfold Beam.set_p, Beam.set_g, Beam.with_E. cbn [Beam.xp Beam.yp].
  set (k := Beam.xp b ^ 2 + Beam.yp b ^ 2 + 1).
  assert (Hk : 0 < k) by (unfold k; nra).
  rewrite Rabs_mult, (Rabs_pos_eq k) by lra. field. lra.
Qed.

Lemma beam_property_round_trips_witness :
  Beam.p 1 (Beam.set_p 1 (-3) (Beam.init 0 0 0 0)) = Rabs (-3).
Proof.
  destruct (@beam_property_round_trips 1 (Beam.init 0 0 0 0) (-3))
    as (_ & _ & _ & _ & Hp & _); [lra | exact Hp].
Defined.

(* ------------------------------------------------------------------ *)
(** * [Twiss(beam)] *)

(** X17.  [Twiss(beam)] copies the optics of the beam; when both beta
    functions are non-zero its gammas satisfy beta*gamma - alpha^2 = 1
    in each plane, and when either beta is zero both gammas are 0, also
    the one whose own beta is not zero. *)
Theorem twiss_from_beam_gamma (m_e_GeV : R) (beam : Beam.t) :
  let tws := Twiss_init m_e_GeV (Some beam) in
  Twiss.beta_x tws = Beam.beta_x beam /\ Twiss.alpha_x tws = Beam.alpha_x beam /\
  Twiss.beta_y tws = Beam.beta_y beam /\ Twiss.alpha_y tws = Beam.alpha_y beam /\
  (Beam.beta_x beam <> 0 -> Beam.beta_y beam <> 0 ->
   Twiss.beta_x tws * Twiss.gamma_x tws - Twiss.alpha_x tws ^ 2 = 1 /\
   Twiss.beta_y tws * Twiss.gamma_y tws - Twiss.alpha_y tws ^ 2 = 1) /\
  (Beam.beta_x beam = 0 \/ Beam.beta_y beam = 0 ->
   Twiss.gamma_x tws = 0 /\ Twiss.gamma_y tws = 0).
Proof.
  intros tws. unfold tws, Twiss_init.
  cbn [Twiss.beta_x Twiss.beta_y Twiss.alpha_x Twiss.alpha_y Twiss.gamma_x
       Twiss.gamma_y].
  repeat split; try reflexivity.
  - unfold Rneqb. destruct (Req_dec_T (Beam.beta_x beam) 0); [contradiction|].
    destruct (Req_dec_T (Beam.beta_y beam) 0); [contradiction|].
    cbn [negb orb]. field. assumption.
  - unfold Rneqb. destruct (Req_dec_T (Beam.beta_x beam) 0); [contradiction|].
    destruct (Req_dec_T (Beam.beta_y beam) 0); [contradiction|].
    cbn [negb orb]. field. assumption.
  - unfold Rneqb. destruct (Req_dec_T (Beam.beta_x beam) 0);
      destruct (Req_dec_T (Beam.beta_y beam) 0); cbn [negb orb]; try reflexivity.
    destruct H; contradiction.
  - unfold Rneqb. destruct (Req_dec_T (Beam.beta_x beam) 0);
      destruct (Req_dec_T (Beam.beta_y beam) 0); cbn [negb orb]; try reflexivity.
    destruct H; contradiction.
Qed.

(* ------------------------------------------------------------------ *)
(** * The phase-space samplers *)

Lemma courant_snyder_point (a beta alpha phi : R) :
  0 < beta ->
  courant_snyder alpha beta
    (a * sqrt beta * cos phi, - a / sqrt beta * (sin phi + alpha * cos phi))
  = a * a.
Proof.
  intros Hb. unfold courant_snyder. cbn [fst snd].
  destruct (sqrt_pos_sq Hb) as [Hr Hs].
  pose proof (sin2_cos2 phi) as Hsc. unfold Rsqr in Hsc.
  set (r := sqrt beta) in *. rewrite <- Hs.
  set (c := cos phi) in *. set (s := sin phi) in *.
  transitivity (a * a * (s * s + c * c)); [field; lra|].
  rewrite Hsc. ring.
Qed.

(** X18.  For beta > 0 and emit >= 0 the three samplers return points
    whose Courant-Snyder invariant gamma x^2 + 2 alpha x x' + beta x'^2
    is: exactly [emit] for [ellipse_from_twiss] (the point lies on the
    emittance ellipse); [emit * r^2 <= emit] for [waterbag_from_twiss],
    with r the second draw (inside the ellipse for emit > 0);
    [-2 ln(1 - u) emit] for [gauss_from_twiss], with u the second draw. *)
Theorem samplers_courant_snyder (emit beta alpha rand1 rand2 : R) :
  0 < beta -> 0 <= emit -> 0 <= rand2 < 1 ->
  courant_snyder alpha beta (ellipse_from_twiss emit beta alpha rand1) = emit /\
  courant_snyder alpha beta (waterbag_from_twiss emit beta alpha rand1 rand2)
    = emit * rand2 ^ 2 /\
  courant_snyder alpha beta (waterbag_from_twiss emit beta alpha rand1 rand2) <= emit /\
  courant_snyder alpha beta (gauss_from_twiss emit beta alpha rand1 rand2)
    = - 2 * ln (1 - rand2) * emit.
Proof.
  intros Hb He Hr.
  unfold ellipse_from_twiss, waterbag_from_twiss, gauss_from_twiss. cbv zeta.
  rewrite !courant_snyder_point by exact Hb.
  assert (Hw : sqrt emit * rand2 * (sqrt emit * rand2) = emit * rand2 ^ 2).
  { transitivity (sqrt emit * sqrt emit * rand2 ^ 2); [ring|].
    rewrite sqrt_sqrt by exact He. reflexivity. }
  split; [apply sqrt_sqrt; exact He|].
  split; [exact Hw|]. split.
  - rewrite Hw. assert (rand2 ^ 2 <= 1) by nra. nra.
  - apply sqrt_sqrt.
    assert (Hln : ln (1 - rand2) <= 0).
    { destruct (Req_dec_T rand2 0) as [->|Hne].
      - rewrite Rminus_0_r, ln_1. lra.
      - assert (ln (1 - rand2) < ln 1) by (apply ln_increasing; lra).
        rewrite ln_1 in H. lra. }
    nra.
Qed.

Lemma samplers_courant_snyder_witness :
  courant_snyder 1 2 (ellipse_from_twiss 3 2 1 0.25) = 3.
Proof.
  destruct (@samplers_courant_snyder 3 2 1 0.25 0.5) as (H & _); [lra | lra | lra | exact H].
Defined.

(* ------------------------------------------------------------------ *)
(** * [simple_filter]: edge cases, wide windows, linearity *)

Lemma list_eq_nth (l1 l2 : list R) :
  length l1 = length l2 ->
  (forall i, (i < length l1)%nat -> nth i l1 0 = nth i l2 0) -> l1 = l2.
Proof. intros Hlen H. apply (nth_ext l1 l2 0 0 Hlen H). Qed.

Lemma nth_repeat_R (c : R) (n i : nat) : (i < n)%nat -> nth i (repeat c n) 0 = c.
Proof.
  revert i. induction n as [|n IH]; intros [|i] H; cbn; try lia; try reflexivity.
  apply IH. lia.
Qed.

Lemma boxcar_pass_zero_halfwidth (x : list R) : boxcar_pass 0 x = x.
Proof.
  change (boxcar_pass 0 x) with (boxcar_pass (Z.of_nat 0) x).
  apply list_eq_nth; [apply boxcar_pass_length|].
  intros i Hi. rewrite boxcar_pass_length in Hi.
  rewrite (@boxcar_pass_nth 0 x i Hi). unfold boxcar_average.
  rewrite Nat.sub_0_r, Nat.add_0_r.
  replace (Nat.min i (length x - 1)) with i by lia.
  replace (i - i + 1)%nat with 1%nat by lia.
  assert (Hs : firstn 1 (skipn i x) = [nth i x 0]).
  { clear -Hi. revert i Hi. induction x as [|a x IH]; intros [|i] Hi; cbn in *;
      try lia; try reflexivity. apply IH. lia. }
  rewrite Hs, np_sum_cons, np_sum_nil. cbn [INR]. field.
Qed.

(** X19.  Edge cases of [simple_filter]: a negative iteration count
    raises UnboundLocalError (the loop body never runs and [y] is read
    unbound); with half-width 0 every pass is the identity, so the input
    comes back for every count >= 0; an empty array stays empty. *)
Theorem simple_filter_edge_cases (x : list R) (p K : Z) :
  ((K < 0)%Z -> simple_filter x p K = Raise UnboundLocalError) /\
  ((0 <= K)%Z -> simple_filter x 0 K = Ok x) /\
  ((0 <= K)%Z -> simple_filter [] p K = Ok []).
Proof.
  unfold simple_filter. repeat split; intros HK.
  - destruct (Z.eqb_spec K 0); [lia|].
    replace (Z.to_nat K) with 0%nat by lia. reflexivity.
  - destruct (Z.eqb_spec K 0); [reflexivity|].
    destruct (Z.to_nat K) as [|k] eqn:Ek; [lia|].
    rewrite filter_loop_iter. f_equal.
    generalize (S k) as m. clear. induction m as [|m IH]; [reflexivity|].
    rewrite Nat.iter_succ, IH. apply boxcar_pass_zero_halfwidth.
  - destruct (Z.eqb_spec K 0); [reflexivity|].
    destruct (Z.to_nat K) as [|k] eqn:Ek; [lia|].
    rewrite filter_loop_iter. f_equal.
    generalize (S k) as m. clear. induction m as [|m IH]; [reflexivity|].
    rewrite Nat.iter_succ, IH. reflexivity.
Qed.

(** A pass whose window covers the whole array puts the mean everywhere. *)
Lemma boxcar_pass_wide (p : nat) (x : list R) :
  (length x - 1 <= p)%nat ->
  boxcar_pass (Z.of_nat p) x = repeat (np_mean x) (length x).
Proof.
  intros Hp. apply list_eq_nth.
  - rewrite boxcar_pass_length, repeat_length. reflexivity.
  - intros i Hi. rewrite boxcar_pass_length in Hi.
    rewrite (@boxcar_pass_nth p x i Hi), nth_repeat_R by exact Hi.
    unfold boxcar_average.
    replace (i - p)%nat with 0%nat by lia.
    replace (Nat.min (i + p) (length x - 1)) with (length x - 1)%nat by lia.
    replace (length x - 1 - 0 + 1)%nat with (length x) by lia.
    cbn [skipn]. rewrite firstn_all. reflexivity.
Qed.

(** A pass leaves a constant array as it is. *)
Lemma boxcar_pass_constant (p : nat) (c : R) (n : nat) :
  boxcar_pass (Z.of_nat p) (repeat c n) = repeat c n.
Proof.
  apply list_eq_nth; [apply boxcar_pass_length|].
  intros i Hi. rewrite boxcar_pass_length, repeat_length in Hi.
  rewrite nth_repeat_R by exact Hi.
  assert (Hb : forall v, In v (repeat c n) -> c <= v <= c).
  { intros v Hv. apply repeat_spec in Hv. subst v. lra. }
  pose proof (@boxcar_pass_bounds p (repeat c n) c c Hb
                (nth i (boxcar_pass (Z.of_nat p) (repeat c n)) 0)) as H.
  assert (Hin : In (nth i (boxcar_pass (Z.of_nat p) (repeat c n)) 0)
                   (boxcar_pass (Z.of_nat p) (repeat c n))).
  { apply nth_In. now rewrite boxcar_pass_length, repeat_length. }
  specialize (H Hin). lra.
Qed.

(** X20.  With a half-width of at least [len(x) - 1] every window is
    the whole array: for any positive iteration count [simple_filter]
    returns the array whose every entry is the mean of the input. *)
Theorem simple_filter_wide_window_is_mean (x : list R) (p K : Z) :
  (Z.of_nat (length x) - 1 <= p)%Z -> (0 <= p)%Z -> (0 < K)%Z ->
  simple_filter x p K = Ok (repeat (np_mean x) (length x)).
Proof.
  intros Hp Hp0 HK. unfold simple_filter.
  destruct (Z.eqb_spec K 0); [lia|].
  destruct (Z.to_nat K) as [|k] eqn:Ek; [lia|].
  rewrite filter_loop_iter. f_equal.
  assert (Ep : p = Z.of_nat (Z.to_nat p)) by lia.
  set (pn := Z.to_nat p) in *. clearbody pn. subst p.
  clear Ek. induction k as [|k IH].
  - cbn [Nat.iter]. apply boxcar_pass_wide. lia.
  - change (Nat.iter (S (S k)) (boxcar_pass (Z.of_nat pn)) x)
      with (boxcar_pass (Z.of_nat pn) (Nat.iter (S k) (boxcar_pass (Z.of_nat pn)) x)).
    rewrite IH. apply boxcar_pass_constant.
Qed.

Lemma simple_filter_wide_window_is_mean_witness :
  simple_filter [1; 2; 6] 2 3 = Ok (repeat (np_mean [1; 2; 6]) 3).
Proof.
  apply (@simple_filter_wide_window_is_mean [1; 2; 6] 2 3); cbn; lia.
Defined.

Lemma firstn_map2 {A B C} (f : A -> B -> C) (n : nat) (l1 : list A) (l2 : list B) :
  firstn n (map2 f l1 l2) = map2 f (firstn n l1) (firstn n l2).
Proof.
  revert l1 l2. induction n as [|n IH]; intros [|a l1] [|b l2]; cbn [firstn map2];
    try reflexivity. now rewrite IH.
Qed.

Lemma skipn_map2 {A B C} (f : A -> B -> C) (n : nat) (l1 : list A) (l2 : list B) :
  length l1 = length l2 ->
  skipn n (map2 f l1 l2) = map2 f (skipn n l1) (skipn n l2).
Proof.
  revert l1 l2. induction n as [|n IH]; intros [|a l1] [|b l2] H; cbn [skipn map2];
    try reflexivity; try discriminate H.
  apply IH. simpl in H. lia.
Qed.

Lemma nth_map2_R (f : R -> R -> R) (l1 l2 : list R) (i : nat) :
  (i < length l1)%nat -> length l1 = length l2 ->
  nth i (map2 f l1 l2) 0 = f (nth i l1 0) (nth i l2 0).
Proof.
  revert l2 i. induction l1 as [|a l1 IH]; intros [|b l2] i Hi Hlen; cbn in *;
    try lia.
  destruct i as [|i]; [reflexivity|]. apply IH; lia.
Qed.

(** One pass is linear in the array. *)
Lemma boxcar_pass_linear (p : nat) (a b : R) (x y : list R) :
  length x = length y ->
  boxcar_pass (Z.of_nat p) (map2 (fun u v => a * u + b * v) x y)
  = map2 (fun u v => a * u + b * v)
         (boxcar_pass (Z.of_nat p) x) (boxcar_pass (Z.of_nat p) y).
Proof.
  intros Hlen.
  assert (Hl : length (map2 (fun u v => a * u + b * v) x y) = length x)
    by (now apply map2_length).
  apply list_eq_nth.
  - rewrite boxcar_pass_length, Hl, map2_length by (now rewrite !boxcar_pass_length).
    now rewrite boxcar_pass_length.
  - intros i Hi. rewrite boxcar_pass_length, Hl in Hi.
    rewrite nth_map2_R by (rewrite !boxcar_pass_length; congruence).
    rewrite !boxcar_pass_nth by congruence.
    unfold boxcar_average. rewrite Hl, <- Hlen.
    set (lo := (i - p)%nat). set (k := (Nat.min (i + p) (length x - 1) - lo + 1)%nat).
    rewrite skipn_map2, firstn_map2 by exact Hlen.
    rewrite np_sum_map2_linear
      by (rewrite !length_firstn, !length_skipn; congruence).
    unfold Rdiv. ring.
Qed.

Lemma iter_pass_linear (k p : nat) (a b : R) (x y : list R) :
  length x = length y ->
  Nat.iter k (boxcar_pass (Z.of_nat p)) (map2 (fun u v => a * u + b * v) x y)
  = map2 (fun u v => a * u + b * v)
         (Nat.iter k (boxcar_pass (Z.of_nat p)) x)
         (Nat.iter k (boxcar_pass (Z.of_nat p)) y).
Proof.
  intros Hlen. induction k as [|k IH]; [reflexivity|].
  rewrite !Nat.iter_succ, IH. apply boxcar_pass_linear.
  rewrite !iter_pass_length. exact Hlen.
Qed.

(** X21.  [simple_filter] is linear: on two arrays of one length, the
    filter of [a*x + b*y] is [a] times the filter of [x] plus [b] times
    the filter of [y], for every half-width >= 0 and count >= 0. *)
Theorem simple_filter_linear (a b : R) (x y : list R) (p K : Z) :
  length x = length y -> (0 <= p)%Z -> (0 <= K)%Z ->
  exists fx fy,
    simple_filter x p K = Ok fx /\
    simple_filter y p K = Ok fy /\
    simple_filter (map2 (fun u v => a * u + b * v) x y) p K
    = Ok (map2 (fun u v => a * u + b * v) fx fy).
Proof.
  intros Hlen Hp HK. unfold simple_filter.
  destruct (Z.eqb_spec K 0); [do 2 eexists; repeat split; reflexivity|].
  destruct (Z.to_nat K) as [|k] eqn:Ek; [lia|].
  rewrite !filter_loop_iter.
  do 2 eexists. split; [reflexivity|]. split; [reflexivity|]. f_equal.
  assert (Ep : p = Z.of_nat (Z.to_nat p)) by lia.
  rewrite Ep. apply iter_pass_linear. exact Hlen.
Qed.

Lemma simple_filter_linear_witness :
  exists fx fy,
    simple_filter [1; 2; 6] 1 2 = Ok fx /\
    simple_filter [0; 1; 0] 1 2 = Ok fy /\
    simple_filter (map2 (fun u v => 2 * u + 3 * v) [1; 2; 6] [0; 1; 0]) 1 2
    = Ok (map2 (fun u v => 2 * u + 3 * v) fx fy).
Proof.
  apply (@simple_filter_linear 2 3 [1; 2; 6] [0; 1; 0] 1 2); [reflexivity | lia | lia].
Defined.

(* ------------------------------------------------------------------ *)
(** * [recalculate_ref_particle]: a second call, and the empty array *)

Lemma map_minus_0 (l : list R) : map (fun v => v - 0) l = l.
Proof.
  rewrite (map_ext _ (fun v => v)) by (intros v; lra). apply map_id.
Qed.

(** X22.  [recalculate_ref_particle] is idempotent on a 6 x N array with
    N > 0: a second call returns the array of the first call unchanged
    (particle 0 is then the reference particle).  The reference energy
    is taken at or above the rest energy before and after the first
    call, so that both square roots are those of non-negative numbers.
    On an array without particles the call raises IndexError. *)
Theorem recalculate_ref_particle_idempotent (m_e_GeV : R) (pa : ParticleArray.t) :
  ParticleArray.shape_ok pa ->
  0 < m_e_GeV <= ParticleArray.E pa ->
  ((0 < ParticleArray.columns pa)%nat ->
   m_e_GeV <= ParticleArray.E pa
              + nth 0 (ParticleArray.p pa) 0
                * sqrt (ParticleArray.E pa ^ 2 / m_e_GeV ^ 2 - 1) * m_e_GeV ->
   exists pa',
     recalculate_ref_particle m_e_GeV pa = Ok pa' /\
     recalculate_ref_particle m_e_GeV pa' = Ok pa') /\
  (ParticleArray.columns pa = 0%nat ->
   recalculate_ref_particle m_e_GeV pa = Raise IndexError).
Proof.
  intros Hshape _.
  destruct (shape_ok_rows Hshape)
    as (r0 & r1 & r2 & r3 & r4 & r5 & Hr & H1 & H2 & H3 & H4 & H5).
  destruct pa as [rp q s E]. cbn [ParticleArray.rparticles] in Hr. subst rp.
  unfold ParticleArray.columns, ParticleArray.row. cbn [ParticleArray.rparticles nth].
  split.
  - intros Hpos _.
    destruct r4 as [|t0 r4]; [cbn in H4; lia|].
    destruct r5 as [|p0 r5]; [cbn in H5; lia|].
    unfold recalculate_ref_particle, ParticleArray.p, ParticleArray.tau,
      ParticleArray.row.
    cbn [ParticleArray.rparticles ParticleArray.q_array ParticleArray.s
         ParticleArray.E nth getitem nth_error Py.bind set_row map].
    eexists. split; [reflexivity|].
    cbn [ParticleArray.rparticles ParticleArray.q_array ParticleArray.s
         ParticleArray.E nth getitem nth_error Py.bind set_row map].
    f_equal.
    replace (p0 - p0) with 0 by lra. replace (t0 - t0) with 0 by lra.
    rewrite !map_minus_0.
    replace (0 - 0) with 0 by lra.
    f_equal; lra.
  - intros Hzero.
    destruct r0; [|discriminate Hzero].
    destruct r5; [|discriminate H5].
    reflexivity.
Qed.

Lemma recalculate_ref_particle_idempotent_witness :
  exists pa',
    recalculate_ref_particle 1
      (ParticleArray.mk [[1]; [2]; [3]; [4]; [5]; [6]] [7] 8 9) = Ok pa' /\
    recalculate_ref_particle 1 pa' = Ok pa'.
Proof.
  destruct (@recalculate_ref_particle_idempotent 1
              (ParticleArray.mk [[1]; [2]; [3]; [4]; [5]; [6]] [7] 8 9))
    as [Hrun _].
  - split; [reflexivity|]. repeat constructor.
  - cbn [ParticleArray.E]. lra.
  - apply Hrun; [cbv; lia|].
    cbn [ParticleArray.E ParticleArray.p ParticleArray.row ParticleArray.rparticles nth].
    assert (0 <= sqrt (9 ^ 2 / 1 ^ 2 - 1)) by apply sqrt_pos. nra.
Defined.

(* ------------------------------------------------------------------ *)
(** * [argsort] and [sortrows] *)

Lemma insert_by_key_perm (z : list R) (i : nat) (l : list nat) :
  Permutation (insert_by_key z i l) (i :: l).
Proof.
  induction l as [|j l IH]; cbn [insert_by_key]; [reflexivity|].
  destruct (Rle_dec (nth i z 0) (nth j z 0)); [reflexivity|].
  rewrite IH. apply perm_swap.
Qed.

Lemma argsort_perm (z : list R) : Permutation (argsort z) (seq 0 (length z)).
Proof.
  unfold argsort. induction (seq 0 (length z)) as [|i s IH]; cbn [fold_right].
  - reflexivity.
  - rewrite insert_by_key_perm. now constructor.
Qed.

Lemma insert_by_key_sorted (z : list R) (i : nat) (l : list nat) :
  Sorted (fun a b => nth a z 0 <= nth b z 0) l ->
  Sorted (fun a b => nth a z 0 <= nth b z 0) (insert_by_key z i l).
Proof.
  induction l as [|j l IH]; intros Hs; cbn [insert_by_key].
  - repeat constructor.
  - destruct (Rle_dec (nth i z 0) (nth j z 0)) as [Hle|Hgt].
    + constructor; [exact Hs | constructor; exact Hle].
    + inversion Hs as [|? ? Hs' Hd]; subst.
      constructor; [apply IH; exact Hs'|].
      destruct l as [|m l]; cbn [insert_by_key].
      * constructor. lra.
      * destruct (Rle_dec (nth i z 0) (nth m z 0)).
        -- constructor. lra.
        -- inversion Hd; subst. constructor. assumption.
Qed.

Lemma argsort_sorts (z : list R) :
  Sorted (fun a b => nth a z 0 <= nth b z 0) (argsort z).
Proof.
  unfold argsort. induction (seq 0 (length z)) as [|i s IH]; cbn [fold_right].
  - constructor.
  - apply insert_by_key_sorted. exact IH.
Qed.

Lemma take_pick (r : list R) (idxs : list nat) :
  Forall (fun i => i < length r)%nat idxs -> take r idxs = Ok (pick r idxs).
Proof.
  unfold take, pick. induction 1 as [|i idxs Hi Hall IH]; [reflexivity|].
  cbn [mapM map]. rewrite getitem_nth by exact Hi. rewrite IH. reflexivity.
Qed.

Lemma mapM_all_Ok {A B} (f : A -> result B) (g : A -> B) (l : list A) :
  (forall a, In a l -> f a = Ok (g a)) -> mapM f l = Ok (map g l).
Proof.
  induction l as [|a l IH]; intros H; [reflexivity|].
  cbn [mapM map]. rewrite (H a (or_introl eq_refl)).
  rewrite IH by (intros b Hb; apply H; now right). reflexivity.
Qed.

Lemma Sorted_map_key (z : list R) (l : list nat) :
  Sorted (fun a b => nth a z 0 <= nth b z 0) l -> Sorted Rle (pick z l).
Proof.
  unfold pick. induction 1 as [|a l Hs IH Hd]; cbn [map]; constructor.
  - exact IH.
  - destruct Hd as [|b l Hab]; cbn [map]; constructor. exact Hab.
Qed.

(** X23.  [sortrows] on a rectangular array reorders the columns by one
    permutation of the column indices, the same for every row, so that
    row [col] comes out in non-decreasing order; [col] may be negative
    (counted from the last row) and outside [-rows, rows) the call
    raises IndexError. *)
Theorem sortrows_sorts_columns (x : list (list R)) (col : Z) (n : nat) :
  Forall (fun r => length r = n) x ->
  ((- Z.of_nat (length x) <= col < Z.of_nat (length x))%Z ->
   exists perm key,
     getitemZ x col = Ok key /\
     Permutation perm (seq 0 n) /\
     sortrows x col = Ok (map (fun r => pick r perm) x) /\
     Sorted Rle (pick key perm)) /\
  (~ (- Z.of_nat (length x) <= col < Z.of_nat (length x))%Z ->
   sortrows x col = Raise IndexError).
Proof.
  intros Hrect. split.
  - intros Hcol.
    destruct (@norm_index_inside _ _ Hcol) as (k & Hk & Hlt & _).
    assert (Hkey : getitemZ x col = getitem x k).
    { rewrite getitemZ_norm_index, Hk. reflexivity. }
    destruct (getitem_Ok_lt x Hlt) as (key & Hget & Hnth).
    assert (Hlen : length key = n).
    { rewrite Forall_forall in Hrect. apply Hrect.
      eapply nth_error_In. exact Hnth. }
    exists (argsort key), key.
    split; [now rewrite Hkey|]. split; [rewrite <- Hlen; apply argsort_perm|].
    split.
    + unfold sortrows. rewrite Hkey, Hget. cbn [Py.bind].
      apply mapM_all_Ok. intros r Hr. apply take_pick.
      rewrite Forall_forall in Hrect. rewrite (Hrect r Hr), <- Hlen.
      apply Forall_forall. intros i Hi.
      apply (Permutation_in _ (argsort_perm key)) in Hi. apply in_seq in Hi. lia.
    + apply Sorted_map_key. apply argsort_sorts.
  - intros Hcol. unfold sortrows.
    rewrite getitemZ_norm_index, (@norm_index_outside _ _ Hcol). reflexivity.
Qed.

Lemma sortrows_sorts_columns_witness :
  exists perm key,
    getitemZ [[1; 2; 3]; [30; 10; 20]] (-1) = Ok key /\
    Permutation perm (seq 0 3) /\
    sortrows [[1; 2; 3]; [30; 10; 20]] (-1)
    = Ok (map (fun r => pick r perm) [[1; 2; 3]; [30; 10; 20]]) /\
    Sorted Rle (pick key perm).
Proof.
  destruct (@sortrows_sorts_columns [[1; 2; 3]; [30; 10; 20]] (-1) 3) as [H _].
  - repeat constructor.
  - apply H. cbn. lia.
Defined.

(* ------------------------------------------------------------------ *)
(** * [convmode]: what each mode returns *)

Lemma floor_half (n : nat) :
  Z.to_nat (Zfloor (INR n * 0.5)) = (n / 2)%nat.
Proof.
  pose proof (Nat.div_mod_eq n 2) as Hn.
  pose proof (Nat.mod_upper_bound n 2 ltac:(lia)) as Hr.
  rewrite (Zfloor_eq (Z.of_nat (n / 2))); [apply Nat2Z.id|].
  rewrite <- INR_IZR_INZ.
  assert (E : INR n = 2 * INR (n / 2) + INR (n mod 2)).
  { rewrite Hn at 1. rewrite plus_INR, mult_INR. cbn [INR]. lra. }
  rewrite E.
  assert (H0 : 0 <= INR (n mod 2)) by apply pos_INR.
  assert (H1 : INR (n mod 2) <= 1).
  { replace 1 with (INR 1) by reflexivity. apply le_INR. lia. }
  lra.
Qed.

(** X24.  [convmode(A, B, mode)]: mode 2 is the full convolution of
    [len(A) + len(B) - 1] entries; mode 1 is its [len(A)] entries from
    index [len(B) // 2] on (the part centred on [A] for a kernel of odd
    length); any other mode returns the empty list without looking at
    the arrays; modes 1 and 2 raise ValueError when an array is empty. *)
Theorem convmode_by_mode (A B : list R) (mode : Z) :
  (mode <> 1%Z -> mode <> 2%Z -> convmode A B mode = Ok []) /\
  (A <> [] -> B <> [] ->
   convmode A B 2 = Ok (map (conv_at A B) (seq 0 (length A + length B - 1))) /\
   convmode A B 1 = Ok (map (conv_at A B) (seq (length B / 2) (length A)))) /\
  (A = [] \/ B = [] ->
   convmode A B 1 = Raise ValueError /\ convmode A B 2 = Raise ValueError).
Proof.
  split; [|split].
  - intros H1 H2. unfold convmode.
    destruct (Z.eqb_spec mode 2); [contradiction|]. cbn [Py.bind].
    destruct (Z.eqb_spec mode 1); [contradiction|]. reflexivity.
  - intros HA HB. unfold convmode. cbn [Z.eqb Pos.eqb Py.bind].
    rewrite floor_half. unfold np_convolve.
    destruct A as [|a A]; [contradiction|]. destruct B as [|b B]; [contradiction|].
    cbn [Py.bind]. split; [reflexivity|]. f_equal.
    rewrite skipn_map, firstn_map, skipn_seq.
    rewrite firstn_seq_le.
    + cbn [skipn]. now rewrite app_nil_r.
    + pose proof (Nat.div_lt (length (b :: B)) 2). cbn [length] in *. lia.
  - intros [->| ->]; unfold convmode, np_convolve; cbn [Z.eqb Pos.eqb Py.bind].
    + split; reflexivity.
    + destruct A; split; reflexivity.
Qed.

(* ------------------------------------------------------------------ *)
(** * [s_to_cur]: moving the bunch *)

Lemma Rmin_shift (a b d : R) : Rmin (a + d) (b + d) = Rmin a b + d.
Proof. unfold Rmin. destruct (Rle_dec (a + d) (b + d)), (Rle_dec a b); lra. Qed.

Lemma Rmax_shift (a b d : R) : Rmax (a + d) (b + d) = Rmax a b + d.
Proof. unfold Rmax. destruct (Rle_dec (a + d) (b + d)), (Rle_dec a b); lra. Qed.

Lemma np_min_shift (d : R) (A : list R) :
  A <> [] -> np_min (map (fun x => x + d) A) = np_min A + d.
Proof.
  intros HA. destruct A as [|x A]; [contradiction|].
  unfold np_min. cbn [hd map].
  assert (H : forall h l, fold_right Rmin (h + d) (map (fun x => x + d) l)
                          = fold_right Rmin h l + d).
  { intros h l. induction l as [|z l IH]; cbn [fold_right map]; [reflexivity|].
    rewrite IH. apply Rmin_shift. }
  cbn [fold_right]. rewrite H. apply Rmin_shift.
Qed.

Lemma np_max_shift (d : R) (A : list R) :
  A <> [] -> np_max (map (fun x => x + d) A) = np_max A + d.
Proof.
  intros HA. destruct A as [|x A]; [contradiction|].
  unfold np_max. cbn [hd map].
  assert (H : forall h l, fold_right Rmax (h + d) (map (fun x => x + d) l)
                          = fold_right Rmax h l + d).
  { intros h l. induction l as [|z l IH]; cbn [fold_right map]; [reflexivity|].
    rewrite IH. apply Rmax_shift. }
  cbn [fold_right]. rewrite H. apply Rmax_shift.
Qed.

Lemma assign_slot_map (f : R -> R) (n : nat) (v : list R) :
  assign_slot n (map f v)
  = match assign_slot n v with
    | Ok w => Ok (map f w)
    | Raise e => Raise e
    end.
Proof.
  unfold assign_slot. rewrite length_map.
  destruct (length v =? n)%nat; [reflexivity|].
  destruct v as [|v0 [|v1 v]]; cbn [map]; try reflexivity.
  now rewrite map_repeat.
Qed.

Lemma combine_map_l {A B C} (f : A -> C) (l1 : list A) (l2 : list B) :
  combine (map f l1) l2 = map (fun ab => (f (fst ab), snd ab)) (combine l1 l2).
Proof.
  revert l2. induction l1 as [|a l1 IH]; intros [|b l2]; cbn [map combine];
    try reflexivity. now rewrite IH.
Qed.

(** X25.  [s_to_cur] does not depend on where the bunch sits: moving
    every particle by [d] moves the grid positions by [d] and leaves the
    currents, and any exception, as they are. *)
Theorem s_to_cur_translation (A : list R) (sigma q0 v d : R) :
  s_to_cur (map (fun x => x + d) A) sigma q0 v
  = match s_to_cur A sigma q0 v with
    | Ok B => Ok (map (fun row => (fst row + d, snd row)) B)
    | Raise e => Raise e
    end.
Proof.
  destruct A as [|x0 A0]; [reflexivity|].
  assert (HA : x0 :: A0 <> []) by discriminate.
  set (A := x0 :: A0) in *.
  unfold s_to_cur. cbv zeta.
  rewrite (np_min_shift d HA), (np_max_shift d HA).
  replace (match map (fun x => x + d) A with [] => Raise ValueError | _ :: _ => Ok tt end)
    with (@Ok unit tt) by reflexivity.
  replace (match A with [] => Raise ValueError | _ :: _ => Ok tt end)
    with (@Ok unit tt) by reflexivity.
  cbn [Py.bind].
  set (a := np_min A - 3 * sigma). set (b := np_max A + 3 * sigma).
  replace (np_max A + d + 3 * sigma - (np_min A + d - 3 * sigma)) with (b - a)
    by (unfold a, b; lra).
  destruct (Req_dec_T (0.25 * sigma) 0) as [E0|E0].
  { destruct (Req_dec_T (b - a) 0); reflexivity. }
  cbn [Py.bind].
  set (N := Zceil ((b - a) / (0.25 * sigma))).
  destruct (N + 1 <? 0)%Z; [reflexivity|]. cbn [Py.bind].
  destruct (N =? 0)%Z; [reflexivity|]. cbn [Py.bind].
  set (s := (b - a) / IZR N).
  destruct (np_arange 0 ((IZR N + 0.5) * s) s) as [grid|e]; [|reflexivity].
  cbn [Py.bind].
  replace (map (fun g => g + (np_min A + d - 3 * sigma)) grid)
    with (map (fun y => y + d) (map (fun g => g + a) grid))
    by (rewrite map_map; apply map_ext; intros g; unfold a; lra).
  rewrite assign_slot_map.
  destruct (assign_slot (Z.to_nat (N + 1)) (map (fun g => g + a) grid)) as [B0|e];
    [|reflexivity].
  cbn [Py.bind].
  replace (map (fun x => (x - (np_min A + d - 3 * sigma)) / s) (map (fun x => x + d) A))
    with (map (fun x => (x - a) / s) A)
    by (rewrite map_map; apply map_ext; intros x; unfold a; f_equal; lra).
  set (cA := map (fun x => (x - a) / s) A).
  destruct (deposit (Z.of_nat (Z.to_nat (N + 1))) (map Zfloor cA)
              (map2 (fun i c => 1 + IZR i - c) (map Zfloor cA) cA)
              (repeat 0 (Z.to_nat (N + 1)))) as [C|e]; [|reflexivity].
  cbn [Py.bind].
  match goal with
  | |- context [convmode C ?G 1] => destruct (convmode C G 1) as [conv|e]; [|reflexivity]
  end.
  cbn [Py.bind].
  destruct (assign_slot (Z.to_nat (N + 1)) conv) as [B1|e]; [|reflexivity].
  cbn [Py.bind]. f_equal. exact (combine_map_l (fun y => y + d) B0 _).
Qed.

(* ------------------------------------------------------------------ *)
(** * [slice_analysis]: the window of each particle *)

Lemma firstn_add {A} (a b : nat) (l : list A) :
  firstn (a + b) l = firstn a l ++ firstn b (skipn a l).
Proof.
  revert l. induction a as [|a IH]; intros l; [reflexivity|].
  destruct l as [|v l]; [rewrite skipn_nil, !firstn_nil; reflexivity|].
  cbn [Nat.add firstn skipn app]. now rewrite IH.
Qed.

Lemma getitemZ_nat {A} (l : list A) (i : nat) : getitemZ l (Z.of_nat i) = getitem l i.
Proof.
  unfold getitemZ. destruct (Z.ltb_spec (Z.of_nat i) 0); [lia|].
  now rewrite Nat2Z.id.
Qed.

Lemma np_cumsum_nth (l : list R) (k : nat) :
  (k < length l)%nat -> getitem (np_cumsum l) k = Ok (np_sum (firstn (S k) l)).
Proof.
  intros Hk. unfold getitem, np_cumsum. rewrite cumsum_from_nth by exact Hk.
  f_equal. lra.
Qed.

Section Window.

Variables (N : nat) (m : Z).
Hypothesis HN : (2 <= N)%nat.
Hypothesis Hm : (1 <= m)%Z.

Let n1 (i : nat) : nat := Z.to_nat (slice_n1 m (Z.of_nat i)).
Let n2 (i : nat) : nat := Z.to_nat (slice_n2 (Z.of_nat N) m (Z.of_nat i)).

Lemma window_bounds (i : nat) :
  (i < N)%nat -> (n1 i < n2 i < N)%nat /\ (n1 i <= i <= n2 i)%nat.
Proof. intros Hi. unfold n1, n2, slice_n1, slice_n2. lia. Qed.

(** The quotient of the source is the mean over the window [(n1, n2]]. *)
Lemma window_quotient_mean (l : list R) (i : nat) :
  length l = N -> (i < N)%nat ->
  window_quotient (Z.of_nat N) m (np_cumsum l) (Z.of_nat i)
  = Ok (window_mean l (n1 i) (n2 i)).
Proof.
  intros Hl Hi. destruct (window_bounds Hi) as [[H12 H2N] _].
  unfold window_quotient.
  assert (E1 : slice_n1 m (Z.of_nat i) = Z.of_nat (n1 i))
    by (unfold n1, slice_n1; lia).
  assert (E2 : slice_n2 (Z.of_nat N) m (Z.of_nat i) = Z.of_nat (n2 i))
    by (unfold n2, slice_n2; lia).
  rewrite E1, E2, !getitemZ_nat, !np_cumsum_nth by lia. cbn [Py.bind].
  f_equal. unfold window_mean.
  replace (S (n2 i)) with (S (n1 i) + (n2 i - n1 i))%nat by lia.
  rewrite firstn_add, np_sum_app.
  rewrite <- Nat2Z.inj_sub by lia. rewrite <- INR_IZR_INZ.
  f_equal. lra.
Qed.

End Window.

Lemma nth_map_range (f : Z -> R) (n i : nat) :
  (i < n)%nat -> nth i (map f (Py.range 0 (Z.of_nat n))) 0 = f (Z.of_nat i).
Proof.
  intros Hi. rewrite range_nat, map_map.
  rewrite (nth_indep _ 0 ((fun k => f (Z.of_nat k)) 0%nat))
    by (rewrite length_map, length_seq; exact Hi).
  rewrite (map_nth (fun k => f (Z.of_nat k))). now rewrite seq_nth.
Qed.

Lemma mapM_range_Ok {B} (f : Z -> result B) (g : Z -> B) (n : nat) :
  (forall i, (i < n)%nat -> f (Z.of_nat i) = Ok (g (Z.of_nat i))) ->
  mapM f (Py.range 0 (Z.of_nat n)) = Ok (map g (Py.range 0 (Z.of_nat n))).
Proof.
  intros H. apply mapM_all_Ok. intros a Ha.
  rewrite range_nat in Ha. apply in_map_iff in Ha. destruct Ha as [i [<- Hi]].
  apply in_seq in Hi. apply H. lia.
Qed.

(** X26.  Without sorting, on two arrays of one length N >= 2,
    [slice_analysis] raises nothing and returns six arrays of length N.
    With m = max(round(M/2), 1), n1 = max(0, i-m), n2 = min(N-1, i+m):
    [mx[i]] and [mxs[i]] are the means of x and xs over the particles
    n1+1, ..., n2 (particle n1 is left out, so the window is not centred
    on i); [mxx[i]], [mxsxs[i]], [mxxs[i]] are the means over the same
    particles of the products of the deviations [x[j] - mx[j]] and
    [xs[j] - mxs[j]], each particle j being centred on the mean of its
    own window; [emittx[i]] is sqrt(mxx*mxsxs - mxxs^2) at i. *)
Theorem slice_analysis_windows (z x xs : list R) (M : R) :
  (2 <= length x)%nat -> length xs = length x ->
  let N := length x in
  let m := Z.max (np_round (M / 2)) 1 in
  let n1 := fun i => Z.to_nat (slice_n1 m (Z.of_nat i)) in
  let n2 := fun i => Z.to_nat (slice_n2 (Z.of_nat N) m (Z.of_nat i)) in
  exists mx mxs mxx mxxs mxsxs emittx,
    slice_analysis z x xs M false = Ok [mx; mxs; mxx; mxxs; mxsxs; emittx] /\
    length mx = N /\ length mxs = N /\ length mxx = N /\ length mxxs = N /\
    length mxsxs = N /\ length emittx = N /\
    let dx := map2 Rminus x mx in
    let dxs := map2 Rminus xs mxs in
    forall i, (i < N)%nat ->
      (n1 i < n2 i < N)%nat /\
      nth i mx 0 = window_mean x (n1 i) (n2 i) /\
      nth i mxs 0 = window_mean xs (n1 i) (n2 i) /\
      nth i mxx 0 = window_mean (map2 Rmult dx dx) (n1 i) (n2 i) /\
      nth i mxsxs 0 = window_mean (map2 Rmult dxs dxs) (n1 i) (n2 i) /\
      nth i mxxs 0 = window_mean (map2 Rmult dx dxs) (n1 i) (n2 i) /\
      nth i emittx 0
      = sqrt (nth i mxx 0 * nth i mxsxs 0 - nth i mxxs 0 * nth i mxxs 0).
Proof.
  intros HN Hxs N m n1 n2.
  assert (Hm : (1 <= m)%Z) by (unfold m; lia).
  assert (Hrange : length (Py.range 0 (Z.of_nat N)) = N)
    by (rewrite range_length; lia).
  unfold slice_analysis. cbn [Py.bind]. fold N. fold m.
  (* first loop *)
  rewrite (@mapM_range_Ok _ _
             (fun i => (window_mean x (n1 (Z.to_nat i)) (n2 (Z.to_nat i)),
                        window_mean xs (n1 (Z.to_nat i)) (n2 (Z.to_nat i))))).
  2:{ intros i Hi. rewrite Nat2Z.id.
      rewrite (@window_quotient_mean N m HN Hm x i) by (reflexivity || exact Hi).
      rewrite (@window_quotient_mean N m HN Hm xs i) by (exact Hxs || exact Hi).
      reflexivity. }
  cbn [Py.bind]. rewrite !map_map. cbn [fst snd].
  set (mx := map (fun i => window_mean x (n1 (Z.to_nat i)) (n2 (Z.to_nat i)))
                 (Py.range 0 (Z.of_nat N))).
  set (mxs := map (fun i => window_mean xs (n1 (Z.to_nat i)) (n2 (Z.to_nat i)))
                  (Py.range 0 (Z.of_nat N))).
  assert (Hmx : length mx = N) by (unfold mx; now rewrite length_map).
  assert (Hmxs : length mxs = N) by (unfold mxs; now rewrite length_map).
  rewrite (@np_broadcast2_same _ _ _ Rminus x mx) by (unfold N in *; congruence). cbn [Py.bind].
  rewrite (@np_broadcast2_same _ _ _ Rminus xs mxs) by (unfold N in *; congruence). cbn [Py.bind].
  set (dx := map2 Rminus x mx). set (dxs := map2 Rminus xs mxs).
  assert (Hdx : length dx = N) by (unfold dx; rewrite map2_length; unfold N in *; congruence).
  assert (Hdxs : length dxs = N) by (unfold dxs; rewrite map2_length; unfold N in *; congruence).
  rewrite !np_broadcast2_same by (unfold N in *; congruence). cbn [Py.bind].
  (* second loop *)
  rewrite (@mapM_range_Ok _ _
             (fun i => (window_mean (map2 Rmult dx dx) (n1 (Z.to_nat i)) (n2 (Z.to_nat i)),
                        window_mean (map2 Rmult dxs dxs) (n1 (Z.to_nat i)) (n2 (Z.to_nat i)),
                        window_mean (map2 Rmult dx dxs) (n1 (Z.to_nat i)) (n2 (Z.to_nat i))))).
  2:{ intros i Hi. rewrite Nat2Z.id.
      rewrite !(@window_quotient_mean N m HN Hm)
        by (exact Hi || (rewrite map2_length; unfold N in *; congruence)).
      reflexivity. }
  cbn [Py.bind]. rewrite !map_map. cbn [fst snd].
  set (mxx := map (fun i => window_mean (map2 Rmult dx dx) (n1 (Z.to_nat i)) (n2 (Z.to_nat i)))
                  (Py.range 0 (Z.of_nat N))).
  set (mxsxs := map (fun i => window_mean (map2 Rmult dxs dxs) (n1 (Z.to_nat i)) (n2 (Z.to_nat i)))
                    (Py.range 0 (Z.of_nat N))).
  set (mxxs := map (fun i => window_mean (map2 Rmult dx dxs) (n1 (Z.to_nat i)) (n2 (Z.to_nat i)))
                   (Py.range 0 (Z.of_nat N))).
  assert (Hmxx : length mxx = N) by (unfold mxx; now rewrite length_map).
  assert (Hmxsxs : length mxsxs = N) by (unfold mxsxs; now rewrite length_map).
  assert (Hmxxs : length mxxs = N) by (unfold mxxs; now rewrite length_map).
  rewrite !np_broadcast2_same by (unfold N in *; congruence). cbn [Py.bind].
  rewrite np_broadcast2_same by (rewrite !map2_length; unfold N in *; congruence).
  cbn [Py.bind].
  exists mx, mxs, mxx, mxxs, mxsxs,
    (map sqrt (map2 Rminus (map2 Rmult mxx mxsxs) (map2 Rmult mxxs mxxs))).
  split; [reflexivity|].
  repeat (split; [assumption|]).
  split; [rewrite length_map, !map2_length; rewrite ?map2_length; unfold N in *; congruence|].
  cbv zeta. intros i Hi.
  split; [exact (proj1 (@window_bounds N m HN Hm i Hi))|].
  unfold mx, mxs, mxx, mxsxs, mxxs.
  rewrite !nth_map_range by exact Hi. rewrite !Nat2Z.id.
  repeat (split; [reflexivity|]).
  fold mx mxs. fold mxx mxsxs mxxs.
  rewrite (nth_indep _ 0 (sqrt 0))
    by (rewrite length_map, !map2_length; rewrite ?map2_length; unfold N in *; congruence).
  rewrite map_nth.
  rewrite !nth_map2_R by (rewrite ?map2_length; unfold N in *; congruence || lia).
  unfold mxx, mxsxs, mxxs. rewrite !nth_map_range by exact Hi.
  rewrite !Nat2Z.id. reflexivity.
Qed.

Lemma slice_analysis_windows_witness :
  exists mx rest,
    slice_analysis [0; 1; 2; 3] [3; 0; 2; 5] [0; 1; 0; 1] 2 false = Ok (mx :: rest) /\
    nth 1 mx 0 = window_mean [3; 0; 2; 5] 0 2.
Proof.
  destruct (@slice_analysis_windows [0; 1; 2; 3] [3; 0; 2; 5] [0; 1; 0; 1] 2)
    as (mx & mxs & mxx & mxxs & mxsxs & emittx & Hrun & _ & _ & _ & _ & _ & _ & Hw).
  - cbn. lia.
  - reflexivity.
  - exists mx. eexists. split; [exact Hrun|].
    destruct (Hw 1%nat ltac:(cbn; lia)) as (_ & H & _).
    rewrite H. replace (2 / 2) with (IZR 1) by lra. rewrite np_round_IZR.
    reflexivity.
Defined.

(* ------------------------------------------------------------------ *)
(** * [get_current]: the histogram holds every particle *)

(** Counting the entries of a list bin by bin counts each entry once. *)
Lemma bin_counts_total {A} (index : A -> nat) (n : nat) (a : list A) :
  (forall v, In v a -> (index v < n)%nat) ->
  list_sum (map (fun k => length (filter (fun v => (index v =? k)%nat) a)) (seq 0 n))
  = length a.
Proof.
  induction a as [|v a IH]; intros Hb.
  - induction (seq 0 n) as [|k s IHs]; simpl; [reflexivity | exact IHs].
  - assert (Hv : (index v < n)%nat) by (apply Hb; now left).
    specialize (IH (fun w Hw => Hb w (or_intror Hw))).
    cbn [length]. rewrite <- IH. clear IH Hb.
    assert (Hone : forall s : list nat,
              list_sum (map (fun k => length (filter (fun w => (index w =? k)%nat) (v :: a))) s)
              = (list_sum (map (fun k => if (index v =? k)%nat then 1 else 0) s)
                 + list_sum (map (fun k => length (filter (fun w => (index w =? k)%nat) a)) s))%nat).
    { intros s. unfold list_sum. induction s as [|k s IHs]; [reflexivity|].
      cbn [map fold_right]. rewrite IHs. cbn [filter].
      destruct (index v =? k)%nat; cbn [length]; lia. }
    rewrite Hone.
    assert (Hind : forall start len,
              list_sum (map (fun k => if (index v =? k)%nat then 1%nat else 0%nat)
                            (seq start len))
              = if ((start <=? index v) && (index v <? start + len))%nat then 1%nat else 0%nat).
    { intros start len. unfold list_sum.
      revert start. induction len as [|len IHl]; intros start.
      - cbn [seq map fold_right]. destruct (Nat.leb_spec start (index v)); cbn [andb];
          [|reflexivity]. destruct (Nat.ltb_spec (index v) (start + 0)); [lia | reflexivity].
      - cbn [seq map fold_right]. rewrite IHl.
        destruct (Nat.eqb_spec (index v) start) as [E|E].
        + destruct (Nat.leb_spec (S start) (index v)); [lia|].
          destruct (Nat.leb_spec start (index v)); [|lia].
          destruct (Nat.ltb_spec (index v) (start + S len)); [|lia]. reflexivity.
        + destruct (Nat.leb_spec (S start) (index v));
            destruct (Nat.leb_spec start (index v)); try lia; cbn [andb];
            try reflexivity.
          destruct (Nat.ltb_spec (index v) (S start + len));
            destruct (Nat.ltb_spec (index v) (start + S len)); try lia; reflexivity. }
    rewrite Hind. destruct (Nat.leb_spec 0 (index v)); [|lia].
    destruct (Nat.ltb_spec (index v) (0 + n)); [|lia]. reflexivity.
Qed.

Lemma np_sum_map_INR (l : list nat) : np_sum (map INR l) = INR (list_sum l).
Proof.
  unfold list_sum. induction l as [|k l IH]; cbn [map fold_right].
  - rewrite np_sum_nil. reflexivity.
  - rewrite np_sum_cons, IH, plus_INR. reflexivity.
Qed.

Lemma match_nonempty {A B} (l : list A) (x y : B) :
  l <> [] -> match l with [] => x | _ :: _ => y end = y.
Proof. intros H. destruct l; [contradiction | reflexivity]. Qed.

(** A value between the outer edges falls in one of the [n] bins. *)
Lemma histogram_index_bound (lo hi v : R) (bins : Z) :
  lo < hi -> lo <= v <= hi -> (1 <= bins)%Z ->
  let k := Zfloor ((v - lo) / (hi - lo) * IZR bins) in
  (Z.to_nat (if (k =? bins)%Z then k - 1 else k) < Z.to_nat bins)%nat.
Proof.
  intros Hlh Hv Hb k.
  assert (Hn : 1 <= IZR bins) by (apply IZR_le in Hb; exact Hb).
  assert (Ht0 : 0 <= (v - lo) / (hi - lo)).
  { apply Rmult_le_pos; [lra|]. left. apply Rinv_0_lt_compat. lra. }
  assert (Ht1 : (v - lo) / (hi - lo) <= 1).
  { apply Rmult_le_reg_r with (hi - lo); [lra|].
    unfold Rdiv. rewrite Rmult_assoc, Rinv_l by lra. lra. }
  assert (Hk0 : (0 <= k)%Z).
  { unfold k. apply Zfloor_lub. cbn [IZR]. apply Rmult_le_pos; lra. }
  assert (Hk1 : (k <= bins)%Z).
  { assert (Hle : (v - lo) / (hi - lo) * IZR bins <= IZR bins).
    { apply Rle_trans with (1 * IZR bins); [apply Rmult_le_compat_r; lra | lra]. }
    apply Zfloor_le in Hle. rewrite ZfloorZ in Hle. exact Hle. }
  destruct (Z.eqb_spec k bins); lia.
Qed.

(** X27.  [get_current] on a bunch whose tau values are not all equal:
    it returns [num_bins + 1] bin edges from min(tau) to max(tau) and as
    many currents, the last current repeating the one before it; the
    first [num_bins] currents times the bin duration
    (max - min)/num_bins/c sum to the number of particles times the
    charge, which is [charge] or, for [charge = None], [q_array[0]]:
    every particle is counted once. *)
Theorem get_current_conserves_charge
        (c : R) (pa : ParticleArray.t) (charge : option R) (q : R) (num_bins : Z) :
  c <> 0 -> (1 <= num_bins)%Z ->
  let z := ParticleArray.tau pa in
  np_min z < np_max z ->
  (charge = Some q \/ (charge = None /\ nth_error (ParticleArray.q_array pa) 0 = Some q)) ->
  let n := Z.to_nat num_bins in
  let t_bins := (np_max z - np_min z) / IZR num_bins / c in
  exists edges I,
    get_current c pa charge num_bins = Ok (edges, I) /\
    length edges = S n /\ length I = S n /\
    nth 0 edges 0 = np_min z /\ nth n edges 0 = np_max z /\
    nth n I 0 = nth (n - 1) I 0 /\
    np_sum (firstn n I) * t_bins = INR (length z) * q.
Proof.
  intros Hc Hb z Hz Hq n t_bins.
  assert (Hn : (1 <= n)%nat) by (unfold n; lia).
  assert (HIn : 1 <= IZR num_bins) by (apply IZR_le in Hb; exact Hb).
  assert (Hne : z <> []).
  { intros E. rewrite E in Hz. cbn in Hz. lra. }
  assert (Ht : t_bins <> 0).
  { unfold t_bins. unfold Rdiv.
    apply Rmult_integral_contrapositive_currified;
      [apply Rmult_integral_contrapositive_currified|];
      try (apply Rinv_neq_0_compat); lra. }
  unfold get_current. fold z.
  replace (match charge with
           | Some q0 => Ok q0
           | None => getitem (ParticleArray.q_array pa) 0
           end) with (Ok q).
  2:{ destruct Hq as [->|[-> Hq]]; [reflexivity|]. unfold getitem. now rewrite Hq. }
  cbn [Py.bind]. unfold np_histogram.
  destruct (Z.ltb_spec num_bins 1); [lia|].
  rewrite !(match_nonempty _ _ Hne).
  destruct (Req_dec_T (np_min z) (np_max z)) as [E|_]; [lra|].
  cbn [Py.bind]. fold n.
  match goal with
  | |- context [getitemZ ?h (-1)] => set (hist := h)
  end.
  assert (Hlh : length hist = n) by (unfold hist; now rewrite length_map, length_seq).
  assert (Htotal : list_sum hist = length z).
  { unfold hist.
    match goal with
    | |- list_sum (map (fun k => length (filter (fun v => (?f =? k)%nat) _)) _) = _ =>
        apply (bin_counts_total (fun v => f))
    end.
    intros v Hv.
    apply (@histogram_index_bound (np_min z) (np_max z) v num_bins Hz);
      [apply np_min_max_bounds; exact Hv | exact Hb]. }
  rewrite getitemZ_norm_index, Hlh.
  destruct (@norm_index_inside n (-1)) as (i & Hi & Hilt & Hiz); [lia|].
  rewrite Hi. cbn [Py.bind].
  assert (Ei : i = (n - 1)%nat) by (cbn in Hiz; lia). subst i.
  destruct (@getitem_Ok_lt _ hist (n - 1)%nat) as (lastv & Hlast & Hnth); [lia|].
  rewrite Hlast. cbn [Py.bind].
  eexists. eexists. split; [reflexivity|].
  assert (Hlastv : lastv = nth (n - 1) hist 0%nat).
  { symmetry. apply nth_error_nth. exact Hnth. }
  split; [unfold np_linspace; rewrite length_map, length_seq; lia|].
  split; [rewrite length_map, length_app, Hlh; cbn [length]; lia|].
  match goal with
  | |- context [map ?f (hist ++ [lastv])] => set (cur := f)
  end.
  split; [|split; [|split]].
  - unfold np_linspace. replace (n + 1)%nat with (S n) by lia.
    cbn [seq map nth INR]. lra.
  - unfold np_linspace.
    rewrite (nth_indep _ 0 ((fun k => np_min z + INR k * ((np_max z - np_min z) / INR (n + 1 - 1))) 0%nat))
      by (rewrite length_map, length_seq; lia).
    rewrite (map_nth (fun k => np_min z + INR k * ((np_max z - np_min z) / INR (n + 1 - 1)))).
    rewrite seq_nth by lia. cbn [Nat.add].
    replace (n + 1 - 1)%nat with n by lia.
    assert (0 < INR n) by (apply lt_0_INR; lia). field. lra.
  - rewrite (nth_indep _ 0 (cur 0%nat)) by (rewrite length_map, length_app, Hlh; cbn [length]; lia).
    rewrite (nth_indep _ 0 (cur 0%nat) (n := (n - 1)%nat))
      by (rewrite length_map, length_app, Hlh; cbn [length]; lia).
    rewrite !(map_nth cur).
    rewrite app_nth2 by lia. rewrite Hlh, Nat.sub_diag. cbn [nth].
    rewrite app_nth1 by lia. now rewrite Hlastv.
  - rewrite firstn_map, firstn_app, Hlh, Nat.sub_diag. cbn [firstn].
    rewrite app_nil_r, <- Hlh, firstn_all.
    replace (map cur hist) with (map (fun h => q / t_bins * h) (map INR hist))
      by (rewrite map_map; apply map_ext; intros h; unfold cur, t_bins, Rdiv; ring).
    rewrite np_sum_scale, np_sum_map_INR, Htotal. field. exact Ht.
Qed.

Lemma get_current_conserves_charge_witness :
  let pa := ParticleArray.mk [[0; 0; 0]; [0; 0; 0]; [0; 0; 0]; [0; 0; 0]; [1; 3; 2];
                              [0; 0; 0]] [5; 5; 5] 0 0 in
  exists edges I,
    get_current 2 pa None 4 = Ok (edges, I) /\
    length I = 5%nat /\
    np_sum (firstn 4 I) * ((np_max [1; 3; 2] - np_min [1; 3; 2]) / 4 / 2) = 3 * 5.
Proof.
  intros pa.
  destruct (@get_current_conserves_charge 2 pa None 5 4)
    as (edges & I & Hrun & _ & HI & _ & _ & _ & Hsum).
  - lra.
  - lia.
  - change (np_min [1; 3; 2] < np_max [1; 3; 2]).
    destruct (np_min_max_bounds [1; 3; 2] 1 (or_introl eq_refl)) as [H1 _].
    destruct (np_min_max_bounds [1; 3; 2] 3 (or_intror (or_introl eq_refl))) as [_ H3].
    lra.
  - right. split; reflexivity.
  - exists edges, I. split; [exact Hrun|]. split; [exact HI|].
    change (np_sum (firstn 4 I) * ((np_max [1; 3; 2] - np_min [1; 3; 2]) / 4 / 2)
            = INR 3 * 5) in Hsum.
    rewrite Hsum. cbn [INR]. lra.
Defined.

(* ------------------------------------------------------------------ *)
(** * The objective function on a vector of the wrong length *)

Section ErrorFuncLengths.

Import Mint.

Context {W : Type}.
Variable self : Optimizer.t W.
Variable elapse : R -> W -> W.

Local Abbreviation dp := (Optimizer.dp self).
Local Abbreviation mi := (Optimizer.mi self).

(** The loops read the two sequences at the listed indices only. *)
Lemma limits_exceeded_ext (c1 c2 : list device) (x1 x2 : list R) (idx : list nat) :
  (forall i, In i idx -> getitem c1 i = getitem c2 i /\ getitem x1 i = getitem x2 i) ->
  Optimizer.limits_exceeded self c1 x1 idx = Optimizer.limits_exceeded self c2 x2 idx.
Proof.
  induction idx as [|i idx IH]; intros H; [reflexivity|].
  cbn [Optimizer.limits_exceeded].
  destruct (H i (or_introl eq_refl)) as [-> ->].
  rewrite IH by (intros j Hj; apply H; now right). reflexivity.
Qed.

Lemma set_all_ext (c1 c2 : list device) (x1 x2 : list R) (idx : list nat) :
  (forall i, In i idx -> getitem c1 i = getitem c2 i /\ getitem x1 i = getitem x2 i) ->
  Optimizer.set_all self c1 x1 idx = Optimizer.set_all self c2 x2 idx.
Proof.
  induction idx as [|i idx IH]; intros H; [reflexivity|].
  cbn [Optimizer.set_all].
  destruct (H i (or_introl eq_refl)) as [-> ->].
  rewrite IH by (intros j Hj; apply H; now right). reflexivity.
Qed.

Lemma limits_exceeded_app (cs : list device) (x : list R) (idx1 idx2 : list nat) :
  Optimizer.limits_exceeded self cs x idx1 = Ok false ->
  Optimizer.limits_exceeded self cs x (idx1 ++ idx2)
  = Optimizer.limits_exceeded self cs x idx2.
Proof.
  induction idx1 as [|i idx1 IH]; intros H; [reflexivity|].
  cbn [app Optimizer.limits_exceeded] in *.
  destruct (getitem cs i) as [c|e]; cbn [Py.bind] in *; [|discriminate H].
  destruct (getitem x i) as [xi|e]; cbn [Py.bind] in *; [|discriminate H].
  destruct (getitem (get_limits dp c) 0) as [l0|e]; cbn [Py.bind] in *; [|discriminate H].
  destruct (getitem (get_limits dp c) 1) as [l1|e]; cbn [Py.bind] in *; [|discriminate H].
  destruct (Rltb xi l0 || Rgtb xi l1); [discriminate H|]. apply IH. exact H.
Qed.

Lemma set_all_app (cs : list device) (x : list R) (idx1 idx2 : list nat)
      (st st' : W * list event) :
  Optimizer.set_all self cs x idx1 st = (Ok tt, st') ->
  Optimizer.set_all self cs x (idx1 ++ idx2) st = Optimizer.set_all self cs x idx2 st'.
Proof.
  revert st. induction idx1 as [|i idx1 IH]; intros st H.
  - cbn in H. injection H as <-. reflexivity.
  - cbn [app Optimizer.set_all] in *. unfold bindM, lift in *.
    destruct (getitem cs i) as [c|e]; [|discriminate H].
    destruct (getitem x i) as [xi|e]; [|discriminate H].
    destruct (Optimizer.mi_set_value self c xi st) as [[u|e] st1]; [|discriminate H].
    apply IH. exact H.
Qed.

Lemma getitem_firstn {A} (l : list A) (n i : nat) :
  (i < n)%nat -> getitem (firstn n l) i = getitem l i.
Proof.
  intros H. unfold getitem. now rewrite nth_error_firstn, (proj2 (Nat.ltb_lt i n) H).
Qed.

Lemma combine_firstn_l {A B} (l1 : list A) (l2 : list B) :
  combine (firstn (length l2) l1) l2 = combine l1 l2.
Proof.
  revert l2. induction l1 as [|a l1 IH]; intros [|b l2]; cbn [length firstn combine];
    try reflexivity. now rewrite IH.
Qed.

Lemma combine_firstn_r {A B} (l1 : list A) (l2 : list B) :
  combine l1 (firstn (length l1) l2) = combine l1 l2.
Proof.
  revert l2. induction l1 as [|a l1 IH]; intros [|b l2]; cbn [length firstn combine];
    try reflexivity. now rewrite IH.
Qed.

(** X28.  [error_func] on a vector whose length is not the number of
    correctors, all values it pairs with a corrector being inside the
    limits: a vector that is too short is written to the first
    [len(x)] correctors and then IndexError is raised, before the wait
    and the readings; a vector that is too long raises IndexError in
    the limit check, before any write. *)
Theorem error_func_length_mismatch
        (correctors : list device) (x : list R) (w : W) (log : list event) :
  (forall c, In c correctors -> (2 <= length (get_limits dp c))%nat) ->
  Forall (fun cv => ~ MintSpec.outside_limits dp (fst cv) (snd cv))
         (combine correctors x) ->
  ((length x < length correctors)%nat ->
   let written := firstn (length x) correctors in
   Optimizer.error_func self elapse correctors x (w, log)
   = (Raise IndexError,
      (MintSpec.written mi written x w, log ++ MintSpec.writes written x))) /\
  ((length correctors < length x)%nat ->
   Optimizer.error_func self elapse correctors x (w, log)
   = (Raise IndexError, (w, log))).
Proof.
  intros Hlim Hin. split.
  - intros Hlt written.
    assert (Hlw : length written = length x)
      by (unfold written; rewrite length_firstn; lia).
    assert (Hin' : Forall (fun cv => ~ MintSpec.outside_limits dp (fst cv) (snd cv))
                          (combine written x))
      by (unfold written; now rewrite combine_firstn_l).
    assert (Hlim' : forall c, In c written -> (2 <= length (get_limits dp c))%nat).
    { intros c Hc. apply Hlim. unfold written in Hc.
      rewrite <- (firstn_skipn (length x) correctors). apply in_or_app. now left. }
    assert (Hext : forall i, In i (seq 0 (length x)) ->
              getitem correctors i = getitem written i /\ getitem x i = getitem x i).
    { intros i Hi. apply in_seq in Hi. split; [|reflexivity].
      unfold written. symmetry. apply getitem_firstn. lia. }
    unfold Optimizer.error_func, bindM at 1, lift at 1.
    rewrite (@limits_exceeded_ext _ _ _ _ _ Hext).
    destruct (@limits_exceeded_from W self [] written [] x eq_refl Hlw Hlim') as [_ Hall].
    cbn [app length] in Hall. rewrite (Hall Hin').
    unfold bindM at 1.
    replace (seq 0 (length correctors))
      with (seq 0 (length x) ++ seq (length x) (length correctors - length x))
      by (rewrite <- seq_app; f_equal; lia).
    assert (Hset := @set_all_from W self [] written [] x w log eq_refl Hlw).
    cbn [app length] in Hset. rewrite Hlw in Hset.
    rewrite <- (@set_all_ext _ _ _ _ _ Hext) in Hset.
    rewrite (@set_all_app _ _ _ _ _ _ Hset).
    destruct (length correctors - length x)%nat as [|k] eqn:Ek; [lia|].
    cbn [seq Optimizer.set_all]. unfold bindM, lift.
    destruct (getitem_Ok_lt correctors Hlt) as (c & Hc & _). rewrite Hc.
    rewrite (getitem_Raise_ge x (Nat.le_refl _)). reflexivity.
  - intros Hlt.
    set (x1 := firstn (length correctors) x).
    assert (Hlx : length correctors = length x1)
      by (unfold x1; rewrite length_firstn; lia).
    assert (Hin' : Forall (fun cv => ~ MintSpec.outside_limits dp (fst cv) (snd cv))
                          (combine correctors x1))
      by (unfold x1; now rewrite combine_firstn_r).
    assert (Hext : forall i, In i (seq 0 (length correctors)) ->
              getitem correctors i = getitem correctors i /\ getitem x i = getitem x1 i).
    { intros i Hi. apply in_seq in Hi. split; [reflexivity|].
      unfold x1. symmetry. apply getitem_firstn. lia. }
    unfold Optimizer.error_func, bindM at 1, lift at 1.
    replace (seq 0 (length x))
      with (seq 0 (length correctors) ++ seq (length correctors) (length x - length correctors))
      by (rewrite <- seq_app; f_equal; lia).
    destruct (@limits_exceeded_from W self [] correctors [] x1 eq_refl Hlx Hlim)
      as [_ Hall].
    cbn [app length] in Hall. rewrite <- Hlx in Hall.
    rewrite <- (@limits_exceeded_ext _ _ _ _ _ Hext) in Hall.
    rewrite (@limits_exceeded_app _ _ _ _ (Hall Hin')).
    destruct (length x - length correctors)%nat as [|k] eqn:Ek; [lia|].
    cbn [seq Optimizer.limits_exceeded].
    rewrite (getitem_Raise_ge correctors (Nat.le_refl _)). reflexivity.
Qed.

End ErrorFuncLengths.

Section ErrorFuncLengthsWitness.

Import Mint.
Import String.StringSyntax.

Lemma error_func_length_mismatch_witness :
  let self := Optimizer.init TestInterface
                {| get_limits := fun _ => [-1000; 1000] |} in
  let elapse := fun (_ : R) (w : unit) => w in
  Optimizer.error_func self elapse ["h1"%string; "h2"%string] [1] (tt, [])
  = (Raise IndexError, (tt, [SetValue "h1"%string 1])) /\
  Optimizer.error_func self elapse ["h1"%string] [1; 2] (tt, [])
  = (Raise IndexError, (tt, [])).
Proof.
  intros self elapse. split.
  - apply (@error_func_length_mismatch unit self elapse ["h1"%string; "h2"%string] [1] tt []).
    + intros c _. simpl. lia.
    + constructor; [|constructor]. intros [H|H]; simpl in H; lra.
    + simpl. lia.
  - apply (@error_func_length_mismatch unit self elapse ["h1"%string] [1; 2] tt []).
    + intros c _. simpl. lia.
    + constructor; [|constructor]. intros [H|H]; simpl in H; lra.
    + simpl. lia.
Defined.

End ErrorFuncLengthsWitness.

(* ------------------------------------------------------------------ *)
(** * The tuning loop: logging without a file, and unknown methods *)

Section MaxSaseEdges.

Import Mint.
Import MintTrace.
Import String.StringSyntax.

Context {W : Type}.
Variable self : Optimizer.t W.
Variable elapse : R -> W -> W.
Variable scipy : Scipy.
Variable correctors : list device.

Local Abbreviation mi := (Optimizer.mi self).

(** X29.  With [logging] switched on and no [log_file] attribute set
    (the constructor sets none), [max_sase] raises AttributeError when
    it opens the log: the objective and the initial corrector values
    have been read, no corrector has been written and no minimizer has
    run, whatever the method. *)
Theorem max_sase_logging_without_log_file
        (method : String.string) (params : list (String.string * R)) (w0 : W) :
  Optimizer.logging self = true ->
  Optimizer.log_file self = None ->
  let sase_ref := fst (get_sase mi w0) in
  let x_init := fst (init_corrector_vals mi correctors (snd (get_sase mi w0))) in
  let w1 := snd (init_corrector_vals mi correctors (snd (get_sase mi w0))) in
  Optimizer.max_sase self elapse scipy correctors method params (w0, [])
  = (Raise AttributeError,
     (w1, [GetSase sase_ref; InitCorrectorVals correctors x_init])).
Proof.
  intros Hlog Hfile. cbv zeta.
  unfold Optimizer.max_sase.
  unfold bindM at 1, Optimizer.mi_get_sase at 1. cbn [fst snd].
  destruct (get_sase mi w0) as [sref wa].
  unfold bindM at 1, Optimizer.mi_init_corrector_vals at 1. cbn [fst snd].
  destruct (init_corrector_vals mi correctors wa) as [x wb].
  cbn [fst snd app].
  unfold bindM at 1, Optimizer.log_start. rewrite Hlog, Hfile. reflexivity.
Qed.

Lemma log_start_events (method : String.string) (x_init : list R) (sase_ref : R)
      (w : W) (log : list event) :
  (Optimizer.logging self = true -> Optimizer.log_file self <> None) ->
  exists logged,
    Optimizer.log_start self correctors method x_init sase_ref (w, log)
    = (Ok tt, (w, log ++ logged)) /\
    Forall is_log logged.
Proof.
  intros Hlog. unfold Optimizer.log_start.
  destruct (Optimizer.logging self).
  - destruct (Optimizer.log_file self) as [name|]; [|exfalso; now apply Hlog].
    exists [FileOpen name; FileWrite LogBanner; FileWrite (LogCorrectors correctors);
            FileWrite (LogMethod method); FileWrite (LogX0 x_init);
            FileWrite (LogSase0 sase_ref)].
    split.
    + unfold bindM, emit. cbn [fst snd]. rewrite <- !app_assoc. reflexivity.
    + repeat constructor.
  - exists []. split; [unfold ret; now rewrite app_nil_r | constructor].
Qed.

(** X30.  A method name other than 'cg', 'simplex' and 'powell' (such
    as 'fancy_stuff_from') runs no minimizer: between the two readings
    of the objective nothing is written and no time is waited, the
    second reading is taken from the machine as the first two reads
    left it, and the correctors are written back to their initial
    values exactly when that reading is not above the first. *)
Theorem max_sase_unknown_method
        (method : String.string) (params : list (String.string * R)) (w0 : W) :
  String.eqb method "cg"%string = false ->
  String.eqb method "simplex"%string = false ->
  String.eqb method "powell"%string = false ->
  (forall w, length (fst (init_corrector_vals mi correctors w)) = length correctors) ->
  (Optimizer.logging self = true -> Optimizer.log_file self <> None) ->
  let sase_ref := fst (get_sase mi w0) in
  let x_init := fst (init_corrector_vals mi correctors (snd (get_sase mi w0))) in
  let w1 := snd (init_corrector_vals mi correctors (snd (get_sase mi w0))) in
  let sase_new := fst (get_sase mi w1) in
  let w2 := snd (get_sase mi w1) in
  exists logged0 logged1,
    Optimizer.max_sase self elapse scipy correctors method params (w0, [])
    = (Ok tt,
       (if Rle_dec sase_new sase_ref
        then MintSpec.written mi correctors x_init w2 else w2,
        [GetSase sase_ref; InitCorrectorVals correctors x_init] ++ logged0
        ++ [GetSase sase_new]
        ++ (if Rle_dec sase_new sase_ref
            then MintSpec.writes correctors x_init else [])
        ++ logged1)) /\
    Forall is_log logged0 /\ Forall is_log logged1.
Proof.
  intros Hcg Hsimplex Hpowell Hinit Hlog. cbv zeta.
  unfold Optimizer.max_sase. rewrite Hcg, Hsimplex, Hpowell.
  unfold bindM at 1, Optimizer.mi_get_sase at 1. cbn [fst snd].
  destruct (get_sase mi w0) as [sref wa] eqn:Eref.
  unfold bindM at 1, Optimizer.mi_init_corrector_vals at 1. cbn [fst snd].
  assert (Hx : length (fst (init_corrector_vals mi correctors wa)) = length correctors)
    by apply Hinit.
  destruct (init_corrector_vals mi correctors wa) as [x wb] eqn:Einit.
  cbn [fst snd] in *. cbn [app].
  set (log0 := [GetSase sref; InitCorrectorVals correctors x]).
  destruct (@log_start_events method x sref wb log0 Hlog) as (logged0 & H1 & Hl0).
  unfold bindM at 1. rewrite H1.
  unfold bindM at 1, ret at 1. unfold bindM at 1, ret at 1.
  unfold bindM at 1, ret at 1.
  unfold bindM at 1, Optimizer.mi_get_sase at 1. cbn [fst snd].
  destruct (get_sase mi wb) as [snew w5] eqn:Enew. cbn [fst snd].
  set (log5 := (log0 ++ logged0) ++ [GetSase snew]).
  unfold Rleb. destruct (Rle_dec snew sref) as [Hle|Hgt].
  - rewrite (@revert_all_is_set_all W self correctors).
    assert (Hset := @set_all_from W self [] correctors [] x w5 log5 eq_refl (eq_sym Hx)).
    cbn [app length] in Hset.
    unfold bindM at 1. rewrite Hset.
    destruct (@log_end_events W self snew (MintSpec.written mi correctors x w5)
                              (log5 ++ MintSpec.writes correctors x))
      as (logged1 & Hend & Hl1).
    exists logged0, logged1. split; [|split; assumption].
    rewrite Hend. unfold log5, log0. rewrite <- !app_assoc. reflexivity.
  - unfold bindM at 1, ret at 1.
    destruct (@log_end_events W self snew w5 log5) as (logged1 & Hend & Hl1).
    exists logged0, logged1. split; [|split; assumption].
    rewrite Hend. unfold log5, log0. rewrite <- !app_assoc. reflexivity.
Qed.

End MaxSaseEdges.

Section MaxSaseEdgesWitness.

Import Mint.
Import String.StringSyntax.

Lemma max_sase_logging_without_log_file_witness :
  let self := {| Optimizer.debug := false; Optimizer.mi := TestInterface;
                 Optimizer.dp := {| get_limits := fun _ => [-1000; 1000] |};
                 Optimizer.timeout := 1; Optimizer.logging := true;
                 Optimizer.log_file := None |} in
  let scipy := {| fmin_cg := fun _ _ _ => None; fmin := fun _ _ _ => None;
                  fmin_powell := fun _ _ _ => None; evaluations := fun _ => 5%nat |} in
  Optimizer.max_sase self (fun _ w => w) scipy ["h1"%string] "simplex"%string [] (tt, [])
  = (Raise AttributeError, (tt, [GetSase 0; InitCorrectorVals ["h1"%string] [0]])).
Proof.
  intros self scipy.
  apply (@max_sase_logging_without_log_file unit self (fun _ w => w) scipy
           ["h1"%string] "simplex"%string [] tt); reflexivity.
Defined.

Lemma max_sase_unknown_method_witness :
  let self := Optimizer.init TestInterface
                {| get_limits := fun _ => [-1000; 1000] |} in
  let scipy := {| fmin_cg := fun _ _ _ => None; fmin := fun _ _ _ => None;
                  fmin_powell := fun _ _ _ => None; evaluations := fun _ => 5%nat |} in
  exists logged0 logged1,
    Optimizer.max_sase self (fun _ w => w) scipy ["h1"%string]
                       "fancy_stuff_from"%string [] (tt, [])
    = (Ok tt,
       (if Rle_dec 0 0 then MintSpec.written TestInterface ["h1"%string] [0] tt else tt,
        [GetSase 0; InitCorrectorVals ["h1"%string] [0]] ++ logged0
        ++ [GetSase 0]
        ++ (if Rle_dec 0 0 then MintSpec.writes ["h1"%string] [0] else [])
        ++ logged1)).
Proof.
  intros self scipy.
  destruct (@max_sase_unknown_method unit self (fun _ w => w) scipy ["h1"%string]
              "fancy_stuff_from"%string [] tt)
    as (logged0 & logged1 & Hrun & _); try reflexivity.
  - intros H. discriminate H.
  - exists logged0, logged1. exact Hrun.
Defined.

End MaxSaseEdgesWitness.
